(** * The Python worker pool of [PythonInterpretationProcessor.js]

    A shallow embedding of the two classes of the service,
    [PersistentWorker] and [PythonInterpretationProcessor], together with
    the part of the JavaScript runtime they rely on (strings of UTF-16 code
    units, [Buffer.toString], timers, child processes, promise handles). *)

From Stdlib Require Import ZArith NArith Ascii String List Lia.
From Stdlib.Strings Require Import Byte.
From Stdlib Require Import DecimalString.
From Stdlib Require QArith.
From stdpp Require Import base option list sorting gmap.

Local Open Scope Z_scope.

(** ** JavaScript strings *)

(** A JavaScript string is a sequence of UTF-16 code units. *)
Abbreviation jsstring := (list N).

(** A literal of the source, written with ASCII characters only. *)
Definition js (s : string) : jsstring :=
  List.map N_of_ascii (list_ascii_of_string s).
Global Arguments js : simpl never.

Definition LF : N := 10%N.

(** The code units [String.prototype.trim] removes: WhiteSpace and
    LineTerminator of ECMAScript. *)
Definition is_js_space (c : N) : bool :=
  ((9 <=? c) && (c <=? 13))%N
  || (c =? 0x20)%N || (c =? 0xA0)%N || (c =? 0x1680)%N
  || ((0x2000 <=? c) && (c <=? 0x200A))%N
  || (c =? 0x2028)%N || (c =? 0x2029)%N || (c =? 0x202F)%N
  || (c =? 0x205F)%N || (c =? 0x3000)%N || (c =? 0xFEFF)%N.

Fixpoint trimStart (s : jsstring) : jsstring :=
  match s with
  | c :: s' => if is_js_space c then trimStart s' else s
  | [] => []
  end.

Definition trimEnd (s : jsstring) : jsstring :=
  List.rev (trimStart (List.rev s)).

(** [s.trim()] *)
Definition trim (s : jsstring) : jsstring := trimEnd (trimStart s).

(** [s.indexOf(c)] for a one-unit needle; [None] stands for [-1]. *)
Fixpoint indexOf (c : N) (s : jsstring) : option nat :=
  match s with
  | [] => None
  | x :: s' => if (x =? c)%N then Some 0%nat else S <$> indexOf c s'
  end.

(** [String(n)] for an integer. *)
Definition js_of_Z (z : Z) : jsstring :=
  js (NilEmpty.string_of_int (Z.to_int z)).

(** ** [Buffer.prototype.toString()]: UTF-8 decoding

    Node decodes the bytes of one [Buffer] as UTF-8; every ill-formed
    sequence, a sequence cut by the end of the buffer included, becomes
    U+FFFD. The decoder below is the one of the WHATWG Encoding standard. *)

Definition REPLACEMENT : N := 0xFFFD%N.

(** The pending multi-byte sequence: continuation bytes still needed, the
    code point so far, and the range allowed for the next byte. *)
Definition Utf8Pending : Type := nat * N * N * N.

Definition utf8_lead (b : N) : list N * option Utf8Pending :=
  (if b <=? 0x7F then ([b], None)
   else if (0xC2 <=? b) && (b <=? 0xDF)
        then ([], Some (1%nat, N.land b 0x1F, 0x80, 0xBF))
   else if (0xE0 <=? b) && (b <=? 0xEF)
        then ([], Some (2%nat, N.land b 0xF,
                        (if b =? 0xE0 then 0xA0 else 0x80),
                        (if b =? 0xED then 0x9F else 0xBF)))
   else if (0xF0 <=? b) && (b <=? 0xF4)
        then ([], Some (3%nat, N.land b 0x7,
                        (if b =? 0xF0 then 0x90 else 0x80),
                        (if b =? 0xF4 then 0x8F else 0xBF)))
   else ([REPLACEMENT], None))%N.

Fixpoint utf8_decode (st : option Utf8Pending) (bs : list N) : list N :=
  match bs with
  | [] => match st with None => [] | Some _ => [REPLACEMENT] end
  | b :: bs' =>
      match st with
      | None =>
          let '(out, st') := utf8_lead b in out ++ utf8_decode st' bs'
      | Some (n, cp, lo, hi) =>
          if ((lo <=? b) && (b <=? hi))%N then
            let cp' := N.lor (N.shiftl cp 6) (N.land b 0x3F) in
            match n with
            | S (S n') => utf8_decode (Some (S n', cp', 0x80, 0xBF)%N) bs'
            | _ => cp' :: utf8_decode None bs'
            end
          else
            let '(out, st') := utf8_lead b in
            REPLACEMENT :: out ++ utf8_decode st' bs'
      end
  end.

(** A code point as UTF-16 code units (a surrogate pair above U+FFFF). *)
Definition utf16_units (cp : N) : list N :=
  (if cp <? 0x10000 then [cp]
   else [0xD800 + N.shiftr (cp - 0x10000) 10;
         0xDC00 + N.land (cp - 0x10000) 0x3FF])%N.

Definition Buffer_toString (data : list byte) : jsstring :=
  flat_map utf16_units (utf8_decode None (List.map Byte.to_N data)).

(** ** Output framing, lines 38-46 of the source

    [frame buf] runs the [while] loop of the [data] handler on the buffer
    [buf]: it returns the lines handed to [handleResultLine], in order, and
    the buffer the loop leaves. The loop removes at least the terminator
    from the buffer at each round, so the length of the buffer bounds the
    number of rounds. *)

Fixpoint frame_loop (rounds : nat) (buf : jsstring) : list jsstring * jsstring :=
  match rounds with
  | O => ([], buf)
  | S r =>
      match indexOf LF buf with
      | None => ([], buf)
      | Some idx =>
          let line := trim (take idx buf) in
          let '(ls, rest) := frame_loop r (drop (S idx) buf) in
          match line with
          | [] => (ls, rest)
          | _ => (line :: ls, rest)
          end
      end
  end.

Definition frame (buf : jsstring) : list jsstring * jsstring :=
  frame_loop (S (length buf)) buf.

(** One [data] event on a worker whose buffer is [buf]. *)
Definition feed (buf : jsstring) (data : list byte) : list jsstring * jsstring :=
  frame (buf ++ Buffer_toString data).

(** Several [data] events in a row: the lines handed over, in order, and
    the last buffer. *)
Fixpoint feed_all (buf : jsstring) (chunks : list (list byte))
  : list jsstring * jsstring :=
  match chunks with
  | [] => ([], buf)
  | c :: cs =>
      let '(ls, buf') := feed buf c in
      let '(ls', buf'') := feed_all buf' cs in
      (ls ++ ls', buf'')
  end.


(** ** Values *)

(** The values the service handles: JSON values, and [NaN], which
    [Number(undefined)] yields. A JSON object is the list of its
    properties. *)
#[warnings="-register-all"]
Inductive JSValue :=
| JNull
| JBool (b : bool)
| JNum (n : Z)
| JNaN
| JStr (s : jsstring)
| JArr (items : list JSValue)
| JObj (fields : list (jsstring * JSValue)).

Fixpoint assoc (k : jsstring) (fs : list (jsstring * JSValue)) : option JSValue :=
  match fs with
  | [] => None
  | (k', v) :: fs' => if bool_decide (k' = k) then Some v else assoc k fs'
  end.

(** [v.k] for one of the property names the service reads ([status],
    [error], [__t]); [None] is [undefined]. The service reads properties
    of the result of [JSON.parse] on a text that starts with a brace or a
    bracket, which is an object or an array. *)
Definition prop (v : JSValue) (k : jsstring) : option JSValue :=
  match v with
  | JObj fs => assoc k fs
  | _ => None
  end.

(** What a task's promise is resolved with. *)
Record Outcome := {
  success : bool;
  result : option JSValue;
  error : option JSValue;
  executionTime : JSValue
}.

(** A queued task, lines 202-203. [handle] is the identity of the promise
    whose [resolve] the task carries. *)
Record Task := {
  handle : nat;
  rid : jsstring;
  interpretation : JSValue;
  __start : option Z
}.

Inductive Stdin :=
| StdinNull
| StdinOpen
| StdinThrows (message : jsstring).

Record ChildProcess := { pid : nat; stdin : Stdin }.

Record PersistentWorker := {
  proc : option ChildProcess;
  busy : bool;
  stdoutBuffer : jsstring;
  currentTask : option Task;
  currentTimeout : option nat;
  idleTimer : option nat;
  shouldRespawn : bool
}.

(** The closures handed to [setTimeout]; [i] is the position in
    [workers] of the worker that armed the timer. *)
Inductive TimerCallback :=
| TaskTimeout (i : nat) (timeoutMs : Z)
| IdleScaleDown (i : nat) (ttlMs : Z)
| Respawn (i : nat).

(** The lines written to the console, one constructor for each call. *)
Inductive Console :=
| PythonOut (trimmed : jsstring)
| PythonLog (s : jsstring)
| InvalidJsonLine
| UnmatchedResult (head : jsstring)
| ProcessError (message : jsstring)
| ProcessClosed (code : option Z)
| TimeoutKill (timeoutMs : Z)
| TaskSent (rid : jsstring)
| StdinWriteFailed (message : jsstring)
| IdleKill (ttlMs : Z)
| TaskQueued (rid : jsstring) (len : nat)
| ScalingUp (n : nat) (max : Z).

(** The pool and the part of the runtime it acts on. *)
Record State := {
  minPool : Z;
  maxPool : Z;
  taskTimeoutMs : Z;
  idleTtlMs : Z;
  queue : list Task;
  workers : list PersistentWorker;
  now : Z;
  timers : gmap nat (Z * TimerCallback);
  next_timer : nat;
  next_pid : nat;
  next_handle : nat;
  signals : list nat;
  written : list (nat * JSValue);
  settled : list (nat * Outcome);
  console : list Console
}.

(** ** Field updates *)

Definition set_proc (p : option ChildProcess) (w : PersistentWorker) :=
  {| proc := p; busy := busy w; stdoutBuffer := stdoutBuffer w;
     currentTask := currentTask w; currentTimeout := currentTimeout w;
     idleTimer := idleTimer w; shouldRespawn := shouldRespawn w |}.
Definition set_busy (b : bool) (w : PersistentWorker) :=
  {| proc := proc w; busy := b; stdoutBuffer := stdoutBuffer w;
     currentTask := currentTask w; currentTimeout := currentTimeout w;
     idleTimer := idleTimer w; shouldRespawn := shouldRespawn w |}.
Definition set_stdoutBuffer (b : jsstring) (w : PersistentWorker) :=
  {| proc := proc w; busy := busy w; stdoutBuffer := b;
     currentTask := currentTask w; currentTimeout := currentTimeout w;
     idleTimer := idleTimer w; shouldRespawn := shouldRespawn w |}.
Definition set_currentTask (t : option Task) (w : PersistentWorker) :=
  {| proc := proc w; busy := busy w; stdoutBuffer := stdoutBuffer w;
     currentTask := t; currentTimeout := currentTimeout w;
     idleTimer := idleTimer w; shouldRespawn := shouldRespawn w |}.
Definition set_currentTimeout (t : option nat) (w : PersistentWorker) :=
  {| proc := proc w; busy := busy w; stdoutBuffer := stdoutBuffer w;
     currentTask := currentTask w; currentTimeout := t;
     idleTimer := idleTimer w; shouldRespawn := shouldRespawn w |}.
Definition set_idleTimer (t : option nat) (w : PersistentWorker) :=
  {| proc := proc w; busy := busy w; stdoutBuffer := stdoutBuffer w;
     currentTask := currentTask w; currentTimeout := currentTimeout w;
     idleTimer := t; shouldRespawn := shouldRespawn w |}.
Definition set_shouldRespawn (b : bool) (w : PersistentWorker) :=
  {| proc := proc w; busy := busy w; stdoutBuffer := stdoutBuffer w;
     currentTask := currentTask w; currentTimeout := currentTimeout w;
     idleTimer := idleTimer w; shouldRespawn := b |}.

Definition set_queue (q : list Task) (s : State) :=
  {| minPool := minPool s; maxPool := maxPool s;
     taskTimeoutMs := taskTimeoutMs s; idleTtlMs := idleTtlMs s;
     queue := q; workers := workers s; now := now s; timers := timers s;
     next_timer := next_timer s; next_pid := next_pid s;
     next_handle := next_handle s; signals := signals s;
     written := written s; settled := settled s; console := console s |}.
Definition set_workers (ws : list PersistentWorker) (s : State) :=
  {| minPool := minPool s; maxPool := maxPool s;
     taskTimeoutMs := taskTimeoutMs s; idleTtlMs := idleTtlMs s;
     queue := queue s; workers := ws; now := now s; timers := timers s;
     next_timer := next_timer s; next_pid := next_pid s;
     next_handle := next_handle s; signals := signals s;
     written := written s; settled := settled s; console := console s |}.
Definition set_now (t : Z) (s : State) :=
  {| minPool := minPool s; maxPool := maxPool s;
     taskTimeoutMs := taskTimeoutMs s; idleTtlMs := idleTtlMs s;
     queue := queue s; workers := workers s; now := t; timers := timers s;
     next_timer := next_timer s; next_pid := next_pid s;
     next_handle := next_handle s; signals := signals s;
     written := written s; settled := settled s; console := console s |}.
Definition set_timers (ts : gmap nat (Z * TimerCallback)) (n : nat) (s : State) :=
  {| minPool := minPool s; maxPool := maxPool s;
     taskTimeoutMs := taskTimeoutMs s; idleTtlMs := idleTtlMs s;
     queue := queue s; workers := workers s; now := now s; timers := ts;
     next_timer := n; next_pid := next_pid s;
     next_handle := next_handle s; signals := signals s;
     written := written s; settled := settled s; console := console s |}.
Definition set_next_pid (n : nat) (s : State) :=
  {| minPool := minPool s; maxPool := maxPool s;
     taskTimeoutMs := taskTimeoutMs s; idleTtlMs := idleTtlMs s;
     queue := queue s; workers := workers s; now := now s; timers := timers s;
     next_timer := next_timer s; next_pid := n;
     next_handle := next_handle s; signals := signals s;
     written := written s; settled := settled s; console := console s |}.
Definition set_next_handle (n : nat) (s : State) :=
  {| minPool := minPool s; maxPool := maxPool s;
     taskTimeoutMs := taskTimeoutMs s; idleTtlMs := idleTtlMs s;
     queue := queue s; workers := workers s; now := now s; timers := timers s;
     next_timer := next_timer s; next_pid := next_pid s;
     next_handle := n; signals := signals s;
     written := written s; settled := settled s; console := console s |}.
Definition set_signals (l : list nat) (s : State) :=
  {| minPool := minPool s; maxPool := maxPool s;
     taskTimeoutMs := taskTimeoutMs s; idleTtlMs := idleTtlMs s;
     queue := queue s; workers := workers s; now := now s; timers := timers s;
     next_timer := next_timer s; next_pid := next_pid s;
     next_handle := next_handle s; signals := l;
     written := written s; settled := settled s; console := console s |}.
Definition set_written (l : list (nat * JSValue)) (s : State) :=
  {| minPool := minPool s; maxPool := maxPool s;
     taskTimeoutMs := taskTimeoutMs s; idleTtlMs := idleTtlMs s;
     queue := queue s; workers := workers s; now := now s; timers := timers s;
     next_timer := next_timer s; next_pid := next_pid s;
     next_handle := next_handle s; signals := signals s;
     written := l; settled := settled s; console := console s |}.
Definition set_settled (l : list (nat * Outcome)) (s : State) :=
  {| minPool := minPool s; maxPool := maxPool s;
     taskTimeoutMs := taskTimeoutMs s; idleTtlMs := idleTtlMs s;
     queue := queue s; workers := workers s; now := now s; timers := timers s;
     next_timer := next_timer s; next_pid := next_pid s;
     next_handle := next_handle s; signals := signals s;
     written := written s; settled := l; console := console s |}.
Definition set_console (l : list Console) (s : State) :=
  {| minPool := minPool s; maxPool := maxPool s;
     taskTimeoutMs := taskTimeoutMs s; idleTtlMs := idleTtlMs s;
     queue := queue s; workers := workers s; now := now s; timers := timers s;
     next_timer := next_timer s; next_pid := next_pid s;
     next_handle := next_handle s; signals := signals s;
     written := written s; settled := settled s; console := l |}.

(** [this.f = v] in a method of the worker at position [i]. *)
Definition upd_worker (i : nat) (f : PersistentWorker -> PersistentWorker)
    (s : State) : State :=
  set_workers (alter f i (workers s)) s.

(** ** The runtime *)

(** Node fires a timer armed with a delay below 1 or above 2^31-1 after
    1 ms. *)
Definition timer_delay (ms : Z) : Z :=
  if (ms <? 1) || (2147483647 <? ms) then 1 else ms.

(** [setTimeout(cb, ms)]: the new timer and the state. *)
Definition setTimeout (cb : TimerCallback) (ms : Z) (s : State) : nat * State :=
  (next_timer s,
   set_timers (<[next_timer s := (now s + timer_delay ms, cb)]> (timers s))
              (S (next_timer s)) s).

Definition clearTimeout (id : nat) (s : State) : State :=
  set_timers (delete id (timers s)) (next_timer s) s.

(** [console.log], [console.warn] and [console.error]. *)
Definition log (c : Console) (s : State) : State :=
  set_console (console s ++ [c]) s.

(** [task.resolve(o)]. *)
Definition resolve (task : Task) (o : Outcome) (s : State) : State :=
  set_settled (settled s ++ [(handle task, o)]) s.

(** [this.proc?.kill('SIGKILL')], in a [try] whose [catch] is empty. *)
Definition kill (i : nat) (s : State) : State :=
  match workers s !! i with
  | Some {| proc := Some p |} => set_signals (signals s ++ [pid p]) s
  | _ => s
  end.

Definition failure (e : jsstring) : Outcome :=
  {| success := false; result := None; error := Some (JStr e);
     executionTime := JNum 0 |}.

(** ** [PersistentWorker]

    A method of the worker at position [i] of [workers] takes [i] for
    [this]. The callback [onWorkerFree] the constructor receives is the
    argument [free]; a computation is [None] when its fuel ran out. *)

Definition blank_worker : PersistentWorker :=
  {| proc := None; busy := false; stdoutBuffer := []; currentTask := None;
     currentTimeout := None; idleTimer := None; shouldRespawn := true |}.

(** [spawn()], lines 28-62: a new child process, its pipes open. *)
Definition spawn (i : nat) (s : State) : State :=
  upd_worker i (set_proc (Some {| pid := next_pid s; stdin := StdinOpen |}))
             (set_next_pid (S (next_pid s)) s).

(** [respawn()], lines 63-72. *)
Definition respawn (i : nat) (s : State) : State :=
  let s1 := upd_worker i
              (fun w => set_stdoutBuffer [] (set_busy false (set_proc None w))) s in
  match workers s1 !! i with
  | Some w => if shouldRespawn w then (setTimeout (Respawn i) 500 s1).2 else s1
  | None => s1
  end.

(** [failCurrent(error)], lines 111-122. *)
Definition failCurrent (free : State -> option State) (i : nat)
    (e : jsstring) (s : State) : option State :=
  match workers s !! i with
  | None => Some s
  | Some w =>
      let s1 := match currentTimeout w with
                | Some id => upd_worker i (set_currentTimeout None) (clearTimeout id s)
                | None => s
                end in
      let s2 := upd_worker i (fun w => set_busy false (set_currentTask None w)) s1 in
      let s3 := match currentTask w with
                | Some task => resolve task (failure e) s2
                | None => s2
                end in
      free s3
  end.

(** [assign(task, timeoutMs)], lines 123-154. *)
Definition assign (free : State -> option State) (i : nat) (task : Task)
    (timeoutMs : Z) (s : State) : option State :=
  match workers s !! i with
  | None => Some s
  | Some w =>
      match proc w with
      | None | Some {| stdin := StdinNull |} =>
          Some (resolve task (failure (js "Worker not ready")) s)
      | Some p =>
          let s1 := match idleTimer w with
                    | Some id => upd_worker i (set_idleTimer None) (clearTimeout id s)
                    | None => s
                    end in
          let task' := {| handle := handle task; rid := rid task;
                          interpretation := interpretation task;
                          __start := Some (now s) |} in
          let s2 := upd_worker i
                      (fun w => set_currentTask (Some task') (set_busy true w)) s1 in
          let '(id, s3) := setTimeout (TaskTimeout i timeoutMs) timeoutMs s2 in
          let s4 := upd_worker i (set_currentTimeout (Some id)) s3 in
          let envelope := JObj [(js "rid", JStr (rid task));
                                (js "interpretation", interpretation task)] in
          match stdin p with
          | StdinThrows m =>
              failCurrent free i (js "stdin write failed: " ++ m)
                          (log (StdinWriteFailed m) s4)
          | _ =>
              Some (log (TaskSent (rid task))
                        (set_written (written s4 ++ [(pid p, envelope)]) s4))
          end
      end
  end.

(** [scheduleScaleDown(ttlMs)], lines 155-170. *)
Definition scheduleScaleDown (i : nat) (ttlMs : Z) (s : State) : State :=
  if ttlMs <=? 0 then s
  else
    match workers s !! i with
    | None => s
    | Some w =>
        let s1 := match idleTimer w with
                  | Some id => clearTimeout id s
                  | None => s
                  end in
        let '(id, s2) := setTimeout (IdleScaleDown i ttlMs) ttlMs s1 in
        upd_worker i (set_idleTimer (Some id)) s2
    end.

Section Pool.

(** [JSON.parse]; [None] when it throws. *)
Variable JSON_parse : jsstring -> option JSValue.

(** [handleResultLine(line)], lines 73-110. *)
Definition handleResultLine (free : State -> option State) (i : nat)
    (line : jsstring) (s : State) : option State :=
  let trimmed := trim line in
  if match trimmed with
     | first :: _ => negb (first =? 123)%N && negb (first =? 91)%N
     | [] => true
     end
  then Some (log (PythonOut trimmed) s)
  else
    match JSON_parse trimmed with
    | None => Some (log InvalidJsonLine s)
    | Some parsed =>
        let endTime := now s in
        match workers s !! i with
        | None => Some s
        | Some w =>
            match currentTask w with
            | None => Some (log (UnmatchedResult (take 200 trimmed)) s)
            | Some task =>
                let s1 := upd_worker i
                            (fun w => set_busy false (set_currentTask None w)) s in
                let s2 := match currentTimeout w with
                          | Some id =>
                              upd_worker i (set_currentTimeout None) (clearTimeout id s1)
                          | None => s1
                          end in
                let executionTime :=
                  match prop parsed (js "__t") with
                  | None | Some JNull =>
                      match __start task with
                      | Some t0 => JNum (endTime - t0)
                      | None => JNaN
                      end
                  | Some t => t
                  end in
                free (resolve task
                        {| success :=
                             match prop parsed (js "status") with
                             | Some (JStr st) => bool_decide (st = js "success")
                             | _ => false
                             end;
                           result := Some parsed;
                           error := prop parsed (js "error");
                           executionTime := executionTime |} s2)
            end
        end
    end.

(** ** [PythonInterpretationProcessor] *)

(** [new PersistentWorker(...)] pushed on [workers], lines 193 and 221. *)
Definition push_worker (s : State) : State :=
  spawn (length (workers s)) (set_workers (workers s ++ [blank_worker]) s).

(** The condition of the [while] of [pump], line 219. *)
Definition must_scale_up (s : State) : bool :=
  bool_decide (0 < length (queue s))%nat
  && forallb busy (workers s)
  && (Z.of_nat (length (workers s)) <? maxPool s).

(** The [while] of [pump], lines 219-224, which its [break] leaves after
    one round. *)
Definition scale_up (s : State) : State :=
  if must_scale_up s
  then push_worker
         (log (ScalingUp (length (workers s) + 1) (maxPool s)) s)
  else s.

(** The second half of [onWorkerFree], lines 244-251. *)
Definition arm_idle (s : State) : State :=
  let excess := Z.max 0 (Z.of_nat (length (workers s)) - minPool s) in
  if 0 <? excess then
    foldl (fun s i =>
             match workers s !! i with
             | Some w =>
                 if negb (busy w) && (minPool s <? Z.of_nat (length (workers s)))
                 then scheduleScaleDown i (idleTtlMs s) s
                 else s
             | None => s
             end)
          s (seq 0 (length (workers s)))
  else s.

(** [pump_for fuel k] is the [for] loop of [pump], lines 210-217, from
    the worker at position [k] on; [pump] is the whole method and
    [onWorkerFree] the method of lines 240-252. A worker calls
    [onWorkerFree] back from inside [assign] when a write fails, hence the
    mutual recursion. *)
Fixpoint pump_for (fuel : nat) (k : nat) (s : State) {struct fuel} : option State :=
  match fuel with
  | O => None
  | S f =>
      match workers s !! k with
      | None => Some s
      | Some worker =>
          match queue s with
          | [] => Some s
          | task :: rest =>
              if busy worker then pump_for f (S k) s
              else
                s1 ← assign (onWorkerFree f) k task (taskTimeoutMs s)
                            (set_queue rest s);
                pump_for f (S k) s1
          end
      end
  end
with pump (fuel : nat) (s : State) {struct fuel} : option State :=
  match fuel with
  | O => None
  | S f => s1 ← pump_for f 0 s; Some (scale_up s1)
  end
with onWorkerFree (fuel : nat) (s : State) {struct fuel} : option State :=
  match fuel with
  | O => None
  | S f => s1 ← pump f s; Some (arm_idle s1)
  end.

(** [processInterpretation(interpretation)], lines 200-207. The
    identifier is the clock, an underscore and [rnd], the six characters
    drawn from [Math.random()]. *)
Definition processInterpretation (fuel : nat) (payload : JSValue)
    (rnd : jsstring) (s : State) : option State :=
  let r := js_of_Z (now s) ++ js "_" ++ rnd in
  let task := {| handle := next_handle s; rid := r;
                 interpretation := payload; __start := None |} in
  let s1 := set_next_handle (S (next_handle s))
              (set_queue (queue s ++ [task]) s) in
  pump fuel (log (TaskQueued r (length (queue s1))) s1).

(** The constructor, lines 180-196, once the four options are known. *)
Definition new_pool (min max timeout ttl : Z) : State :=
  Nat.iter (Z.to_nat min) push_worker
    {| minPool := min; maxPool := max; taskTimeoutMs := timeout;
       idleTtlMs := ttl; queue := []; workers := []; now := 0;
       timers := ∅; next_timer := 0; next_pid := 0; next_handle := 0;
       signals := []; written := []; settled := []; console := [] |}.

(** ** Events *)

(** The [while] loop of the [data] handler of [stdout], lines 40-46, on
    the state. *)
Fixpoint stdout_while (fuel : nat) (i : nat) (s : State) : option State :=
  match fuel with
  | O => None
  | S f =>
      match workers s !! i with
      | None => Some s
      | Some w =>
          match indexOf LF (stdoutBuffer w) with
          | None => Some s
          | Some idx =>
              let line := trim (take idx (stdoutBuffer w)) in
              let s1 := upd_worker i
                          (set_stdoutBuffer (drop (S idx) (stdoutBuffer w))) s in
              match line with
              | [] => stdout_while f i s1
              | _ =>
                  s2 ← handleResultLine (onWorkerFree f) i line s1;
                  stdout_while f i s2
              end
          end
      end
  end.

Definition on_stdout_data (fuel : nat) (i : nat) (data : list byte)
    (s : State) : option State :=
  stdout_while fuel i
    (upd_worker i
       (fun w => set_stdoutBuffer (stdoutBuffer w ++ Buffer_toString data) w) s).

(** The callback of a timer that fires. *)
Definition fire (fuel : nat) (cb : TimerCallback) (s : State) : option State :=
  match cb with
  | TaskTimeout i timeoutMs =>
      failCurrent (onWorkerFree fuel) i (js "Task timeout")
                  (kill i (log (TimeoutKill timeoutMs) s))
  | IdleScaleDown i ttlMs =>
      match workers s !! i with
      | Some w =>
          if busy w then Some s
          else Some (kill i (upd_worker i (set_shouldRespawn false)
                                        (log (IdleKill ttlMs) s)))
      | None => Some s
      end
  | Respawn i => Some (spawn i s)
  end.

Definition has_proc (i : nat) (s : State) : bool :=
  match workers s !! i with
  | Some {| proc := Some _ |} => true
  | _ => false
  end.

(** What the event loop delivers. An event of a child process reaches
    the worker that holds the process; a timer fires once its delay has
    elapsed. An event that cannot occur in a state leaves it as it is. *)
Inductive Event :=
| Submit (payload : JSValue) (rnd : jsstring)
| StdoutData (i : nat) (data : list byte)
| StderrData (i : nat) (data : list byte)
| ProcError (i : nat) (message : jsstring)
| ProcClose (i : nat) (code : option Z)
| TimerFires (id : nat)
| Tick (dt : Z)
| StdinBecomes (i : nat) (st : Stdin).

Definition show_code (code : option Z) : jsstring :=
  match code with
  | Some c => js_of_Z c
  | None => js "null"
  end.

Definition step (fuel : nat) (e : Event) (s : State) : option State :=
  match e with
  | Submit payload rnd => processInterpretation fuel payload rnd s
  | StdoutData i data =>
      if has_proc i s then on_stdout_data fuel i data s else Some s
  | StderrData i data =>
      if has_proc i s
      then Some (log (PythonLog (trim (Buffer_toString data))) s)
      else Some s
  | ProcError i m =>
      if has_proc i s then
        s1 ← failCurrent (onWorkerFree fuel) i (js "Worker error: " ++ m)
                         (log (ProcessError m) s);
        Some (respawn i s1)
      else Some s
  | ProcClose i code =>
      if has_proc i s then
        s1 ← failCurrent (onWorkerFree fuel) i
                         (js "Worker exited (code=" ++ show_code code ++ js ")")
                         (log (ProcessClosed code) s);
        Some (respawn i s1)
      else Some s
  | TimerFires id =>
      match timers s !! id with
      | Some (deadline, cb) =>
          if deadline <=? now s
          then fire fuel cb (clearTimeout id s)
          else Some s
      | None => Some s
      end
  | Tick dt => if 0 <=? dt then Some (set_now (now s + dt) s) else Some s
  | StdinBecomes i st =>
      Some (upd_worker i
              (fun w => match proc w with
                        | Some p => set_proc (Some {| pid := pid p; stdin := st |}) w
                        | None => w
                        end) s)
  end.

Fixpoint run (fuel : nat) (es : list Event) (s : State) : option State :=
  match es with
  | [] => Some s
  | e :: es' => s1 ← step fuel e s; run fuel es' s1
  end.

End Pool.

(** With [Some] for the callback, a method stops where it would call
    [onWorkerFree]. *)
Definition failCurrent_calls (i : nat) (s : State) : bool :=
  bool_decide (is_Some (workers s !! i)).

Definition assign_calls (i : nat) (s : State) : bool :=
  match workers s !! i with
  | Some {| proc := Some {| stdin := StdinThrows _ |} |} => true
  | _ => false
  end.

(** The state in which [assign] returns or calls back. *)
Definition assign_state (i : nat) (task : Task) (ms : Z) (s : State) : State :=
  default s (assign Some i task ms s).

Definition failCurrent_state (i : nat) (e : jsstring) (s : State) : State :=
  default s (failCurrent Some i e s).

(** Across a dispatch the configuration, the clock, the promise counter
    and the signals sent stay as they are; tasks leave the queue at its
    head and resolutions are added at the end; no worker is removed and
    none changes its process, its respawn flag or its buffer; a worker
    without a process that is not busy stays so; no respawn timer is
    armed. *)
Definition keeps (s s' : State) : Prop :=
  minPool s' = minPool s ∧ maxPool s' = maxPool s
  ∧ taskTimeoutMs s' = taskTimeoutMs s ∧ idleTtlMs s' = idleTtlMs s
  ∧ now s' = now s ∧ next_handle s' = next_handle s
  ∧ signals s' = signals s
  ∧ (∃ taken, queue s = taken ++ queue s')
  ∧ (∃ more, settled s' = settled s ++ more)
  ∧ (length (workers s) ≤ length (workers s'))%nat
  ∧ (∀ j w, workers s !! j = Some w →
       ∃ w', workers s' !! j = Some w' ∧ proc w' = proc w
             ∧ shouldRespawn w' = shouldRespawn w
             ∧ stdoutBuffer w' = stdoutBuffer w
             ∧ (proc w = None → busy w = false → busy w' = false))
  ∧ (∀ id d j, timers s' !! id = Some (d, Respawn j) →
       timers s !! id = Some (d, Respawn j)).

(** The text of several chunks, framed chunk by chunk. *)
Fixpoint frame_all (buf : jsstring) (texts : list jsstring)
  : list jsstring * jsstring :=
  match texts with
  | [] => ([], buf)
  | t :: ts =>
      let '(ls, buf') := frame (buf ++ t) in
      let '(ls', buf'') := frame_all buf' ts in
      (ls ++ ls', buf'')
  end.

(** ** Framing as the specification words it

    The whole text is split on the line terminator: [split_lines] gives
    the complete lines and what follows the last terminator. Line
    processing receives the lines trimmed, the blank ones left out. *)
Fixpoint split_lines (s : jsstring) : list jsstring * jsstring :=
  match s with
  | [] => ([], [])
  | c :: s' =>
      let '(ls, r) := split_lines s' in
      if (c =? LF)%N then ([] :: ls, r)
      else match ls with
           | [] => ([], c :: r)
           | l :: ls' => ((c :: l) :: ls', r)
           end
  end.

Definition spec_frame (text : jsstring) : list jsstring * jsstring :=
  (filter (λ l, l ≠ []) (trim <$> (split_lines text).1), (split_lines text).2).

(** A byte of the ASCII range. *)
Definition ascii_byte (b : byte) : Prop := (Byte.to_N b <= 0x7F)%N.

(** ** Vocabulary of the statements *)

(** The first character of the trimmed line is a brace or a bracket. *)
Definition looks_json (line : jsstring) : bool :=
  match trim line with
  | first :: _ => (first =? 123)%N || (first =? 91)%N
  | [] => false
  end.

(** The execution time [handleResultLine] reports for [parsed], for a task
    assigned at [t0], when the clock shows [endTime]. *)
Definition reported_time (parsed : JSValue) (t0 : option Z) (endTime : Z)
  : JSValue :=
  match prop parsed (js "__t") with
  | Some JNull | None =>
      match t0 with
      | Some t => JNum (endTime - t)
      | None => JNaN
      end
  | Some t => t
  end.

(** ** Examples *)

Definition quoted (s : string) : jsstring := [34%N] ++ js s ++ [34%N].

(** The text of a result with status [success] and [__t] equal to 5. *)
Definition sample_result_text : jsstring :=
  js "{" ++ quoted "status" ++ js ":" ++ quoted "success" ++ js ","
     ++ quoted "__t" ++ js ":5}".

Definition sample_result : JSValue :=
  JObj [(js "status", JStr (js "success")); (js "__t", JNum 5)].

(** [JSON.parse] on the texts of the examples: the sample result parses,
    any other text is taken not to. *)
Definition sample_parse (text : jsstring) : option JSValue :=
  if bool_decide (text = sample_result_text) then Some sample_result else None.

(** The state a list of events leads to. *)
Definition after (es : list Event) (s : State) : State :=
  default s (run sample_parse 100 es s).

(** The bytes of an ASCII text. *)
Definition bytes_of (text : jsstring) : list byte := omap Byte.of_N text.

(** A pool of two workers, one process each, both idle, the second
    above the minimum of one; and the same pool once the idle timer of
    the second worker is armed. *)
Definition two_idle_workers : State :=
  push_worker (new_pool 1 2 100 300).

Definition idle_timer_armed : State :=
  scheduleScaleDown 1 300 two_idle_workers.

(** ** The state changes of the handlers

    Every handler is a sequence of the state changes below: [move s s']
    when [s'] is [s] after one of them. The changes made up to the point
    where a method calls [onWorkerFree] back are those of the method run
    with the callback [Some]. *)
Inductive move : State → State → Prop :=
| mv_log s c : move s (log c s)
| mv_tick s dt : 0 ≤ dt → move s (set_now (now s + dt) s)
| mv_stdin s i st :
    move s (upd_worker i
              (λ w, match proc w with
                    | Some p => set_proc (Some {| pid := pid p; stdin := st |}) w
                    | None => w
                    end) s)
| mv_enqueue s payload r :
    move s (set_next_handle (S (next_handle s))
              (set_queue (queue s ++ [{| handle := next_handle s; rid := r;
                                         interpretation := payload;
                                         __start := None |}]) s))
| mv_assign s k w task rest :
    workers s !! k = Some w → busy w = false → queue s = task :: rest →
    move s (assign_state k task (taskTimeoutMs s) (set_queue rest s))
| mv_scale_up s : move s (scale_up s)
| mv_schedule s i w :
    workers s !! i = Some w → busy w = false →
    move s (scheduleScaleDown i (idleTtlMs s) s)
| mv_buffer s i b : move s (upd_worker i (set_stdoutBuffer b) s)
| mv_result s parse i line s' :
    handleResultLine parse Some i line s = Some s' → move s s'
| mv_fail s i e : move s (failCurrent_state i e s)
| mv_respawn s i : move s (respawn i s)
| mv_clear s id : move s (clearTimeout id s)
| mv_fire_timeout s id d i ms :
    timers s !! id = Some (d, TaskTimeout i ms) →
    move s (kill i (log (TimeoutKill ms) (clearTimeout id s)))
| mv_fire_idle s id d i ttl w :
    timers s !! id = Some (d, IdleScaleDown i ttl) →
    workers s !! i = Some w → busy w = false →
    move s (kill i (upd_worker i (set_shouldRespawn false)
                      (log (IdleKill ttl) (clearTimeout id s))))
| mv_fire_respawn s id d i :
    timers s !! id = Some (d, Respawn i) →
    move s (spawn i (clearTimeout id s)).

(** ** Workers that were scaled down *)

(** No timer is pending that would spawn a process for worker [i]. *)
Definition quiet (i : nat) (s : State) : Prop :=
  ∀ id d, timers s !! id ≠ Some (d, Respawn i).

(** Worker [i] has its respawn flag off, no respawn pending, and either
    still holds the process [p] or holds no process and is not busy. *)
Definition retired (p : nat) (i : nat) (s : State) : Prop :=
  ∃ w, workers s !! i = Some w ∧ shouldRespawn w = false ∧ quiet i s
       ∧ match proc w with
         | Some q => pid q = p
         | None => busy w = false
         end.

(** Worker [i] has no process, will get none, and is not busy. *)
Definition dead (i : nat) (s : State) : Prop :=
  ∃ w, workers s !! i = Some w ∧ shouldRespawn w = false ∧ quiet i s
       ∧ proc w = None ∧ busy w = false.

(** [quiet], as a test. *)
Definition quietb (i : nat) (s : State) : bool :=
  forallb (λ x, match x.2.2 with
                | Respawn j => negb (j =? i)%nat
                | _ => true
                end) (map_to_list (timers s)).

(** A pool of one to three workers after two submissions and the result
    of the first: the first worker is busy with the second task, the
    second worker, created by the scale-up, is idle, and its idle timer,
    number 2, is armed for time 300. *)
Definition scaled_up : list Event :=
  [Submit JNull (js "a"); Submit JNull (js "b");
   StdoutData 0 (bytes_of (sample_result_text ++ [LF]))].

Definition second_worker_idle : State :=
  after scaled_up (new_pool 1 3 1000 300).

(** The same pool once the idle timer of the second worker has fired
    at its deadline and the process it killed has exited. *)
Definition second_worker_dead : State :=
  after [Tick 300; TimerFires 2; ProcClose 1 None] second_worker_idle.

(** ** Where the promises are *)

(** The promises of the tasks the workers hold. *)
Fixpoint current_handles (ws : list PersistentWorker) : list nat :=
  match ws with
  | [] => []
  | w :: ws' =>
      match currentTask w with
      | Some task => handle task :: current_handles ws'
      | None => current_handles ws'
      end
  end.

(** The promises held by the pool: those of the queued tasks and those of
    the tasks of the workers. *)
Definition held (s : State) : list nat :=
  (handle <$> queue s) ++ current_handles (workers s).

(** The promises [resolve] was called on, one entry for each call. *)
Definition resolved (s : State) : list nat := (settled s).*1.

(** Each promise created so far is held at most once or resolved at
    most once, and not both. *)
Definition each_once (s : State) : Prop :=
  NoDup (held s ++ resolved s)
  ∧ ∀ h, h ∈ held s ++ resolved s → (h < next_handle s)%nat.

(** The promise [h] exists, is not resolved, and no task of the pool
    carries it. *)
Definition lost (h : nat) (s : State) : Prop :=
  (h < next_handle s)%nat ∧ (h ∉ held s) ∧ (h ∉ resolved s).

(** From [s] to [s'] promises are only created, resolved when held, or
    dropped. *)
Definition flows (s s' : State) : Prop :=
  (∃ more, resolved s' = resolved s ++ more)
  ∧ ((next_handle s' = next_handle s
      ∧ ∃ dropped, (held s ++ resolved s) ≡ₚ (held s' ++ resolved s' ++ dropped))
     ∨ (next_handle s' = S (next_handle s)
        ∧ (held s' ++ resolved s') ≡ₚ (next_handle s :: held s ++ resolved s))).

(** One worker; a task is running and another is queued when the process
    exits; the process is respawned; a third task is submitted. *)
Definition crash_with_queued_task : list Event :=
  [Submit JNull (js "a"); Submit JNull (js "b"); ProcClose 0 None].

Definition crash_then_submit : list Event :=
  crash_with_queued_task ++ [Tick 500; TimerFires 2; Submit JNull (js "c")].

Definition crashed_with_queued_task : State :=
  after crash_with_queued_task (new_pool 1 1 1000 300).

Definition replaced_task : State :=
  after crash_then_submit (new_pool 1 1 1000 300).

(** ** Workers whose writes fail *)

(** Some worker is not busy and holds a process whose [stdin.write]
    throws. *)
Definition idle_and_failing (s : State) : Prop :=
  ∃ j w p m, workers s !! j = Some w ∧ busy w = false
             ∧ proc w = Some p ∧ stdin p = StdinThrows m.

(** A pool of one worker, two allowed: the worker is busy and a second
    task waits in the queue. *)
Definition one_busy_one_queued : State :=
  set_queue [{| handle := 1; rid := js "0_b"; interpretation := JNull;
                __start := None |}]
            (after [Submit JNull (js "a")] (new_pool 1 2 1000 300)).

(** The timer of the replaced task fires at its deadline. *)
Definition replaced_task_timer_fired : State :=
  after [Tick 500; TimerFires 1] replaced_task.

(** ** The invariant of the worker *)

(** The worker holds a task exactly when it is busy. *)
Definition task_iff_busy (w : PersistentWorker) : Prop :=
  is_Some (currentTask w) ↔ busy w = true.

Definition tasks_iff_busy (s : State) : Prop :=
  ∀ i w, workers s !! i = Some w → task_iff_busy w.

(** ** Invariants of the pool *)

(** A property all the workers of the pool have. *)
Definition every_worker (P : PersistentWorker → Prop) (s : State) : Prop :=
  ∀ i w, workers s !! i = Some w → P w.

(** The worker has a timeout timer exactly when it holds a task. *)
Definition timeout_iff_task (w : PersistentWorker) : Prop :=
  is_Some (currentTimeout w) ↔ is_Some (currentTask w).

(** The events of a child process that dies: [error] and [close]. *)
Definition crash (e : Event) : bool :=
  match e with
  | ProcError _ _ | ProcClose _ _ => true
  | _ => false
  end.

(** The promises created so far are those the pool holds and those it
    has resolved, each of them once. *)
Definition accounted (s : State) : Prop :=
  (held s ++ resolved s) ≡ₚ seq 0 (next_handle s).

(** The state changes other than the one of [respawn]. *)
Inductive change : State → State → Prop :=
| ch_log s c : change s (log c s)
| ch_tick s dt : 0 ≤ dt → change s (set_now (now s + dt) s)
| ch_stdin s i st :
    change s (upd_worker i
              (λ w, match proc w with
                    | Some p => set_proc (Some {| pid := pid p; stdin := st |}) w
                    | None => w
                    end) s)
| ch_enqueue s payload r :
    change s (set_next_handle (S (next_handle s))
              (set_queue (queue s ++ [{| handle := next_handle s; rid := r;
                                         interpretation := payload;
                                         __start := None |}]) s))
| ch_assign s k w task rest :
    workers s !! k = Some w → busy w = false → queue s = task :: rest →
    change s (assign_state k task (taskTimeoutMs s) (set_queue rest s))
| ch_scale_up s : change s (scale_up s)
| ch_schedule s i w :
    workers s !! i = Some w → busy w = false →
    change s (scheduleScaleDown i (idleTtlMs s) s)
| ch_buffer s i b : change s (upd_worker i (set_stdoutBuffer b) s)
| ch_result s parse i line s' :
    handleResultLine parse Some i line s = Some s' → change s s'
| ch_fail s i e : change s (failCurrent_state i e s)
| ch_clear s id : change s (clearTimeout id s)
| ch_fire_timeout s id d i ms :
    timers s !! id = Some (d, TaskTimeout i ms) →
    change s (kill i (log (TimeoutKill ms) (clearTimeout id s)))
| ch_fire_idle s id d i ttl w :
    timers s !! id = Some (d, IdleScaleDown i ttl) →
    workers s !! i = Some w → busy w = false →
    change s (kill i (upd_worker i (set_shouldRespawn false)
                      (log (IdleKill ttl) (clearTimeout id s))))
| ch_fire_respawn s id d i :
    timers s !! id = Some (d, Respawn i) →
    change s (spawn i (clearTimeout id s)).

(** ** Chunks that end where a character ends *)

(** The sequence the decoder of [Buffer.toString] is in the middle of
    once it has read the bytes [bs]. *)
Fixpoint utf8_pending (st : option Utf8Pending) (bs : list N)
  : option Utf8Pending :=
  match bs with
  | [] => st
  | b :: bs' =>
      match st with
      | None => utf8_pending (utf8_lead b).2 bs'
      | Some (n, cp, lo, hi) =>
          if ((lo <=? b) && (b <=? hi))%N then
            match n with
            | S (S n') =>
                utf8_pending
                  (Some (S n', N.lor (N.shiftl cp 6) (N.land b 0x3F),
                         0x80, 0xBF)%N) bs'
            | _ => utf8_pending None bs'
            end
          else utf8_pending (utf8_lead b).2 bs'
      end
  end.

(** The chunk does not end inside a multi-byte sequence. *)
Definition whole_characters (data : list byte) : Prop :=
  utf8_pending None (List.map Byte.to_N data) = None.

(** ** The order of the queue *)

(** The queued tasks are in the order of their submission, the oldest
    first. *)
Definition in_submission_order (s : State) : Prop :=
  StronglySorted lt (handle <$> queue s)
  ∧ ∀ h, h ∈ handle <$> queue s → (h < next_handle s)%nat.

(** One worker, busy with a first task, and two tasks waiting. *)
Definition one_busy_two_queued : State :=
  after [Submit JNull (js "a"); Submit JNull (js "b"); Submit JNull (js "c")]
        (new_pool 1 1 1000 300).

(** ** The loop that arms the idle timers *)

(** The idle timers of the workers were armed earlier: their handles are
    below the next handle [setTimeout] gives out. *)
Definition idle_timers_known (s : State) : Prop :=
  ∀ j w id, workers s !! j = Some w → idleTimer w = Some id →
    (id < next_timer s)%nat.

(** The state [x] of the loop of [onWorkerFree], lines 246-250, started in
    [s0], when it reaches the worker at position [k]: the workers before
    [k] that are not busy have their idle timer armed for the whole delay,
    the others are as they were. *)
Definition armed_up_to (s0 : State) (k : nat) (x : State) : Prop :=
  (length (workers x) = length (workers s0) ∧ minPool x = minPool s0
   ∧ idleTtlMs x = idleTtlMs s0 ∧ now x = now s0
   ∧ (next_timer s0 ≤ next_timer x)%nat)
  ∧ (∀ j w, workers x !! j = Some w →
       ∃ w0, workers s0 !! j = Some w0 ∧ busy w = busy w0
             ∧ ((k ≤ j)%nat → idleTimer w = idleTimer w0))
  ∧ (∀ j w, (j < k)%nat → workers x !! j = Some w → busy w = false →
       ∃ id, idleTimer w = Some id
             ∧ (next_timer s0 ≤ id < next_timer x)%nat
             ∧ timers x !! id
               = Some (now s0 + timer_delay (idleTtlMs s0),
                       IdleScaleDown j (idleTtlMs s0))).

(** ** The exit handlers, lines 226-239 *)

(** The function [cleanup]: each worker in turn has its respawn flag
    turned off and its process, when it has one, killed; the [catch] of
    the loop is empty. *)
Definition cleanup (s : State) : State :=
  foldl (λ s i, kill i (upd_worker i (set_shouldRespawn false) s))
        s (seq 0 (length (workers s))).

(** The events of the Node process the pool listens to. *)
Inductive ProcessEvent := ProcessExit | SIGINT | SIGTERM.

(** The three listeners. [process.exit(0)] emits [exit] before the
    process ends, so that on a signal [cleanup] runs a second time from
    the listener of [exit]. *)
Definition on_process_event (e : ProcessEvent) (s : State) : State :=
  match e with
  | ProcessExit => cleanup s
  | SIGINT | SIGTERM => cleanup (cleanup s)
  end.

(** The processes of the workers, in the order of the workers. *)
Definition processes (s : State) : list nat :=
  omap (λ w, pid <$> proc w) (workers s).

(** ** The options of the pool, lines 184-189

    The constructor takes each option from its argument when it is given
    there ([??] lets [null] and [undefined] through), and from the
    environment otherwise. *)
Module PoolOptions.

(** A JavaScript number: [NaN], an infinity, or a finite double, which is
    a rational. *)
Inductive number :=
| NaN
| NegInf
| Fin (q : QArith_base.Q)
| PosInf.

Definition isNaN (x : number) : bool :=
  match x with
  | NaN => true
  | _ => false
  end.

(** [a <= b] *)
Definition leb (a b : number) : bool :=
  match a, b with
  | NaN, _ | _, NaN => false
  | NegInf, _ | _, PosInf => true
  | Fin p, Fin q => QArith_base.Qle_bool p q
  | _, _ => false
  end.

(** [Math.max(a, b)] *)
Definition Math_max (a b : number) : number :=
  match a, b with
  | NaN, _ | _, NaN => NaN
  | _, _ => if leb a b then b else a
  end.

Definition of_Z (z : Z) : number := Fin (QArith_base.inject_Z z).

(** The argument [options], a field being [None] when it is absent or
    [null]. *)
Record Options := {
  minPool : option number;
  maxPool : option number;
  taskTimeoutMs : option number;
  idleTtlMs : option number
}.

(** The four variables of [process.env], [None] when the variable is not
    set. *)
Record Env := {
  PY_POOL_MIN : option jsstring;
  PY_POOL_MAX : option jsstring;
  PY_TASK_TIMEOUT_MS : option jsstring;
  PY_IDLE_TTL_MS : option jsstring
}.

(** What the constructor stores in [this]. *)
Record Resolved := {
  this_minPool : number;
  this_maxPool : number;
  this_taskTimeoutMs : number;
  this_idleTtlMs : number
}.

Section Constructor.

(** [Number(s)] for a string. *)
Variable Number : jsstring → number.

(** [Number(v ?? d)] for a variable of the environment. *)
Definition Number_or (v : option jsstring) (d : Z) : number :=
  match v with
  | Some s => Number s
  | None => of_Z d
  end.

Definition resolve_options (options : option Options) (env : Env) : Resolved :=
  let envMin := Number_or (PY_POOL_MIN env) 1 in
  let envMax := Number_or (PY_POOL_MAX env) 1 in
  let min :=
    match options ≫= minPool with
    | Some v => v
    | None => if isNaN envMin then of_Z 1 else Math_max (of_Z 0) envMin
    end in
  let max :=
    match options ≫= maxPool with
    | Some v => v
    | None => if isNaN envMax then min else Math_max min envMax
    end in
  {| this_minPool := min;
     this_maxPool := max;
     this_taskTimeoutMs :=
       match options ≫= taskTimeoutMs with
       | Some v => v
       | None => Number_or (PY_TASK_TIMEOUT_MS env) 120000
       end;
     this_idleTtlMs :=
       match options ≫= idleTtlMs with
       | Some v => v
       | None => Number_or (PY_IDLE_TTL_MS env) 300000
       end |}.

End Constructor.

End PoolOptions.

(** One worker whose task has reached its timeout of 100 ms while a
    second task waits in the queue. *)
Definition one_timed_out_one_queued : State :=
  after [Submit JNull (js "a"); Submit JNull (js "b"); Tick 100]
        (new_pool 1 1 100 300).

(** ** The timers of the tasks *)

(** Every pending timeout timer is the timer of the task its worker
    holds, armed when that task was assigned. *)
Definition timely (s : State) : Prop :=
  ∀ id d i ms, timers s !! id = Some (d, TaskTimeout i ms) →
    ∃ w task, workers s !! i = Some w ∧ currentTimeout w = Some id
              ∧ currentTask w = Some task
              ∧ __start task = Some (d - timer_delay ms).

(** * Properties *)

(** ** Reading the state after an update *)

Lemma workers_upd_worker i f s :
  workers (upd_worker i f s) = alter f i (workers s).
Proof. reflexivity. Qed.

Lemma lookup_upd_worker i j f s :
  workers (upd_worker i f s) !! j =
  if decide (i = j) then f <$> workers s !! j else workers s !! j.
Proof.
  rewrite workers_upd_worker. destruct (decide (i = j)) as [->|Hne].
  - apply list_lookup_alter_eq.
  - by apply list_lookup_alter_ne.
Qed.

Lemma length_upd_worker i f s :
  length (workers (upd_worker i f s)) = length (workers s).
Proof. rewrite workers_upd_worker. apply length_alter. Qed.

(** ** A method is a state change followed, or not, by the callback *)

Lemma failCurrent_split free i e s :
  failCurrent free i e s =
  if failCurrent_calls i s then failCurrent Some i e s ≫= free
  else failCurrent Some i e s.
Proof.
  unfold failCurrent, failCurrent_calls.
  destruct (workers s !! i) as [w|]; [|reflexivity].
  rewrite bool_decide_eq_true_2 by eauto. reflexivity.
Qed.

Lemma failCurrent_Some_total i e s : is_Some (failCurrent Some i e s).
Proof. unfold failCurrent. destruct (workers s !! i); eauto. Qed.

Lemma assign_split free i task ms s :
  assign free i task ms s =
  if assign_calls i s then assign Some i task ms s ≫= free
  else assign Some i task ms s.
Proof.
  unfold assign, assign_calls.
  destruct (workers s !! i) as [w|] eqn:Hw; [|reflexivity].
  destruct (proc w) as [[p [| |m]]|] eqn:Hp; destruct w; simpl in *; subst;
    try reflexivity.
  rewrite (failCurrent_split free).
  destruct (failCurrent_calls _ _) eqn:Hc; [reflexivity|].
  apply bool_decide_eq_false in Hc. exfalso. apply Hc.
  destruct idleTimer0; cbn; rewrite !list_lookup_alter_eq, Hw; eauto.
Qed.

Lemma assign_Some_total i task ms s : is_Some (assign Some i task ms s).
Proof.
  unfold assign. destruct (workers s !! i) as [w|]; [|eauto].
  destruct w as [[[p [| |m]]|] ? ? ? ? ? ?]; simpl;
    eauto using failCurrent_Some_total.
Qed.

Lemma assign_unfold free i task ms s :
  assign free i task ms s =
  if assign_calls i s then free (assign_state i task ms s)
  else Some (assign_state i task ms s).
Proof.
  rewrite assign_split. unfold assign_state.
  destruct (assign_Some_total i task ms s) as [s' ->].
  destruct (assign_calls i s); reflexivity.
Qed.

Lemma failCurrent_unfold free i e s :
  failCurrent free i e s =
  if failCurrent_calls i s then free (failCurrent_state i e s)
  else Some s.
Proof.
  rewrite failCurrent_split. unfold failCurrent_state.
  destruct (failCurrent_Some_total i e s) as [s' Hs']. rewrite Hs'.
  destruct (failCurrent_calls i s) eqn:Hc; [reflexivity|].
  unfold failCurrent, failCurrent_calls in *.
  destruct (workers s !! i); [|congruence].
  rewrite bool_decide_eq_true_2 in Hc by eauto. discriminate.
Qed.

(** ** Fuel *)

(** More fuel never changes a result. *)
Lemma fuel_S n :
  (∀ k s s', pump_for n k s = Some s' → pump_for (S n) k s = Some s')
  ∧ (∀ s s', pump n s = Some s' → pump (S n) s = Some s')
  ∧ (∀ s s', onWorkerFree n s = Some s' → onWorkerFree (S n) s = Some s').
Proof.
  induction n as [|n (IHfor & IHpump & IHfree)].
  { repeat split; intros; discriminate. }
  repeat split.
  - intros k s s' H. simpl in H. change (pump_for (S (S n)) k s) with
      (match workers s !! k with
       | None => Some s
       | Some worker =>
           match queue s with
           | [] => Some s
           | task :: rest =>
               if busy worker then pump_for (S n) (S k) s
               else s1 ← assign (onWorkerFree (S n)) k task (taskTimeoutMs s)
                                (set_queue rest s);
                    pump_for (S n) (S k) s1
           end
       end).
    destruct (workers s !! k) as [w|]; [|done].
    destruct (queue s) as [|t q]; [done|].
    destruct (busy w); [by apply IHfor|].
    apply bind_Some in H as (s1 & H1 & H2).
    apply bind_Some. exists s1. split; [|by apply IHfor].
    rewrite assign_unfold in *. destruct (assign_calls _ _); [by apply IHfree|done].
  - intros s s' H. simpl in H. apply bind_Some in H as (s1 & H1 & H2).
    change (pump (S (S n)) s) with (s1 ← pump_for (S n) 0 s; Some (scale_up s1)).
    apply bind_Some. exists s1. split; [by apply IHfor|done].
  - intros s s' H. simpl in H. apply bind_Some in H as (s1 & H1 & H2).
    change (onWorkerFree (S (S n)) s) with (s1 ← pump (S n) s; Some (arm_idle s1)).
    apply bind_Some. exists s1. split; [by apply IHpump|done].
Qed.

Lemma fuel_le n m :
  (n ≤ m)%nat →
  (∀ k s s', pump_for n k s = Some s' → pump_for m k s = Some s')
  ∧ (∀ s s', pump n s = Some s' → pump m s = Some s')
  ∧ (∀ s s', onWorkerFree n s = Some s' → onWorkerFree m s = Some s').
Proof.
  induction 1 as [|m _ (IH1 & IH2 & IH3)]; [done|].
  destruct (fuel_S m) as (H1 & H2 & H3). repeat split; eauto.
Qed.

Lemma pump_for_le n m k s s' :
  (n ≤ m)%nat → pump_for n k s = Some s' → pump_for m k s = Some s'.
Proof. intros H. by apply (fuel_le n m H). Qed.

Lemma pump_le n m s s' :
  (n ≤ m)%nat → pump n s = Some s' → pump m s = Some s'.
Proof. intros H. by apply (fuel_le n m H). Qed.

Lemma onWorkerFree_le n m s s' :
  (n ≤ m)%nat → onWorkerFree n s = Some s' → onWorkerFree m s = Some s'.
Proof. intros H. by apply (fuel_le n m H). Qed.

(** ** Induction on a dispatch

    A relation between states that is reflexive and transitive and holds
    across the three state changes of a dispatch holds across [pump_for],
    [pump] and [onWorkerFree]. *)
Section DispatchInd.

Variable R : State → State → Prop.
Hypothesis R_refl : ∀ s, R s s.
Hypothesis R_trans : ∀ s1 s2 s3, R s1 s2 → R s2 s3 → R s1 s3.
Hypothesis R_assign : ∀ s k w task rest,
  workers s !! k = Some w → busy w = false → queue s = task :: rest →
  R s (assign_state k task (taskTimeoutMs s) (set_queue rest s)).
Hypothesis R_scale_up : ∀ s, R s (scale_up s).
Hypothesis R_arm_idle : ∀ s, R s (arm_idle s).

Lemma dispatch_ind n :
  (∀ k s s', pump_for n k s = Some s' → R s s')
  ∧ (∀ s s', pump n s = Some s' → R s s')
  ∧ (∀ s s', onWorkerFree n s = Some s' → R s s').
Proof.
  induction n as [|n (IHfor & IHpump & IHfree)].
  { repeat split; intros; discriminate. }
  repeat split.
  - intros k s s' H. simpl in H.
    destruct (workers s !! k) as [w|] eqn:Hw; [|by simplify_eq].
    destruct (queue s) as [|t q] eqn:Hq; [by simplify_eq|].
    destruct (busy w) eqn:Hb; [by eapply IHfor|].
    apply bind_Some in H as (s1 & H1 & H2).
    eapply R_trans; [|by eapply IHfor].
    rewrite assign_unfold in H1.
    destruct (assign_calls _ _).
    + eapply R_trans; [by eapply R_assign|by apply IHfree].
    + simplify_eq. by eapply R_assign.
  - intros s s' H. simpl in H. apply bind_Some in H as (s1 & H1 & H2).
    simplify_eq. eapply R_trans; [by eapply IHfor|apply R_scale_up].
  - intros s s' H. simpl in H. apply bind_Some in H as (s1 & H1 & H2).
    simplify_eq. eapply R_trans; [by eapply IHpump|apply R_arm_idle].
Qed.

Lemma pump_for_ind n k s s' : pump_for n k s = Some s' → R s s'.
Proof. apply dispatch_ind. Qed.
Lemma pump_ind n s s' : pump n s = Some s' → R s s'.
Proof. apply dispatch_ind. Qed.
Lemma onWorkerFree_ind n s s' : onWorkerFree n s = Some s' → R s s'.
Proof. apply dispatch_ind. Qed.

End DispatchInd.

(** ** What a dispatch leaves alone *)

Lemma keeps_refl s : keeps s s.
Proof.
  unfold keeps. split_and!; try done.
  - by exists [].
  - exists []. by rewrite app_nil_r.
  - intros j w Hw. exists w. done.
Qed.

Lemma keeps_trans s1 s2 s3 : keeps s1 s2 → keeps s2 s3 → keeps s1 s3.
Proof.
  unfold keeps.
  intros (A1 & A2 & A3 & A4 & A5 & A6 & A7 & [t1 A8] & [m1 A9] & A10 & A11 & A12)
         (B1 & B2 & B3 & B4 & B5 & B6 & B7 & [t2 B8] & [m2 B9] & B10 & B11 & B12).
  split_and!; try congruence.
  - exists (t1 ++ t2). by rewrite A8, B8, app_assoc.
  - exists (m1 ++ m2). by rewrite B9, A9, app_assoc.
  - lia.
  - intros j w Hw. destruct (A11 j w Hw) as (w2 & Hw2 & P1 & P2 & P3 & P4).
    destruct (B11 j w2 Hw2) as (w3 & Hw3 & Q1 & Q2 & Q3 & Q4).
    exists w3. split_and!; try congruence.
    intros Hn Hb. apply Q4; [congruence|]. by apply P4.
  - eauto.
Qed.

(** Looking up a timer after [setTimeout] and [clearTimeout]. *)
Lemma respawn_timer_insert (m : gmap nat (Z * TimerCallback)) n v id d j :
  (∀ k, v.2 ≠ Respawn k) →
  <[n := v]> m !! id = Some (d, Respawn j) → m !! id = Some (d, Respawn j).
Proof.
  intros Hv H. destruct (decide (n = id)) as [->|Hne].
  - rewrite lookup_insert_eq in H. simplify_eq. by destruct (Hv j).
  - by rewrite lookup_insert_ne in H.
Qed.

Lemma respawn_timer_delete (m : gmap nat (Z * TimerCallback)) n id d j :
  delete n m !! id = Some (d, Respawn j) → m !! id = Some (d, Respawn j).
Proof. intros H. apply lookup_delete_Some in H. tauto. Qed.

Ltac timers_tac :=
  repeat match goal with
    | H : <[_ := _]> _ !! _ = Some (_, Respawn _) |- _ =>
        apply respawn_timer_insert in H; [|simpl; congruence]
    | H : delete _ _ !! _ = Some (_, Respawn _) |- _ =>
        apply respawn_timer_delete in H
    end.

Ltac worker_tac i j :=
  destruct (decide (i = j)) as [->|?];
  [rewrite ?list_lookup_alter_eq | rewrite ?list_lookup_alter_ne by done].

(** The routine part of a proof of [keeps]. *)
Ltac keeps_tac i :=
  unfold keeps; simpl; split_and!;
  lazymatch goal with
  | |- ∃ taken, queue _ = taken ++ _ => by exists []
  | |- ∃ more, _ = settled _ ++ more =>
      first [ by (exists []; rewrite app_nil_r) | by eexists ]
  | |- (length _ ≤ length _)%nat => by rewrite ?length_alter
  | |- ∀ j w, workers _ !! j = Some w → _ =>
      let j := fresh "j" in let w0 := fresh "w0" in let Hw0 := fresh "Hw0" in
      intros j w0 Hw0; worker_tac i j; rewrite ?Hw0; simpl;
      eexists; split_and!; try reflexivity;
      try (intros; simplify_eq; simpl in *; congruence)
  | |- ∀ id d j, _ !! id = Some _ → _ =>
      let Ht := fresh "Ht" in intros ? ? ? Ht; timers_tac; exact Ht
  | |- _ = _ => reflexivity
  end.

Lemma keeps_failCurrent_state i e s : keeps s (failCurrent_state i e s).
Proof.
  unfold failCurrent_state, failCurrent.
  destruct (workers s !! i) as [w|] eqn:Hw; [|apply keeps_refl].
  destruct (currentTimeout w), (currentTask w); keeps_tac i.
Qed.

Lemma keeps_assign_state i task ms s : keeps s (assign_state i task ms s).
Proof.
  unfold assign_state, assign.
  destruct (workers s !! i) as [w|] eqn:Hw; [|apply keeps_refl].
  destruct w as [[[p [| |m]]|] b buf ct cto [it|] sr]; simpl;
    try (unfold failCurrent; simpl; rewrite !list_lookup_alter_eq, Hw; simpl);
    keeps_tac i.
Qed.

Lemma keeps_set_queue s task rest :
  queue s = task :: rest → keeps s (set_queue rest s).
Proof.
  intros Hq. unfold keeps; simpl; split_and!; try done.
  - by exists [task].
  - exists []. by rewrite app_nil_r.
  - intros j w Hw. exists w. done.
Qed.

Lemma keeps_scheduleScaleDown i ttl s : keeps s (scheduleScaleDown i ttl s).
Proof.
  unfold scheduleScaleDown. destruct (ttl <=? 0); [apply keeps_refl|].
  destruct (workers s !! i) as [w|] eqn:Hw; [|apply keeps_refl].
  destruct (idleTimer w); keeps_tac i.
Qed.

Lemma keeps_arm_idle s : keeps s (arm_idle s).
Proof.
  unfold arm_idle. destruct (0 <? _); [|apply keeps_refl].
  generalize (seq 0 (length (workers s))). intros l.
  revert s. induction l as [|i l IH]; intros s; [apply keeps_refl|].
  simpl. eapply keeps_trans; [|apply IH].
  destruct (workers s !! i) as [w|]; [|apply keeps_refl].
  destruct (_ && _); [apply keeps_scheduleScaleDown|apply keeps_refl].
Qed.

Lemma lookup_push_worker s j w :
  workers s !! j = Some w → workers (push_worker s) !! j = Some w.
Proof.
  intros Hw. unfold push_worker, spawn. simpl.
  rewrite list_lookup_alter_ne, lookup_app_l; eauto using lookup_lt_Some.
  apply lookup_lt_Some in Hw. lia.
Qed.

Lemma length_push_worker s :
  length (workers (push_worker s)) = S (length (workers s)).
Proof.
  unfold push_worker, spawn. simpl. rewrite length_alter, length_app. simpl. lia.
Qed.

Lemma keeps_scale_up s : keeps s (scale_up s).
Proof.
  unfold scale_up. destruct (must_scale_up s); [|apply keeps_refl].
  unfold keeps. split_and!; try done.
  - by exists [].
  - exists []. by rewrite app_nil_r.
  - rewrite length_push_worker. simpl. lia.
  - intros j w Hw. exists w. split; [|done]. by apply lookup_push_worker.
Qed.

Lemma keeps_pump_for n k s s' : pump_for n k s = Some s' → keeps s s'.
Proof.
  apply pump_for_ind; eauto using keeps_refl, keeps_trans, keeps_scale_up,
    keeps_arm_idle.
  intros. eapply keeps_trans; [by eapply keeps_set_queue|].
  apply keeps_assign_state.
Qed.

Lemma keeps_pump n s s' : pump n s = Some s' → keeps s s'.
Proof.
  apply pump_ind; eauto using keeps_refl, keeps_trans, keeps_scale_up,
    keeps_arm_idle.
  intros. eapply keeps_trans; [by eapply keeps_set_queue|].
  apply keeps_assign_state.
Qed.

Lemma keeps_onWorkerFree n s s' : onWorkerFree n s = Some s' → keeps s s'.
Proof.
  apply onWorkerFree_ind; eauto using keeps_refl, keeps_trans, keeps_scale_up,
    keeps_arm_idle.
  intros. eapply keeps_trans; [by eapply keeps_set_queue|].
  apply keeps_assign_state.
Qed.

(** ** Every dispatch ends *)

Lemma keeps_queue_length s s' :
  keeps s s' → (length (queue s') ≤ length (queue s))%nat.
Proof.
  intros (_ & _ & _ & _ & _ & _ & _ & [t Ht] & _). rewrite Ht, length_app. lia.
Qed.

Lemma dispatch_total q :
  ∀ s, (length (queue s) ≤ q)%nat →
    (∀ k, ∃ n s', pump_for n k s = Some s')
    ∧ (∃ n s', pump n s = Some s')
    ∧ (∃ n s', onWorkerFree n s = Some s').
Proof.
  induction q as [|q IH]; intros s Hq.
  - assert (queue s = []) as Hnil by (destruct (queue s); simpl in *; [done|lia]).
    assert (∀ k, pump_for 1 k s = Some s) as Hfor.
    { intros k. simpl. destruct (workers s !! k); [|done]. by rewrite Hnil. }
    split_and!.
    + intros k. by exists 1%nat, s.
    + exists 2%nat, (scale_up s).
      change (pump 2 s) with (s1 ← pump_for 1 0 s; Some (scale_up s1)).
      by rewrite Hfor.
    + exists 3%nat, (arm_idle (scale_up s)).
      change (onWorkerFree 3 s) with
        (s1 ← (s1 ← pump_for 1 0 s; Some (scale_up s1)); Some (arm_idle s1)).
      by rewrite Hfor.
  - assert (∀ k, ∃ n s', pump_for n k s = Some s') as Hfor.
    { intros k. remember (length (workers s) - k)%nat as d eqn:Hd.
      revert k Hd. induction d as [d IHd] using lt_wf_ind. intros k Hd.
      destruct (workers s !! k) as [w|] eqn:Hw;
        [|exists 1%nat, s; simpl; by rewrite Hw].
      destruct (queue s) as [|t rest] eqn:Hs;
        [exists 1%nat, s; simpl; by rewrite Hw, Hs|].
      apply lookup_lt_Some in Hw as Hlt.
      destruct (busy w) eqn:Hb.
      { destruct (IHd (length (workers s) - S k)%nat ltac:(lia) (S k) eq_refl)
          as (n & s' & Hn).
        exists (S n), s'. simpl. by rewrite Hw, Hs, Hb. }
      set (s0 := assign_state k t (taskTimeoutMs s) (set_queue rest s)).
      assert (length (queue s0) ≤ q)%nat as Hq0.
      { pose proof (keeps_queue_length _ _
          (keeps_assign_state k t (taskTimeoutMs s) (set_queue rest s))) as Hl.
        simpl in Hl, Hq. fold s0 in Hl. lia. }
      assert (∃ n1 s1, assign (onWorkerFree n1) k t (taskTimeoutMs s)
                (set_queue rest s) = Some s1 ∧ (length (queue s1) ≤ q)%nat)
        as (n1 & s1 & H1 & Hq1).
      { destruct (assign_calls k (set_queue rest s)) eqn:Hc.
        - destruct (IH s0 Hq0) as (_ & _ & n1 & s1 & H1).
          exists n1, s1. rewrite assign_unfold, Hc. split; [done|].
          apply keeps_onWorkerFree, keeps_queue_length in H1. lia.
        - exists 0%nat, s0. by rewrite assign_unfold, Hc. }
      destruct (IH s1 Hq1) as (Hfor1 & _). destruct (Hfor1 (S k)) as (n2 & s2 & H2).
      exists (S (n1 `max` n2)), s2. simpl. rewrite Hw, Hs, Hb.
      apply bind_Some. exists s1. split.
      - rewrite assign_unfold in *. destruct (assign_calls _ _); [|done].
        eapply onWorkerFree_le; [|done]. lia.
      - eapply pump_for_le; [|done]. lia. }
    assert (∃ n s', pump n s = Some s') as Hpump.
    { destruct (Hfor 0%nat) as (n & s1 & H1). exists (S n), (scale_up s1).
      simpl. by rewrite H1. }
    split_and!; [done|done|].
    destruct Hpump as (n & s1 & H1). exists (S n), (arm_idle s1).
    simpl. by rewrite H1.
Qed.

Lemma pump_total s : ∃ n s', pump n s = Some s'.
Proof. by apply (dispatch_total (length (queue s)) s). Qed.

Lemma onWorkerFree_total s : ∃ n s', onWorkerFree n s = Some s'.
Proof. by apply (dispatch_total (length (queue s)) s). Qed.

Lemma pump_for_total k s : ∃ n s', pump_for n k s = Some s'.
Proof. by apply (dispatch_total (length (queue s)) s). Qed.

(** ** Output framing *)

Lemma indexOf_lt c s idx : indexOf c s = Some idx → (idx < length s)%nat.
Proof.
  revert idx. induction s as [|x s IH]; intros idx H; simpl in *; [done|].
  destruct (x =? c)%N; [simplify_eq; lia|].
  destruct (indexOf c s) as [k|]; simplify_eq/=. specialize (IH k eq_refl). lia.
Qed.

Lemma indexOf_app c a b :
  indexOf c (a ++ b) =
  match indexOf c a with
  | Some idx => Some idx
  | None => (λ k, length a + k)%nat <$> indexOf c b
  end.
Proof.
  induction a as [|x a IH]; simpl.
  - by destruct (indexOf c b).
  - destruct (x =? c)%N; [done|]. rewrite IH.
    destruct (indexOf c a); [done|]. by destruct (indexOf c b).
Qed.

(** Rounds beyond the length of the buffer are never used. *)
Lemma frame_loop_enough n m buf :
  (length buf < n)%nat → (length buf < m)%nat →
  frame_loop n buf = frame_loop m buf.
Proof.
  revert m buf. induction n as [|n IH]; intros m buf Hn Hm; [lia|].
  destruct m as [|m]; [lia|]. simpl.
  destruct (indexOf LF buf) as [idx|] eqn:Hi; [|done].
  apply indexOf_lt in Hi.
  rewrite (IH m); [done| |]; rewrite length_drop; lia.
Qed.

(** One round of the loop. *)
Lemma frame_step buf :
  frame buf =
  match indexOf LF buf with
  | None => ([], buf)
  | Some idx =>
      let line := trim (take idx buf) in
      let '(ls, rest) := frame (drop (S idx) buf) in
      match line with
      | [] => (ls, rest)
      | _ => (line :: ls, rest)
      end
  end.
Proof.
  unfold frame at 1. simpl.
  destruct (indexOf LF buf) as [idx|] eqn:Hi; [|done].
  apply indexOf_lt in Hi. unfold frame.
  rewrite (frame_loop_enough (length buf) (S (length (drop (S idx) buf))));
    [done| |]; rewrite ?length_drop; lia.
Qed.

(** What is in the buffer can be framed before what arrives. *)
Lemma frame_app buf t :
  frame (buf ++ t) =
  let '(ls, rest) := frame buf in
  let '(ls', rest') := frame (rest ++ t) in
  (ls ++ ls', rest').
Proof.
  remember (length buf) as n eqn:Hn. revert buf Hn.
  induction n as [n IH] using lt_wf_ind. intros buf Hn.
  rewrite (frame_step buf).
  destruct (indexOf LF buf) as [idx|] eqn:Hi.
  - rewrite (frame_step (buf ++ t)), indexOf_app, Hi.
    apply indexOf_lt in Hi as Hlt.
    rewrite take_app_le, drop_app_le by lia. simpl.
    rewrite (IH (length (drop (S idx) buf))); [| rewrite length_drop; lia | done].
    destruct (frame (drop (S idx) buf)) as [ls rest].
    destruct (trim (take idx buf)); simpl;
      by destruct (frame (rest ++ t)) as [ls' rest'].
  - simpl. by destruct (frame (buf ++ t)).
Qed.

Lemma feed_all_frame_all buf chunks :
  feed_all buf chunks = frame_all buf (Buffer_toString <$> chunks).
Proof.
  revert buf. induction chunks as [|c cs IH]; intros buf; simpl; [done|].
  unfold feed. destruct (frame (buf ++ Buffer_toString c)) as [ls buf'].
  by rewrite IH.
Qed.

(** The loop leaves a buffer without terminator. *)
Lemma frame_rest_no_LF buf : indexOf LF (frame buf).2 = None.
Proof.
  remember (length buf) as n eqn:Hn. revert buf Hn.
  induction n as [n IH] using lt_wf_ind. intros buf Hn.
  rewrite (frame_step buf).
  destruct (indexOf LF buf) as [idx|] eqn:Hi; [|done].
  apply indexOf_lt in Hi as Hlt.
  specialize (IH (length (drop (S idx) buf))
                 ltac:(rewrite length_drop; lia) _ eq_refl).
  simpl. destruct (frame (drop (S idx) buf)) as [ls rest].
  by destruct (trim (take idx buf)).
Qed.

(** Where the text is cut into chunks does not matter: the lines handed
    over and the buffer left are those of the whole text. *)
Lemma frame_all_concat buf texts :
  indexOf LF buf = None →
  frame_all buf texts = frame (buf ++ concat texts).
Proof.
  revert buf. induction texts as [|t ts IH]; intros buf Hb; simpl.
  - by rewrite app_nil_r, frame_step, Hb.
  - rewrite app_assoc, (frame_app (buf ++ t) (concat ts)).
    pose proof (frame_rest_no_LF (buf ++ t)) as Hr.
    destruct (frame (buf ++ t)) as [ls buf']. simpl in Hr.
    rewrite (IH _ Hr). by destruct (frame (buf' ++ concat ts)).
Qed.

(** The loop of the handler and the split of the specification agree on
    every text. *)
Lemma split_lines_no_LF s : indexOf LF s = None → split_lines s = ([], s).
Proof.
  induction s as [|c s IH]; simpl; [done|].
  destruct (c =? LF)%N; [done|].
  destruct (indexOf LF s); [done|]. intros _. by rewrite IH.
Qed.

Lemma split_lines_LF s idx :
  indexOf LF s = Some idx →
  split_lines s = (take idx s :: (split_lines (drop (S idx) s)).1,
                   (split_lines (drop (S idx) s)).2).
Proof.
  revert idx. induction s as [|c s IH]; intros idx; simpl; [done|].
  destruct (c =? LF)%N.
  - intros [= <-]. simpl. rewrite drop_0. by destruct (split_lines s).
  - destruct (indexOf LF s) as [k|]; [|done]. intros [= <-].
    rewrite (IH k eq_refl). done.
Qed.

Lemma frame_split text : frame text = spec_frame text.
Proof.
  remember (length text) as n eqn:Hn. revert text Hn.
  induction n as [n IH] using lt_wf_ind. intros text Hn.
  rewrite frame_step. unfold spec_frame.
  destruct (indexOf LF text) as [idx|] eqn:Hi.
  - apply indexOf_lt in Hi as Hlt.
    rewrite (split_lines_LF _ _ Hi). simpl.
    rewrite (IH (length (drop (S idx) text)));
      [| rewrite length_drop; lia | done].
    unfold spec_frame. rewrite filter_cons.
    destruct (trim (take idx text)) eqn:Ht.
    + rewrite decide_False; [done|]. intros H. by apply H.
    + rewrite decide_True; done.
  - by rewrite (split_lines_no_LF _ Hi).
Qed.

(** Decoding chunk by chunk is decoding the whole stream when the bytes
    are ASCII. *)
Lemma utf8_decode_ascii (bs : list byte) :
  Forall ascii_byte bs →
  utf8_decode None (List.map Byte.to_N bs) = List.map Byte.to_N bs.
Proof.
  induction 1 as [|b bs Hb _ IH]; [done|].
  simpl. unfold utf8_lead. unfold ascii_byte in Hb.
  apply N.leb_le in Hb. rewrite Hb. simpl. by rewrite IH.
Qed.

Lemma Buffer_toString_ascii (bs : list byte) :
  Forall ascii_byte bs → Buffer_toString bs = List.map Byte.to_N bs.
Proof.
  intros H. unfold Buffer_toString.
  rewrite (utf8_decode_ascii _ H).
  induction H as [|b bs Hb _ IH]; [done|].
  simpl. rewrite IH. unfold utf16_units.
  unfold ascii_byte in Hb.
  destruct (Byte.to_N b <? 0x10000)%N eqn:Hlt; [done|].
  apply N.ltb_ge in Hlt. lia.
Qed.

Lemma Buffer_toString_concat_ascii (chunks : list (list byte)) :
  Forall (Forall ascii_byte) chunks →
  Buffer_toString (concat chunks) = concat (Buffer_toString <$> chunks).
Proof.
  intros H. rewrite Buffer_toString_ascii by by apply Forall_concat.
  induction H as [|c cs Hc _ IH]; [done|].
  simpl. rewrite List.map_app, IH. by rewrite (Buffer_toString_ascii c).
Qed.

(** On an ASCII stream the handler is independent of the chunk
    boundaries: it hands over the lines of the whole stream and keeps what
    follows the last terminator. *)
Lemma feed_all_ascii (chunks : list (list byte)) :
  Forall (Forall ascii_byte) chunks →
  feed_all [] chunks = spec_frame (Buffer_toString (concat chunks)).
Proof.
  intros H. rewrite feed_all_frame_all, frame_all_concat by done.
  by rewrite <- frame_split, Buffer_toString_concat_ascii.
Qed.

(** ** What the handlers of a worker leave alone *)

Lemma keeps_log c s : keeps s (log c s).
Proof.
  unfold keeps; simpl; split_and!; try done.
  - by exists [].
  - exists []. by rewrite app_nil_r.
  - intros j w Hw. by exists w.
Qed.

Lemma keeps_failCurrent free i e s s' :
  (∀ a b, free a = Some b → keeps a b) →
  failCurrent free i e s = Some s' → keeps s s'.
Proof.
  intros Hfree H. rewrite failCurrent_unfold in H.
  destruct (failCurrent_calls i s); [|simplify_eq; apply keeps_refl].
  eapply keeps_trans; [apply keeps_failCurrent_state|by apply Hfree].
Qed.

Lemma keeps_handleResultLine parse free i line s s' :
  (∀ a b, free a = Some b → keeps a b) →
  handleResultLine parse free i line s = Some s' → keeps s s'.
Proof.
  intros Hfree. unfold handleResultLine.
  destruct (match trim line with [] => true | first :: _ => _ end).
  { intros [= <-]. apply keeps_log. }
  destruct (parse (trim line)) as [parsed|];
    [|intros [= <-]; apply keeps_log].
  destruct (workers s !! i) as [w|] eqn:Hw; [|intros [= <-]; apply keeps_refl].
  destruct (currentTask w) as [task|]; [|intros [= <-]; apply keeps_log].
  intros H. eapply keeps_trans; [|by apply Hfree].
  destruct (currentTimeout w); keeps_tac i.
Qed.

(** The loop of the [data] handler leaves in the buffer what [frame]
    leaves, and touches nothing a dispatch does not touch. *)
Lemma stdout_while_spec parse n i s s' w :
  workers s !! i = Some w →
  stdout_while parse n i s = Some s' →
  (length (workers s) ≤ length (workers s'))%nat
  ∧ ∃ w', workers s' !! i = Some w'
          ∧ stdoutBuffer w' = (frame (stdoutBuffer w)).2
          ∧ proc w' = proc w ∧ shouldRespawn w' = shouldRespawn w.
Proof.
  revert s w. induction n as [|n IH]; intros s w Hw H; [discriminate|].
  simpl in H. rewrite Hw in H. rewrite frame_step.
  destruct (indexOf LF (stdoutBuffer w)) as [idx|] eqn:Hi.
  2:{ simplify_eq. split; [done|]. eauto. }
  set (s1 := upd_worker i (set_stdoutBuffer (drop (S idx) (stdoutBuffer w))) s) in *.
  assert (workers s1 !! i =
            Some (set_stdoutBuffer (drop (S idx) (stdoutBuffer w)) w)) as Hw1.
  { unfold s1. rewrite workers_upd_worker, list_lookup_alter_eq, Hw. done. }
  assert (length (workers s1) = length (workers s)) as Hl1
    by apply length_upd_worker.
  assert (∀ s2, keeps s1 s2 → stdout_while parse n i s2 = Some s' →
     (length (workers s) ≤ length (workers s'))%nat
     ∧ ∃ w', workers s' !! i = Some w'
             ∧ stdoutBuffer w' = (frame (drop (S idx) (stdoutBuffer w))).2
             ∧ proc w' = proc w ∧ shouldRespawn w' = shouldRespawn w) as Hrest.
  { intros s2 Hk H2.
    destruct Hk as (_ & _ & _ & _ & _ & _ & _ & _ & _ & Hl & Hws & _).
    destruct (Hws _ _ Hw1) as (w2 & Hw2 & P1 & P2 & P3 & _).
    destruct (IH _ _ Hw2 H2) as (Hlen & w' & Hw' & Q1 & Q2 & Q3).
    split; [lia|]. exists w'. simpl in *. split_and!; congruence. }
  destruct (trim (take idx (stdoutBuffer w))) as [|c l] eqn:Ht.
  - destruct (Hrest s1 (keeps_refl _) H) as (Hlen & w' & ? & Hb & ?).
    split; [done|]. exists w'. split; [done|]. split; [|done].
    rewrite Hb. simpl. by destruct (frame _).
  - apply bind_Some in H as (s2 & H1 & H2).
    apply keeps_handleResultLine in H1; [|apply keeps_onWorkerFree].
    destruct (Hrest s2 H1 H2) as (Hlen & w' & ? & Hb & ?).
    split; [done|]. exists w'. split; [done|]. split; [|done].
    rewrite Hb. simpl. by destruct (frame _).
Qed.

(** The buffer after a [data] event is the one [feed] computes. *)
Lemma on_stdout_data_buffer parse n i data s s' w :
  workers s !! i = Some w →
  on_stdout_data parse n i data s = Some s' →
  ∃ w', workers s' !! i = Some w'
        ∧ stdoutBuffer w' = (feed (stdoutBuffer w) data).2.
Proof.
  intros Hw H. unfold on_stdout_data in H.
  eapply stdout_while_spec in H as (_ & w' & Hw' & Hb & _);
    [|by rewrite workers_upd_worker, list_lookup_alter_eq, Hw].
  exists w'. split; [done|]. by rewrite Hb.
Qed.

(** C9 (the code departs from the claim). A character of two bytes cut by
    a chunk boundary: the handler decodes each chunk on its own and hands
    over a line of two U+FFFD, where the whole stream split on the
    terminator gives the line of the one character U+00E9. With the
    boundary after the character the handler agrees with the split. The
    line reaches [handleResultLine], which logs it, under any
    [JSON.parse]. On ASCII streams the claim holds ([feed_all_ascii]). *)
Theorem C9_chunk_boundary_inside_a_character :
  feed_all [] [[xc3]; [xa9; x0a]] = ([[0xFFFD; 0xFFFD]%N], [])
  ∧ spec_frame (Buffer_toString (concat [[xc3]; [xa9; x0a]])) = ([[0xE9%N]], [])
  ∧ feed_all [] [[xc3; xa9]; [x0a]] = ([[0xE9%N]], [])
  ∧ ∀ parse,
      console <$> run parse 2 [StdoutData 0 [xc3]; StdoutData 0 [xa9; x0a]]
                      (new_pool 1 1 120000 300000)
      = Some [PythonOut [0xFFFD; 0xFFFD]%N]
      ∧ console <$> run parse 2 [StdoutData 0 [xc3; xa9; x0a]]
                        (new_pool 1 1 120000 300000)
        = Some [PythonOut [0xE9%N]].
Proof.
  split_and!; try (vm_compute; reflexivity).
  intros parse. split; vm_compute; reflexivity.
Qed.

(** ** A line of the output *)

Lemma looks_json_test line :
  match trim line with
  | first :: _ => negb (first =? 123)%N && negb (first =? 91)%N
  | [] => true
  end = negb (looks_json line).
Proof.
  unfold looks_json. destruct (trim line) as [|c l]; [done|].
  by rewrite negb_orb.
Qed.

(** A result that parses closes the current task. *)
Lemma handleResultLine_result parse free i line s w task parsed :
  workers s !! i = Some w →
  currentTask w = Some task →
  looks_json line = true →
  parse (trim line) = Some parsed →
  ∃ s1 o,
    handleResultLine parse free i line s = free s1
    ∧ settled s1 = settled s ++ [(handle task, o)]
    ∧ (success o = true ↔ prop parsed (js "status") = Some (JStr (js "success")))
    ∧ result o = Some parsed
    ∧ error o = prop parsed (js "error")
    ∧ executionTime o = reported_time parsed (__start task) (now s)
    ∧ timers s1 = match currentTimeout w with
                  | Some id => delete id (timers s)
                  | None => timers s
                  end
    ∧ (∃ w1, workers s1 !! i = Some w1 ∧ busy w1 = false
             ∧ currentTask w1 = None ∧ currentTimeout w1 = None)
    ∧ queue s1 = queue s ∧ signals s1 = signals s.
Proof.
  intros Hw Ht Hj Hp. unfold handleResultLine.
  rewrite looks_json_test, Hj, Hp, Hw, Ht. simpl.
  eexists _, _. split; [reflexivity|].
  split_and!.
  - by destruct (currentTimeout w).
  - simpl. destruct (prop parsed (js "status")) as [[]|]; simpl;
      try (split; [discriminate|congruence]).
    rewrite bool_decide_eq_true. split; congruence.
  - done.
  - done.
  - simpl. unfold reported_time.
    by destruct (prop parsed (js "__t")) as [[]|].
  - by destruct (currentTimeout w).
  - destruct (currentTimeout w) eqn:Hc; simpl;
      rewrite !list_lookup_alter_eq, Hw; simpl; eexists; split_and!; try done.
  - by destruct (currentTimeout w).
  - by destruct (currentTimeout w).
Qed.

(** C3. A worker with a current task receives a line that looks like
    JSON and parses: the timeout timer is cleared; the task is resolved,
    once, with [success] true exactly when the [status] of the result is
    the string [success], with the parsed result, with its [error]
    property, and with its [__t] property for execution time when that is
    neither absent nor null, the time since the assignment otherwise; the
    worker is idle, holds no task, and the callback of the pool is called
    on that state. *)
Theorem C3_result_line_resolves_the_task parse free i line s w task parsed :
  workers s !! i = Some w →
  currentTask w = Some task →
  looks_json line = true →
  parse (trim line) = Some parsed →
  ∃ s1 o,
    handleResultLine parse free i line s = free s1
    ∧ settled s1 = settled s ++ [(handle task, o)]
    ∧ (success o = true ↔ prop parsed (js "status") = Some (JStr (js "success")))
    ∧ result o = Some parsed
    ∧ error o = prop parsed (js "error")
    ∧ (∀ t, prop parsed (js "__t") = Some t → t ≠ JNull → executionTime o = t)
    ∧ (∀ t0, (prop parsed (js "__t") = None ∨ prop parsed (js "__t") = Some JNull) →
             __start task = Some t0 → executionTime o = JNum (now s - t0))
    ∧ (∀ id, currentTimeout w = Some id → timers s1 = delete id (timers s))
    ∧ (∃ w1, workers s1 !! i = Some w1 ∧ busy w1 = false
             ∧ currentTask w1 = None ∧ currentTimeout w1 = None).
Proof.
  intros Hw Ht Hj Hp.
  destruct (handleResultLine_result parse free i line s w task parsed
              Hw Ht Hj Hp)
    as (s1 & o & H1 & H2 & H3 & H4 & H5 & H6 & H7 & H8 & _).
  exists s1, o. split_and!; try done.
  - intros t Hpt Hn. rewrite H6. unfold reported_time. rewrite Hpt.
    by destruct t.
  - intros t0 Hpt Hs. rewrite H6. unfold reported_time.
    destruct Hpt as [-> | ->]; by rewrite Hs.
  - intros id Hid. by rewrite H7, Hid.
Qed.

Lemma C3_witness :
  ∃ s1 o,
    handleResultLine sample_parse Some 0 sample_result_text
      (after [Submit JNull (js "abc123"); Tick 7] (new_pool 1 1 100 300))
    = Some s1
    ∧ settled s1 = [(0%nat, o)]
    ∧ success o = true ∧ executionTime o = JNum 5
    ∧ timers s1 = ∅.
Proof.
  destruct (C3_result_line_resolves_the_task sample_parse Some 0
              sample_result_text
              (after [Submit JNull (js "abc123"); Tick 7] (new_pool 1 1 100 300))
              {| proc := Some {| pid := 0; stdin := StdinOpen |}; busy := true;
                 stdoutBuffer := [];
                 currentTask := Some {| handle := 0; rid := js "0_abc123";
                                        interpretation := JNull;
                                        __start := Some 0 |};
                 currentTimeout := Some 0%nat; idleTimer := None;
                 shouldRespawn := true |}
              {| handle := 0; rid := js "0_abc123"; interpretation := JNull;
                 __start := Some 0 |}
              sample_result)
    as (s1 & o & H1 & H2 & H3 & _ & _ & H6 & _ & H8 & _);
    [reflexivity|reflexivity|reflexivity|reflexivity|].
  exists s1, o. split_and!.
  - exact H1.
  - exact H2.
  - apply H3. reflexivity.
  - apply (H6 (JNum 5)); [reflexivity|discriminate].
  - rewrite (H8 0%nat eq_refl). reflexivity.
Defined.

(** C5. What [handleResultLine] does with a line that closes no task. A
    line whose first character after trimming is neither a brace nor a
    bracket is logged, and nothing but the console changes; so is a line
    that looks like JSON and does not parse (a warning is logged, the
    current task stays assigned and unresolved) and a line that parses
    when the worker holds no task. Hence a line that does not parse
    followed by a result that does completes the task with the result of
    the second line alone, and the first resolves nothing. *)
Theorem C5_lines_that_close_no_task parse free i s :
  (∀ line, looks_json line = false →
     handleResultLine parse free i line s = Some (log (PythonOut (trim line)) s))
  ∧ (∀ line, looks_json line = true → parse (trim line) = None →
       handleResultLine parse free i line s = Some (log InvalidJsonLine s))
  ∧ (∀ line parsed w,
       looks_json line = true → parse (trim line) = Some parsed →
       workers s !! i = Some w → currentTask w = None →
       handleResultLine parse free i line s
       = Some (log (UnmatchedResult (take 200 (trim line))) s))
  ∧ (∀ c, workers (log c s) = workers s ∧ queue (log c s) = queue s
          ∧ settled (log c s) = settled s ∧ timers (log c s) = timers s
          ∧ signals (log c s) = signals s ∧ written (log c s) = written s)
  ∧ (∀ bad good w task parsed,
       workers s !! i = Some w → currentTask w = Some task →
       looks_json bad = true → parse (trim bad) = None →
       looks_json good = true → parse (trim good) = Some parsed →
       ∃ s1 s2 o,
         handleResultLine parse free i bad s = Some s1
         ∧ workers s1 = workers s ∧ settled s1 = settled s
         ∧ timers s1 = timers s
         ∧ handleResultLine parse free i good s1 = free s2
         ∧ settled s2 = settled s ++ [(handle task, o)]
         ∧ result o = Some parsed
         ∧ (success o = true ↔
            prop parsed (js "status") = Some (JStr (js "success")))).
Proof.
  split_and!.
  - intros line Hj. unfold handleResultLine. by rewrite looks_json_test, Hj.
  - intros line Hj Hp. unfold handleResultLine.
    by rewrite looks_json_test, Hj, Hp.
  - intros line parsed w Hj Hp Hw Ht. unfold handleResultLine.
    by rewrite looks_json_test, Hj, Hp, Hw, Ht.
  - done.
  - intros bad good w task parsed Hw Ht Hjb Hpb Hjg Hpg.
    destruct (handleResultLine_result parse free i good (log InvalidJsonLine s)
                w task parsed Hw Ht Hjg Hpg)
      as (s2 & o & H1 & H2 & H3 & H4 & _).
    exists (log InvalidJsonLine s), s2, o. split_and!; try done.
    unfold handleResultLine. by rewrite looks_json_test, Hjb, Hpb.
Qed.

Lemma C5_witness :
  (∃ s1 s2 o,
     handleResultLine sample_parse Some 0 (js "{oops")
       (after [Submit JNull (js "abc123")] (new_pool 1 1 100 300)) = Some s1
     ∧ settled s1 = []
     ∧ handleResultLine sample_parse Some 0 sample_result_text s1 = Some s2
     ∧ settled s2 = [(0%nat, o)] ∧ result o = Some sample_result
     ∧ success o = true)
  ∧ handleResultLine sample_parse Some 0 (js "Loading model")
      (new_pool 1 1 100 300)
    = Some (log (PythonOut (js "Loading model")) (new_pool 1 1 100 300))
  ∧ settled (after [Submit JNull (js "abc123");
                    StdoutData 0 (bytes_of (js "{oops" ++ [LF]));
                    StdoutData 0 (bytes_of (sample_result_text ++ [LF]))]
               (new_pool 1 1 100 300))
    = [(0%nat, {| success := true; result := Some sample_result;
                  error := None; executionTime := JNum 5 |})].
Proof.
  pose proof (C5_lines_that_close_no_task sample_parse Some 0
                (after [Submit JNull (js "abc123")] (new_pool 1 1 100 300)))
    as (_ & _ & _ & _ & H).
  pose proof (C5_lines_that_close_no_task sample_parse Some 0
                (new_pool 1 1 100 300)) as (H0 & _).
  split_and!.
  - destruct (H (js "{oops") sample_result_text
                {| proc := Some {| pid := 0; stdin := StdinOpen |}; busy := true;
                   stdoutBuffer := [];
                   currentTask := Some {| handle := 0; rid := js "0_abc123";
                                          interpretation := JNull;
                                          __start := Some 0 |};
                   currentTimeout := Some 0%nat; idleTimer := None;
                   shouldRespawn := true |}
                {| handle := 0; rid := js "0_abc123"; interpretation := JNull;
                   __start := Some 0 |}
                sample_result)
      as (s1 & s2 & o & H1 & _ & H3 & _ & H5 & H6 & H7 & H8);
      [reflexivity|reflexivity|reflexivity|reflexivity|reflexivity|reflexivity|].
    exists s1, s2, o. split_and!; try done. apply H8. reflexivity.
  - apply (H0 (js "Loading model")). reflexivity.
  - vm_compute. reflexivity.
Defined.

(** ** The idle timer *)

Lemma scheduleScaleDown_rearm s i ttl w id :
  workers s !! i = Some w → idleTimer w = Some id →
  (id < next_timer s)%nat → 0 < ttl →
  timers (scheduleScaleDown i ttl s) !! id = None
  ∧ timers (scheduleScaleDown i ttl s) !! next_timer s
    = Some (now s + timer_delay ttl, IdleScaleDown i ttl)
  ∧ next_timer (scheduleScaleDown i ttl s) = S (next_timer s)
  ∧ ∃ w', workers (scheduleScaleDown i ttl s) !! i = Some w'
          ∧ idleTimer w' = Some (next_timer s).
Proof.
  intros Hw Hid Hlt Httl. unfold scheduleScaleDown.
  rewrite (proj2 (Z.leb_gt ttl 0)) by lia. rewrite Hw, Hid. simpl.
  split_and!.
  - rewrite lookup_insert_ne by lia. apply lookup_delete_eq.
  - apply lookup_insert_eq.
  - done.
  - rewrite list_lookup_alter_eq, Hw. simpl. eauto.
Qed.

(** C7 (counterexample). The idle timer of the second worker is armed
    at time 0 for 300 ms; 100 ms later [scheduleScaleDown] is called
    again: the armed timer is gone and a new one runs until 400, so the
    call is not a no-op and the deadline of 300 is not kept. *)
Lemma C7_rearming_is_not_a_noop :
  timers idle_timer_armed !! 0%nat = Some (300, IdleScaleDown 1 300)
  ∧ (idleTimer <$> workers idle_timer_armed !! 1%nat) = Some (Some 0%nat)
  ∧ scheduleScaleDown 1 300 (set_now 100 idle_timer_armed)
    ≠ set_now 100 idle_timer_armed
  ∧ timers (scheduleScaleDown 1 300 (set_now 100 idle_timer_armed)) !! 0%nat
    = None
  ∧ timers (scheduleScaleDown 1 300 (set_now 100 idle_timer_armed)) !! 1%nat
    = Some (400, IdleScaleDown 1 300).
Proof.
  split_and!; try (vm_compute; reflexivity).
  intros H. apply (f_equal next_timer) in H. vm_compute in H. discriminate.
Qed.

(** C7 (amended). On a worker whose idle timer is armed,
    [scheduleScaleDown] with a positive delay cancels the armed timer and
    arms a new one, which runs for the whole delay from the time of the
    call, so every call postpones the deadline; with a delay of zero or
    less the call changes nothing. An assignment to a worker whose process
    is ready cancels the armed timer too. *)
Theorem C7_rearming_replaces_the_idle_timer s i ttl w id :
  workers s !! i = Some w → idleTimer w = Some id →
  (id < next_timer s)%nat →
  (0 < ttl →
     timers (scheduleScaleDown i ttl s) !! id = None
     ∧ timers (scheduleScaleDown i ttl s) !! next_timer s
       = Some (now s + timer_delay ttl, IdleScaleDown i ttl)
     ∧ ∃ w', workers (scheduleScaleDown i ttl s) !! i = Some w'
             ∧ idleTimer w' = Some (next_timer s))
  ∧ (ttl ≤ 0 → scheduleScaleDown i ttl s = s)
  ∧ (∀ task ms p, proc w = Some p → stdin p ≠ StdinNull →
       timers (assign_state i task ms s) !! id = None
       ∧ ∃ w', workers (assign_state i task ms s) !! i = Some w'
               ∧ idleTimer w' = None).
Proof.
  intros Hw Hid Hlt. split_and!.
  - intros Httl.
    destruct (scheduleScaleDown_rearm s i ttl w id Hw Hid Hlt Httl)
      as (H1 & H2 & _ & H3). done.
  - intros Httl. unfold scheduleScaleDown.
    by rewrite (proj2 (Z.leb_le ttl 0)) by lia.
  - intros task ms p Hp Hst. unfold assign_state, assign. rewrite Hw.
    destruct w as [pr b buf ct cto it sr]. simpl in *. subst pr it.
    destruct p as [pd [| |m]]; [done| |]; simpl.
    + split.
      * rewrite lookup_insert_ne by lia. apply lookup_delete_eq.
      * rewrite !list_lookup_alter_eq, Hw. simpl. eauto.
    + unfold failCurrent. simpl. rewrite !list_lookup_alter_eq, Hw. simpl.
      destruct ct; simpl.
      * split; [by rewrite lookup_delete_ne, lookup_insert_ne,
                   lookup_delete_eq by lia|].
        rewrite !list_lookup_alter_eq, Hw. simpl. eauto.
      * split; [by rewrite lookup_delete_ne, lookup_insert_ne,
                   lookup_delete_eq by lia|].
        rewrite !list_lookup_alter_eq, Hw. simpl. eauto.
Qed.

Lemma C7_witness :
  timers (scheduleScaleDown 1 300 (set_now 100 idle_timer_armed)) !! 0%nat = None
  ∧ timers (scheduleScaleDown 1 300 (set_now 100 idle_timer_armed)) !! 1%nat
    = Some (100 + timer_delay 300, IdleScaleDown 1 300)
  ∧ scheduleScaleDown 1 0 (set_now 100 idle_timer_armed)
    = set_now 100 idle_timer_armed.
Proof.
  destruct (C7_rearming_replaces_the_idle_timer
              (set_now 100 idle_timer_armed) 1 300
              {| proc := Some {| pid := 1; stdin := StdinOpen |}; busy := false;
                 stdoutBuffer := []; currentTask := None;
                 currentTimeout := None; idleTimer := Some 0%nat;
                 shouldRespawn := true |} 0%nat)
    as (H1 & _ & _); [reflexivity|reflexivity|vm_compute; lia|].
  destruct (C7_rearming_replaces_the_idle_timer
              (set_now 100 idle_timer_armed) 1 0
              {| proc := Some {| pid := 1; stdin := StdinOpen |}; busy := false;
                 stdoutBuffer := []; currentTask := None;
                 currentTimeout := None; idleTimer := Some 0%nat;
                 shouldRespawn := true |} 0%nat)
    as (_ & H2 & _); [reflexivity|reflexivity|vm_compute; lia|].
  destruct (H1 ltac:(lia)) as (A & B & _).
  split_and!; [exact A|exact B|apply H2; lia].
Defined.

(** ** Every handler is a sequence of state changes *)

Lemma handleResultLine_unfold parse free i line s :
  ∃ s1, handleResultLine parse Some i line s = Some s1
        ∧ (handleResultLine parse free i line s = Some s1
           ∨ handleResultLine parse free i line s = free s1).
Proof.
  unfold handleResultLine.
  destruct (match trim line with [] => true | first :: _ => _ end); [eauto|].
  destruct (parse (trim line)); [|eauto].
  destruct (workers s !! i) as [w|]; [|eauto].
  destruct (currentTask w); eauto.
Qed.

Lemma arm_idle_moves s : rtc move s (arm_idle s).
Proof.
  unfold arm_idle. destruct (0 <? _); [|done].
  generalize (seq 0 (length (workers s))). intros l.
  revert s. induction l as [|i l IH]; intros s; [done|].
  simpl. eapply rtc_trans; [|apply IH].
  destruct (workers s !! i) as [w|] eqn:Hw; [|done].
  destruct (busy w) eqn:Hb; simpl; [done|].
  destruct (_ <? _); [|done]. apply rtc_once. by eapply mv_schedule.
Qed.

Lemma dispatch_moves n :
  (∀ k s s', pump_for n k s = Some s' → rtc move s s')
  ∧ (∀ s s', pump n s = Some s' → rtc move s s')
  ∧ (∀ s s', onWorkerFree n s = Some s' → rtc move s s').
Proof.
  apply dispatch_ind.
  - done.
  - intros. by eapply rtc_trans.
  - intros. apply rtc_once. by eapply mv_assign.
  - intros. apply rtc_once, mv_scale_up.
  - apply arm_idle_moves.
Qed.

Lemma onWorkerFree_moves n s s' : onWorkerFree n s = Some s' → rtc move s s'.
Proof. apply dispatch_moves. Qed.

Lemma pump_moves n s s' : pump n s = Some s' → rtc move s s'.
Proof. apply dispatch_moves. Qed.

Lemma failCurrent_moves n i e s s' :
  failCurrent (onWorkerFree n) i e s = Some s' → rtc move s s'.
Proof.
  rewrite failCurrent_unfold. destruct (failCurrent_calls i s).
  - intros H. eapply rtc_l; [apply (mv_fail _ i e)|by eapply onWorkerFree_moves].
  - by intros [= <-].
Qed.

Lemma stdout_while_moves parse n i s s' :
  stdout_while parse n i s = Some s' → rtc move s s'.
Proof.
  revert s. induction n as [|n IH]; intros s H; [discriminate|].
  simpl in H. destruct (workers s !! i) as [w|]; [|by simplify_eq].
  destruct (indexOf LF (stdoutBuffer w)) as [idx|]; [|by simplify_eq].
  eapply rtc_l; [apply mv_buffer|].
  destruct (trim (take idx (stdoutBuffer w))) as [|c l]; [by apply IH|].
  apply bind_Some in H as (s2 & H1 & H2).
  eapply rtc_trans; [|by apply IH].
  destruct (handleResultLine_unfold parse (onWorkerFree n) i (c :: l)
              (upd_worker i (set_stdoutBuffer (drop (S idx) (stdoutBuffer w))) s))
    as (s1 & Hs1 & [Hr|Hr]); rewrite Hr in H1.
  - simplify_eq. apply rtc_once. by eapply mv_result.
  - eapply rtc_l; [by eapply mv_result|by eapply onWorkerFree_moves].
Qed.

Lemma step_moves parse n e s s' :
  step parse n e s = Some s' → rtc move s s'.
Proof.
  destruct e as [payload rnd|i data|i data|i m|i code|id|dt|i st]; simpl.
  - unfold processInterpretation. intros H.
    eapply rtc_l; [apply mv_enqueue|]. eapply rtc_l; [apply mv_log|].
    by eapply pump_moves.
  - destruct (has_proc i s) eqn:Hp; [|by intros [= <-]].
    unfold on_stdout_data. intros H. unfold has_proc in Hp.
    destruct (workers s !! i) as [w|] eqn:Hw; [|done].
    eapply rtc_l; [apply (mv_buffer _ i (stdoutBuffer w ++ Buffer_toString data))|].
    eapply stdout_while_moves.
    replace (upd_worker i (set_stdoutBuffer _) s) with
      (upd_worker i (λ w, set_stdoutBuffer
                            (stdoutBuffer w ++ Buffer_toString data) w) s);
      [done|].
    unfold upd_worker. f_equal. apply list_eq. intros j.
    rewrite !list_lookup_alter. destruct (decide (i = j)) as [->|]; [|done].
    by rewrite Hw.
  - destruct (has_proc i s); intros [= <-]; [apply rtc_once, mv_log|done].
  - destruct (has_proc i s); [|by intros [= <-]]. intros H.
    apply bind_Some in H as (s1 & H1 & [= <-]).
    eapply rtc_l; [apply mv_log|].
    eapply rtc_r; [by eapply failCurrent_moves|apply mv_respawn].
  - destruct (has_proc i s); [|by intros [= <-]]. intros H.
    apply bind_Some in H as (s1 & H1 & [= <-]).
    eapply rtc_l; [apply mv_log|].
    eapply rtc_r; [by eapply failCurrent_moves|apply mv_respawn].
  - destruct (timers s !! id) as [[d cb]|] eqn:Ht; [|by intros [= <-]].
    destruct (d <=? now s); [|by intros [= <-]].
    destruct cb as [i ms|i ttl|i]; simpl.
    + intros H. eapply rtc_l; [by eapply mv_fire_timeout|].
      by eapply failCurrent_moves.
    + destruct (workers s !! i) as [w|] eqn:Hw;
        [|intros [= <-]; apply rtc_once, mv_clear].
      destruct (busy w) eqn:Hb; intros [= <-]; [apply rtc_once, mv_clear|].
      apply rtc_once. by eapply mv_fire_idle.
    + intros [= <-]. apply rtc_once. by eapply mv_fire_respawn.
  - destruct (0 <=? dt) eqn:Hd; intros [= <-]; [|done].
    apply rtc_once, mv_tick. lia.
  - intros [= <-]. apply rtc_once, mv_stdin.
Qed.

Lemma run_moves parse n es s s' :
  run parse n es s = Some s' → rtc move s s'.
Proof.
  revert s. induction es as [|e es IH]; intros s H; simpl in H.
  - by simplify_eq.
  - apply bind_Some in H as (s1 & H1 & H2).
    eapply rtc_trans; [by eapply step_moves|by apply IH].
Qed.

(** A property of states that every state change preserves is preserved
    by every list of events. *)
Lemma moves_preserve (Q : State → Prop) :
  (∀ s s', move s s' → Q s → Q s') →
  ∀ s s', rtc move s s' → Q s → Q s'.
Proof. intros HQ s s' H. induction H; eauto. Qed.

Lemma run_preserves (Q : State → Prop) parse n es s s' :
  (∀ s s', move s s' → Q s → Q s') →
  run parse n es s = Some s' → Q s → Q s'.
Proof. intros HQ H. eapply moves_preserve; [done|by eapply run_moves]. Qed.

(** ** Every event is handled *)

Lemma failCurrent_le free free' i e s s' :
  (∀ a b, free a = Some b → free' a = Some b) →
  failCurrent free i e s = Some s' → failCurrent free' i e s = Some s'.
Proof.
  intros Hf. rewrite !failCurrent_unfold.
  destruct (failCurrent_calls i s); eauto.
Qed.

Lemma handleResultLine_le parse free free' i line s s' :
  (∀ a b, free a = Some b → free' a = Some b) →
  handleResultLine parse free i line s = Some s' →
  handleResultLine parse free' i line s = Some s'.
Proof.
  intros Hf. unfold handleResultLine.
  destruct (match trim line with [] => true | first :: _ => _ end); [done|].
  destruct (parse (trim line)); [|done].
  destruct (workers s !! i) as [w|]; [|done].
  destruct (currentTask w); eauto.
Qed.

Lemma stdout_while_le parse n m i s s' :
  (n ≤ m)%nat →
  stdout_while parse n i s = Some s' → stdout_while parse m i s = Some s'.
Proof.
  revert m s. induction n as [|n IH]; intros m s Hle H; [discriminate|].
  destruct m as [|m]; [lia|]. simpl in *.
  destruct (workers s !! i) as [w|]; [|done].
  destruct (indexOf LF (stdoutBuffer w)) as [idx|]; [|done].
  destruct (trim (take idx (stdoutBuffer w))) as [|c l];
    [apply IH; [lia|done]|].
  apply bind_Some in H as (s2 & H1 & H2). apply bind_Some. exists s2. split.
  - eapply handleResultLine_le; [|done]. intros a b. apply onWorkerFree_le. lia.
  - apply IH; [lia|done].
Qed.

Lemma step_le parse n m e s s' :
  (n ≤ m)%nat → step parse n e s = Some s' → step parse m e s = Some s'.
Proof.
  intros Hle.
  assert (∀ a b, onWorkerFree n a = Some b → onWorkerFree m a = Some b) as Hf
    by (intros a b; by apply onWorkerFree_le).
  destruct e as [payload rnd|i data|i data|i msg|i code|id|dt|i st]; simpl;
    try done.
  - unfold processInterpretation. by apply pump_le.
  - destruct (has_proc i s); [|done]. unfold on_stdout_data.
    by apply stdout_while_le.
  - destruct (has_proc i s); [|done]. intros H.
    apply bind_Some in H as (s1 & H1 & H2). apply bind_Some. exists s1.
    split; [|done]. by eapply failCurrent_le.
  - destruct (has_proc i s); [|done]. intros H.
    apply bind_Some in H as (s1 & H1 & H2). apply bind_Some. exists s1.
    split; [|done]. by eapply failCurrent_le.
  - destruct (timers s !! id) as [[d cb]|]; [|done].
    destruct (d <=? now s); [|done].
    destruct cb; simpl; try done. by apply failCurrent_le.
Qed.

Lemma run_le parse n m es s s' :
  (n ≤ m)%nat → run parse n es s = Some s' → run parse m es s = Some s'.
Proof.
  intros Hle. revert s. induction es as [|e es IH]; intros s H; simpl in *;
    [done|].
  apply bind_Some in H as (s1 & H1 & H2). apply bind_Some. exists s1.
  split; [by eapply step_le|by apply IH].
Qed.

Lemma failCurrent_total i e s :
  ∃ n s', failCurrent (onWorkerFree n) i e s = Some s'.
Proof.
  destruct (onWorkerFree_total (failCurrent_state i e s)) as (n & s' & H).
  exists n. rewrite failCurrent_unfold.
  destruct (failCurrent_calls i s); eauto.
Qed.

Lemma handleResultLine_total parse i line s :
  ∃ n s', handleResultLine parse (onWorkerFree n) i line s = Some s'.
Proof.
  destruct (handleResultLine_unfold parse Some i line s) as (s1 & Hs1 & _).
  destruct (onWorkerFree_total s1) as (n & s' & H).
  exists n.
  destruct (handleResultLine_unfold parse (onWorkerFree n) i line s)
    as (s1' & Hs1' & [Hr|Hr]); rewrite Hr; simplify_eq; eauto.
Qed.

Lemma stdout_while_total parse i s : ∃ n s', stdout_while parse n i s = Some s'.
Proof.
  destruct (workers s !! i) as [w|] eqn:Hw;
    [|exists 1%nat, s; simpl; by rewrite Hw].
  remember (length (stdoutBuffer w)) as len eqn:Hlen.
  revert s w Hw Hlen. induction len as [len IH] using lt_wf_ind.
  intros s w Hw Hlen.
  destruct (indexOf LF (stdoutBuffer w)) as [idx|] eqn:Hi;
    [|exists 1%nat, s; simpl; by rewrite Hw, Hi].
  apply indexOf_lt in Hi as Hlt.
  set (s1 := upd_worker i (set_stdoutBuffer (drop (S idx) (stdoutBuffer w))) s).
  assert (workers s1 !! i =
            Some (set_stdoutBuffer (drop (S idx) (stdoutBuffer w)) w)) as Hw1.
  { unfold s1. rewrite workers_upd_worker, list_lookup_alter_eq, Hw. done. }
  destruct (trim (take idx (stdoutBuffer w))) as [|c l] eqn:Ht.
  - destruct (IH (length (drop (S idx) (stdoutBuffer w)))
                ltac:(rewrite length_drop; lia) s1 _ Hw1 eq_refl)
      as (n & s' & H).
    exists (S n), s'. simpl. by rewrite Hw, Hi, Ht.
  - destruct (handleResultLine_total parse i (c :: l) s1) as (n1 & s2 & H1).
    pose proof H1 as Hk.
    apply keeps_handleResultLine in Hk; [|apply keeps_onWorkerFree].
    destruct Hk as (_ & _ & _ & _ & _ & _ & _ & _ & _ & _ & Hws & _).
    destruct (Hws _ _ Hw1) as (w2 & Hw2 & _ & _ & Hb & _). simpl in Hb.
    destruct (IH (length (drop (S idx) (stdoutBuffer w)))
                ltac:(rewrite length_drop; lia) s2 w2 Hw2 ltac:(by rewrite Hb))
      as (n2 & s' & H2).
    exists (S (n1 `max` n2)%nat), s'. simpl. rewrite Hw, Hi, Ht.
    apply bind_Some. exists s2. split.
    + eapply handleResultLine_le; [|done]. intros a b.
      apply onWorkerFree_le. lia.
    + eapply stdout_while_le; [|done]. lia.
Qed.

Lemma step_total parse e s : ∃ n s', step parse n e s = Some s'.
Proof.
  destruct e as [payload rnd|i data|i data|i msg|i code|id|dt|i st];
    unfold step; try (by exists 0%nat; eauto).
  - apply pump_total.
  - destruct (has_proc i s); [|by exists 0%nat; eauto]. apply stdout_while_total.
  - destruct (has_proc i s); by exists 0%nat; eauto.
  - destruct (has_proc i s); [|by exists 0%nat; eauto].
    destruct (failCurrent_total i (js "Worker error: " ++ msg)
                (log (ProcessError msg) s)) as (n & s' & H).
    exists n. rewrite H. simpl. eauto.
  - destruct (has_proc i s); [|by exists 0%nat; eauto].
    destruct (failCurrent_total i
                (js "Worker exited (code=" ++ show_code code ++ js ")")
                (log (ProcessClosed code) s)) as (n & s' & H).
    exists n. rewrite H. simpl. eauto.
  - destruct (timers s !! id) as [[d cb]|]; [|by exists 0%nat; eauto].
    destruct (d <=? now s); [|by exists 0%nat; eauto].
    destruct cb as [i ms|i ttl|i]; unfold fire; try (by exists 0%nat; eauto).
    + apply failCurrent_total.
    + destruct (workers (clearTimeout id s) !! i) as [w|];
        [|by exists 0%nat; eauto].
      destruct (busy w); by exists 0%nat; eauto.
  - destruct (0 <=? dt); by exists 0%nat; eauto.
Qed.

Lemma run_total parse es s : ∃ n s', run parse n es s = Some s'.
Proof.
  revert s. induction es as [|e es IH]; intros s; [by exists 0%nat, s|].
  destruct (step_total parse e s) as (n1 & s1 & H1).
  destruct (IH s1) as (n2 & s' & H2).
  exists (n1 `max` n2)%nat, s'. simpl. apply bind_Some. exists s1. split.
  - eapply step_le; [|done]. lia.
  - eapply run_le; [|done]. lia.
Qed.

(** ** Scaled-down workers stay as they are *)

Lemma keeps_move_cases s s' :
  move s s' →
  keeps s s'
  ∨ (∃ dt, s' = set_now (now s + dt) s)
  ∨ (∃ i st, s' = upd_worker i
                     (λ w, match proc w with
                           | Some p => set_proc (Some {| pid := pid p; stdin := st |}) w
                           | None => w
                           end) s)
  ∨ (∃ t, s' = set_next_handle (S (next_handle s)) (set_queue (queue s ++ [t]) s))
  ∨ (∃ i b, s' = upd_worker i (set_stdoutBuffer b) s)
  ∨ (∃ i, s' = respawn i s)
  ∨ (∃ id, s' = clearTimeout id s)
  ∨ (∃ id i l, s' = kill i (log l (clearTimeout id s)))
  ∨ (∃ id i l, s' = kill i (upd_worker i (set_shouldRespawn false)
                             (log l (clearTimeout id s))))
  ∨ (∃ id d i, timers s !! id = Some (d, Respawn i)
               ∧ s' = spawn i (clearTimeout id s)).
Proof.
  destruct 1.
  - left. apply keeps_log.
  - right; left. eauto.
  - right; right; left. eauto.
  - do 3 right; left. eauto.
  - left. eapply keeps_trans; [by eapply keeps_set_queue|apply keeps_assign_state].
  - left. apply keeps_scale_up.
  - left. apply keeps_scheduleScaleDown.
  - do 4 right; left. eauto.
  - left. eapply keeps_handleResultLine; [|done]. intros a b [= <-]. apply keeps_refl.
  - left. apply keeps_failCurrent_state.
  - do 5 right; left. eauto.
  - do 6 right; left. eauto.
  - do 7 right; left. eauto.
  - do 8 right; left. eauto.
  - do 9 right. eauto.
Qed.

Lemma workers_kill i s : workers (kill i s) = workers s.
Proof. unfold kill. by repeat case_match. Qed.

Lemma timers_kill i s : timers (kill i s) = timers s.
Proof. unfold kill. by repeat case_match. Qed.

Lemma workers_respawn i s :
  workers (respawn i s)
  = alter (λ w, set_stdoutBuffer [] (set_busy false (set_proc None w))) i
          (workers s).
Proof. unfold respawn. by repeat case_match. Qed.

Lemma timers_respawn i s id d j :
  timers (respawn i s) !! id = Some (d, Respawn j) →
  timers s !! id = Some (d, Respawn j)
  ∨ (j = i ∧ ∃ w, workers s !! i = Some w ∧ shouldRespawn w = true).
Proof.
  unfold respawn. simpl. rewrite list_lookup_alter_eq.
  destruct (workers s !! i) as [w|] eqn:Hw; simpl; [|eauto].
  destruct (shouldRespawn w) eqn:Hr; simpl; [|eauto].
  destruct (decide (next_timer s = id)) as [->|].
  - rewrite lookup_insert_eq. intros [= <- <-]. right. eauto.
  - rewrite lookup_insert_ne by done. eauto.
Qed.

(** The number of workers never goes down. *)
Lemma move_length s s' :
  move s s' → (length (workers s) ≤ length (workers s'))%nat.
Proof.
  intros H. destruct (keeps_move_cases _ _ H)
    as [Hk|[(dt & ->)|[(i & st & ->)|[(t & ->)|[(i & b & ->)|[(i & ->)|
        [(id & ->)|[(id & i & l & ->)|[(id & i & l & ->)|(id & d & i & _ & ->)]]]]]]]]];
    rewrite ?workers_kill, ?workers_respawn; simpl; rewrite ?length_alter;
    try done.
  by destruct Hk as (_ & _ & _ & _ & _ & _ & _ & _ & _ & Hl & _).
Qed.

Lemma retired_move p i s s' : move s s' → retired p i s → retired p i s'.
Proof.
  intros H (w & Hw & Hr & Hq & Hp).
  destruct (keeps_move_cases _ _ H)
    as [Hk|[(dt & ->)|[(j & st & ->)|[(t & ->)|[(j & b & ->)|[(j & ->)|
        [(id & ->)|[(id & j & l & ->)|[(id & j & l & ->)|(id & d & j & Ht & ->)]]]]]]]]].
  - destruct Hk as (_ & _ & _ & _ & _ & _ & _ & _ & _ & _ & Hws & Hts).
    destruct (Hws _ _ Hw) as (w' & Hw' & P1 & P2 & _ & P4).
    exists w'. split_and!; [done|congruence| |].
    + intros id d Hid. by eapply Hq, Hts.
    + rewrite P1. destruct (proc w); [done|]. by apply P4.
  - by exists w.
  - unfold retired. simpl. worker_tac j i; rewrite Hw; simpl;
      [|exists w; split_and!; [done|done|exact Hq|done]].
    destruct (proc w) as [q|] eqn:Hpw; eexists;
      (split_and!; [done| | exact Hq |]); simpl; rewrite ?Hpw; done.
  - by exists w.
  - unfold retired. simpl. worker_tac j i; rewrite Hw; simpl; by eexists.
  - unfold retired. rewrite workers_respawn. worker_tac j i; rewrite Hw; simpl.
    + eexists; split_and!; [done|done| |done].
      intros id d Hid. apply timers_respawn in Hid as [Hid|(_ & w0 & ? & ?)];
        [by eapply Hq|]. simplify_eq. congruence.
    + eexists; split_and!; [done|done| |done].
      intros id d Hid. apply timers_respawn in Hid as [Hid|(? & _)];
        [by eapply Hq|done].
  - exists w. split_and!; try done. intros id0 d Hid. simpl in Hid.
    apply lookup_delete_Some in Hid as [_ Hid]. by eapply Hq.
  - unfold retired. rewrite workers_kill. simpl. exists w.
    split_and!; try done. intros id0 d Hid. rewrite timers_kill in Hid.
    simpl in Hid. apply lookup_delete_Some in Hid as [_ Hid]. by eapply Hq.
  - unfold retired. rewrite workers_kill. simpl.
    assert (quiet i (kill j (upd_worker j (set_shouldRespawn false)
                               (log l (clearTimeout id s))))) as Hq'.
    { intros id0 d Hid. rewrite timers_kill in Hid.
      simpl in Hid. apply lookup_delete_Some in Hid as [_ Hid]. by eapply Hq. }
    worker_tac j i; rewrite Hw; simpl; by eexists.
  - destruct (decide (j = i)) as [->|Hne]; [by destruct (Hq id d)|].
    unfold retired. simpl. rewrite list_lookup_alter_ne by done.
    exists w. split_and!; try done. intros id0 d0 Hid. simpl in Hid.
    apply lookup_delete_Some in Hid as [_ Hid]. by eapply Hq.
Qed.

Lemma dead_iff_retired i s : dead i s ↔ retired 0 i s ∧ retired 1 i s.
Proof.
  split.
  - intros (w & Hw & Hr & Hq & Hp & Hb). split; exists w; by rewrite Hp.
  - intros [(w & Hw & Hr & Hq & Hp) (w' & Hw' & _ & _ & Hp')]. simplify_eq.
    exists w. destruct (proc w); [congruence|done].
Qed.

Lemma dead_move i s s' : move s s' → dead i s → dead i s'.
Proof.
  rewrite !dead_iff_retired. intros H [H0 H1]. eauto using retired_move.
Qed.

Lemma run_retired parse n es p i s s' :
  run parse n es s = Some s' → retired p i s → retired p i s'.
Proof. apply run_preserves. apply retired_move. Qed.

Lemma run_dead parse n es i s s' :
  run parse n es s = Some s' → dead i s → dead i s'.
Proof. apply run_preserves. apply dead_move. Qed.

Lemma run_length parse n es s s' :
  run parse n es s = Some s' → (length (workers s) ≤ length (workers s'))%nat.
Proof.
  intros H. apply run_moves in H. induction H as [|s1 s2 s3 H1 _ IH]; [done|].
  apply move_length in H1. lia.
Qed.

(** The idle timer of a worker that is not busy fires. *)
Lemma step_idle_fires parse n s id d i ttl w :
  timers s !! id = Some (d, IdleScaleDown i ttl) → d ≤ now s →
  workers s !! i = Some w → busy w = false →
  step parse n (TimerFires id) s
  = Some (kill i (upd_worker i (set_shouldRespawn false)
                    (log (IdleKill ttl) (clearTimeout id s)))).
Proof.
  intros Ht Hd Hw Hb. unfold step. rewrite Ht.
  rewrite (proj2 (Z.leb_le d (now s))) by done.
  unfold fire. simpl. by rewrite Hw, Hb.
Qed.

Lemma idle_fire_state s id i l w p :
  workers s !! i = Some w → proc w = Some p → quiet i s →
  let s1 := kill i (upd_worker i (set_shouldRespawn false)
                      (log l (clearTimeout id s))) in
  signals s1 = signals s ++ [pid p]
  ∧ workers s1 = alter (set_shouldRespawn false) i (workers s)
  ∧ workers s1 !! i = Some (set_shouldRespawn false w)
  ∧ retired (pid p) i s1.
Proof.
  intros Hw Hp Hq. simpl.
  assert (workers (upd_worker i (set_shouldRespawn false)
                     (log l (clearTimeout id s))) !! i
          = Some (set_shouldRespawn false w)) as Hw1.
  { simpl. by rewrite list_lookup_alter_eq, Hw. }
  unfold kill. rewrite Hw1. simpl. rewrite Hp. simpl.
  split_and!; try done.
  exists (set_shouldRespawn false w). simpl.
  rewrite list_lookup_alter_eq, Hw, Hp. split_and!; try done.
  intros id0 d0 Hid. simpl in Hid.
  apply lookup_delete_Some in Hid as [_ Hid]. by eapply Hq.
Qed.

(** The process of a retired worker exits: the worker is dead. *)
Lemma close_retired_dead parse n i code p s s' :
  retired p i s → has_proc i s = true →
  step parse n (ProcClose i code) s = Some s' → dead i s'.
Proof.
  intros Hr Hp H.
  assert (retired p i s') as (w' & Hw' & Hr' & Hq' & Hp').
  { eapply moves_preserve; [apply retired_move|by eapply step_moves|done]. }
  unfold step in H. rewrite Hp in H.
  apply bind_Some in H as (s1 & H1 & [= <-]).
  rewrite workers_respawn in Hw'.
  rewrite list_lookup_alter_eq in Hw'.
  destruct (workers s1 !! i) as [w1|] eqn:Hw1; simplify_eq/=.
  eexists. rewrite workers_respawn, list_lookup_alter_eq, Hw1.
  split_and!; done.
Qed.

Lemma quietb_quiet i s : quietb i s = true → quiet i s.
Proof.
  unfold quietb, quiet. rewrite forallb_forall. intros H id d Hid.
  apply elem_of_map_to_list, list_elem_of_In in Hid.
  specialize (H _ Hid). simpl in H. by rewrite Nat.eqb_refl in H.
Qed.

(** C1 (counterexample). Two workers for a minimum of one; the idle
    timer of the second fires at its deadline: the process receives
    SIGKILL and the respawn flag goes off, and the pool still has two
    workers, also once the process has exited. *)
Lemma C1_pool_size_is_unchanged :
  minPool second_worker_idle = 1
  ∧ length (workers second_worker_idle) = 2%nat
  ∧ timers second_worker_idle !! 2%nat = Some (300, IdleScaleDown 1 300)
  ∧ (λ s, (length (workers s), signals s))
      <$> run sample_parse 5 [Tick 300; TimerFires 2] second_worker_idle
    = Some (2%nat, [1%nat])
  ∧ (λ s, (length (workers s), proc <$> workers s !! 1%nat))
      <$> run sample_parse 5 [Tick 300; TimerFires 2; ProcClose 1 None]
              second_worker_idle
    = Some (2%nat, Some None).
Proof. split_and!; vm_compute; reflexivity. Qed.

(** C1 (amended). The idle timer of a worker that is not busy and holds
    a process fires, no respawn being pending for that worker: the
    respawn flag of the worker is turned off and its process receives
    one SIGKILL; the worker stays in the list, so the number of workers
    is unchanged, and it never goes down afterwards; whatever happens
    next, the worker holds that same process or none, so that no process
    is started for it again; and once the process has exited the worker
    holds no process for ever. *)
Theorem C1_idle_timer_retires_the_worker parse s id d i ttl w p :
  timers s !! id = Some (d, IdleScaleDown i ttl) → d ≤ now s →
  workers s !! i = Some w → busy w = false → proc w = Some p →
  quiet i s →
  ∃ s1,
    (∀ n, step parse n (TimerFires id) s = Some s1)
    ∧ signals s1 = signals s ++ [pid p]
    ∧ workers s1 !! i = Some (set_shouldRespawn false w)
    ∧ length (workers s1) = length (workers s)
    ∧ (∀ n es s2, run parse n es s1 = Some s2 →
         (length (workers s) ≤ length (workers s2))%nat
         ∧ ∃ w2, workers s2 !! i = Some w2 ∧ shouldRespawn w2 = false
                 ∧ (proc w2 = None ∨ ∃ q, proc w2 = Some q ∧ pid q = pid p))
    ∧ (∀ n code s2, step parse n (ProcClose i code) s1 = Some s2 →
         ∀ m es s3, run parse m es s2 = Some s3 →
           ∃ w3, workers s3 !! i = Some w3 ∧ proc w3 = None
                 ∧ shouldRespawn w3 = false).
Proof.
  intros Ht Hd Hw Hb Hp Hq.
  destruct (idle_fire_state s id i (IdleKill ttl) w p Hw Hp Hq)
    as (Hsig & Hws & Hwi & Hret).
  eexists. split_and!.
  - intros n. by eapply step_idle_fires.
  - done.
  - done.
  - by rewrite Hws, length_alter.
  - intros n es s2 Hrun. split.
    + apply run_length in Hrun. rewrite Hws, length_alter in Hrun. done.
    + eapply run_retired in Hrun as (w2 & Hw2 & Hr2 & _ & Hp2); [|done].
      exists w2. split_and!; try done.
      destruct (proc w2) as [q|]; eauto.
  - intros n code s2 Hclose m es s3 Hrun.
    eapply close_retired_dead in Hclose; [|done|].
    + eapply run_dead in Hrun as (w3 & ? & ? & _ & ? & _); [|done]. eauto.
    + unfold has_proc. rewrite Hwi. simpl. by rewrite Hp.
Qed.

Lemma C1_witness :
  ∃ s1,
    step sample_parse 0 (TimerFires 2) (after [Tick 300] second_worker_idle)
    = Some s1
    ∧ signals s1 = [1%nat]
    ∧ length (workers s1) = 2%nat.
Proof.
  destruct (C1_idle_timer_retires_the_worker sample_parse
              (after [Tick 300] second_worker_idle) 2 300 1 300
              {| proc := Some {| pid := 1; stdin := StdinOpen |}; busy := false;
                 stdoutBuffer := []; currentTask := None;
                 currentTimeout := None; idleTimer := Some 2%nat;
                 shouldRespawn := true |}
              {| pid := 1; stdin := StdinOpen |})
    as (s1 & H1 & H2 & _ & H4 & _);
    [reflexivity|vm_compute; discriminate|reflexivity|reflexivity|reflexivity
    |apply quietb_quiet; reflexivity|].
  exists s1. split_and!; [apply H1|exact H2|exact H4].
Defined.

(** ** The scan of [pump] reaches a dead worker *)

Lemma pump_for_skip n k i s :
  (k ≤ i)%nat → queue s ≠ [] →
  (∀ j, (k ≤ j < i)%nat → ∃ w, workers s !! j = Some w ∧ busy w = true) →
  pump_for (n + (i - k)) k s = pump_for n i s.
Proof.
  intros Hle Hq. remember (i - k)%nat as d eqn:Hd. revert k Hle Hd.
  induction d as [|d IH]; intros k Hle Hd Hbusy.
  - replace k with i by lia. by rewrite Nat.add_0_r.
  - destruct (Hbusy k ltac:(lia)) as (w & Hw & Hb).
    replace (n + S d)%nat with (S (n + d)) by lia. simpl.
    rewrite Hw, Hb. destruct (queue s); [done|].
    apply IH; [lia|lia|]. intros j Hj. apply Hbusy. lia.
Qed.

Lemma assign_not_ready free i task ms s w :
  workers s !! i = Some w → proc w = None →
  assign free i task ms s
  = Some (resolve task (failure (js "Worker not ready")) s).
Proof. intros Hw Hp. unfold assign. by rewrite Hw, Hp. Qed.

Lemma keeps_settled s s' : keeps s s' → ∃ more, settled s' = settled s ++ more.
Proof. by intros (_ & _ & _ & _ & _ & _ & _ & _ & H & _). Qed.

(** A pass of [pump] on a queue whose head meets a dead worker, the
    workers before it being busy. *)
Lemma pump_dead i s task rest :
  dead i s → queue s = task :: rest →
  (∀ j, (j < i)%nat → ∃ w, workers s !! j = Some w ∧ busy w = true) →
  ∃ n s', pump n s = Some s'
          ∧ ∃ more, settled s' = settled s
                      ++ (handle task, failure (js "Worker not ready")) :: more.
Proof.
  intros (w & Hw & _ & _ & Hp & Hb) Hq Hbusy.
  set (s1 := resolve task (failure (js "Worker not ready")) (set_queue rest s)).
  destruct (pump_for_total (S i) s1) as (n1 & s2 & H2).
  exists (S (S n1 + (i - 0))), (scale_up s2). split.
  - change (pump (S (S n1 + (i - 0))) s)
      with (s1 ← pump_for (S n1 + (i - 0)) 0 s; Some (scale_up s1)).
    rewrite pump_for_skip; [|lia|by rewrite Hq|intros j Hj; apply Hbusy; lia].
    simpl. rewrite Hw, Hq, Hb.
    rewrite (assign_not_ready _ _ _ _ _ w) by done. simpl.
    fold s1. by rewrite H2.
  - apply keeps_pump_for, keeps_settled in H2 as [more H2].
    destruct (keeps_settled _ _ (keeps_scale_up s2)) as [more' H3].
    exists (more ++ more'). rewrite H3, H2. unfold s1. simpl.
    by rewrite <- !app_assoc.
Qed.

(** C10. The idle timer of a worker fires and kills its process, and the
    process exits: the worker stays in the list of the pool, which never
    gets shorter, without process, with its respawn flag off and not
    busy, whatever happens next. When the workers before it are busy, a
    pass of [pump] hands it the task at the head of the queue, and
    [assign] resolves that task at once as a failure with the error
    [Worker not ready]; so does a submission on an empty queue, whatever
    the number of workers allowed. *)
Theorem C10_dead_worker_fails_new_tasks parse :
  (∀ s id d i ttl w p n0 n es s1 s2 m code s3,
     timers s !! id = Some (d, IdleScaleDown i ttl) → d ≤ now s →
     workers s !! i = Some w → busy w = false → proc w = Some p →
     quiet i s →
     step parse n0 (TimerFires id) s = Some s1 →
     run parse n es s1 = Some s2 → has_proc i s2 = true →
     step parse m (ProcClose i code) s2 = Some s3 →
     dead i s3 ∧ (length (workers s) ≤ length (workers s3))%nat)
  ∧ (∀ s i, dead i s →
       (∀ n es s',
          run parse n es s = Some s' →
          dead i s' ∧ (length (workers s) ≤ length (workers s'))%nat)
       ∧ (∀ task rest,
            queue s = task :: rest →
            (∀ j, (j < i)%nat → ∃ w, workers s !! j = Some w ∧ busy w = true) →
            ∃ n s', pump n s = Some s'
              ∧ ∃ more, settled s' = settled s
                  ++ (handle task, failure (js "Worker not ready")) :: more)
       ∧ (∀ payload rnd,
            queue s = [] →
            (∀ j, (j < i)%nat → ∃ w, workers s !! j = Some w ∧ busy w = true) →
            ∃ n s', step parse n (Submit payload rnd) s = Some s'
              ∧ ∃ more, settled s' = settled s
                  ++ (next_handle s, failure (js "Worker not ready")) :: more)).
Proof.
  split.
  - intros s id d i ttl w p n0 n es s1 s2 m code s3 Ht Hd Hw Hb Hp Hq H1 H2 Hhas H3.
    rewrite (step_idle_fires parse n0 s id d i ttl w Ht Hd Hw Hb) in H1.
    destruct (idle_fire_state s id i (IdleKill ttl) w p Hw Hp Hq)
      as (_ & Hws & _ & Hret).
    simplify_eq. split.
    + eapply close_retired_dead; [|done|done]. by eapply run_retired.
    + apply run_length in H2. rewrite Hws, length_alter in H2.
      apply step_moves in H3.
      assert (length (workers s2) ≤ length (workers s3))%nat; [|lia].
      clear -H3. induction H3 as [|a b c Hm _ IH]; [done|].
      apply move_length in Hm. lia.
  - intros s i Hdead. split_and!.
    + intros n es s' Hrun. split; [by eapply run_dead|by eapply run_length].
    + intros task rest Hq Hbusy. by eapply pump_dead.
    + intros payload rnd Hq Hbusy. unfold step, processInterpretation.
      rewrite Hq. simpl.
      match goal with |- ∃ n s', pump n ?s0 = _ ∧ _ => set (s1 := s0) end.
      destruct (pump_dead i s1
                  {| handle := next_handle s;
                     rid := js_of_Z (now s) ++ js "_" ++ rnd;
                     interpretation := payload; __start := None |} [])
        as (n & s' & H & more & Hs); [|done|done|by eauto].
      destruct Hdead as (w & Hw & Hr & Hqt & Hp & Hb). by exists w.
Qed.

Lemma C10_witness :
  dead 1 second_worker_dead
  ∧ length (workers second_worker_dead) = 2%nat
  ∧ maxPool second_worker_dead = 3
  ∧ ∃ n s',
      step sample_parse n (Submit JNull (js "c")) second_worker_dead = Some s'
      ∧ ∃ more, settled s' = settled second_worker_dead
                  ++ (2%nat, failure (js "Worker not ready")) :: more.
Proof.
  destruct (C10_dead_worker_fails_new_tasks sample_parse) as [A B].
  assert (dead 1 second_worker_dead) as Hdead.
  { apply (A (after [Tick 300] second_worker_idle) 2%nat 300 1%nat 300
             {| proc := Some {| pid := 1; stdin := StdinOpen |}; busy := false;
                stdoutBuffer := []; currentTask := None;
                currentTimeout := None; idleTimer := Some 2%nat;
                shouldRespawn := true |}
             {| pid := 1; stdin := StdinOpen |} 1%nat 1%nat []
             (after [Tick 300; TimerFires 2] second_worker_idle)
             (after [Tick 300; TimerFires 2] second_worker_idle)
             5%nat None second_worker_dead);
      try (vm_compute; reflexivity).
    - vm_compute. discriminate.
    - apply quietb_quiet. vm_compute; reflexivity. }
  split_and!; [exact Hdead|vm_compute; reflexivity|vm_compute; reflexivity|].
  destruct (B second_worker_dead 1%nat Hdead) as (_ & _ & C).
  assert (next_handle second_worker_dead = 2%nat) as E
    by (vm_compute; reflexivity).
  rewrite <- E.
  apply (C JNull (js "c")); [vm_compute; reflexivity|].
  intros j Hj. destruct j as [|j]; [|lia].
  eexists; split; vm_compute; reflexivity.
Defined.

(** ** The timeout of a task *)

Lemma assign_open free i task ms s w p :
  workers s !! i = Some w → proc w = Some p → stdin p = StdinOpen →
  ∃ s', assign free i task ms s = Some s'
    ∧ timers s' !! next_timer s = Some (now s + timer_delay ms, TaskTimeout i ms)
    ∧ (∃ w', workers s' !! i = Some w' ∧ busy w' = true
             ∧ currentTimeout w' = Some (next_timer s)
             ∧ (handle <$> currentTask w') = Some (handle task)
             ∧ (currentTask w' ≫= __start) = Some (now s))
    ∧ settled s' = settled s ∧ signals s' = signals s.
Proof.
  intros Hw Hp Hs. unfold assign. rewrite Hw.
  destruct w as [pr b buf ct cto it sr]. simpl in Hp. subst pr.
  destruct p as [pd st]. simpl in Hs. subst st. simpl.
  destruct it as [it|]; simpl; eexists; (split; [reflexivity|]); simpl;
    rewrite !list_lookup_alter_eq, Hw; simpl;
    (split_and!; [apply lookup_insert_eq| eexists; split_and!; done|done|done]).
Qed.

Lemma failCurrent_state_task s i e w task :
  workers s !! i = Some w → currentTask w = Some task →
  settled (failCurrent_state i e s) = settled s ++ [(handle task, failure e)]
  ∧ signals (failCurrent_state i e s) = signals s
  ∧ ∃ w', workers (failCurrent_state i e s) !! i = Some w'
          ∧ proc w' = proc w ∧ shouldRespawn w' = shouldRespawn w
          ∧ busy w' = false ∧ currentTask w' = None
          ∧ currentTimeout w' = None.
Proof.
  intros Hw Ht. unfold failCurrent_state, failCurrent. rewrite Hw, Ht.
  destruct (currentTimeout w) eqn:Hc; simpl;
    rewrite !list_lookup_alter_eq, Hw; simpl;
    (split_and!; [done|done|eexists; split_and!; done]).
Qed.

Lemma failCurrent_calls_true i s w :
  workers s !! i = Some w → failCurrent_calls i s = true.
Proof. intros Hw. unfold failCurrent_calls. rewrite Hw. by apply bool_decide_eq_true_2. Qed.

Lemma kill_spec i s w p :
  workers s !! i = Some w → proc w = Some p →
  kill i s = set_signals (signals s ++ [pid p]) s.
Proof.
  intros Hw Hp. unfold kill. rewrite Hw. destruct w. simpl in *. by subst.
Qed.

(** The timer of a task fires. *)
Lemma timeout_fires parse s id d i ms w task p :
  timers s !! id = Some (d, TaskTimeout i ms) → d ≤ now s →
  workers s !! i = Some w → currentTask w = Some task → proc w = Some p →
  ∃ n s1,
    step parse n (TimerFires id) s = Some s1
    ∧ signals s1 = signals s ++ [pid p]
    ∧ (∃ more, settled s1 = settled s
                 ++ (handle task, failure (js "Task timeout")) :: more)
    ∧ (∃ w1, workers s1 !! i = Some w1 ∧ proc w1 = Some p
             ∧ shouldRespawn w1 = shouldRespawn w)
    ∧ now s1 = now s.
Proof.
  intros Ht Hd Hw Hc Hp.
  set (s0 := kill i (log (TimeoutKill ms) (clearTimeout id s))).
  assert (workers s0 = workers s) as Hws0 by (unfold s0; by rewrite workers_kill).
  assert (signals s0 = signals s ++ [pid p]) as Hsig0.
  { unfold s0. by rewrite (kill_spec i _ w p). }
  assert (settled s0 = settled s ∧ now s0 = now s) as [Hset0 Hnow0].
  { unfold s0. by rewrite (kill_spec i _ w p). }
  rewrite <- Hws0 in Hw.
  destruct (failCurrent_state_task s0 i (js "Task timeout") w task Hw Hc)
    as (Hset & Hsig & w' & Hw' & Hp' & Hr' & _).
  destruct (onWorkerFree_total (failCurrent_state i (js "Task timeout") s0))
    as (n & s1 & H1).
  exists n, s1.
  pose proof (keeps_onWorkerFree _ _ _ H1)
    as (_ & _ & _ & _ & Hnow & _ & Hsig1 & _ & [more Hmore] & _ & Hws & _).
  destruct (Hws _ _ Hw') as (w1 & Hw1 & P1 & P2 & _).
  split_and!.
  - unfold step. rewrite Ht. rewrite (proj2 (Z.leb_le d (now s))) by done.
    unfold fire. fold s0. rewrite failCurrent_unfold.
    by rewrite (failCurrent_calls_true i s0 w).
  - congruence.
  - exists more. rewrite Hmore, Hset, Hset0. by rewrite <- app_assoc.
  - exists w1. split_and!; congruence.
  - rewrite Hnow. pose proof (keeps_failCurrent_state i (js "Task timeout") s0)
      as (_ & _ & _ & _ & Hn & _). congruence.
Qed.

Lemma has_proc_true i s w p :
  workers s !! i = Some w → proc w = Some p → has_proc i s = true.
Proof.
  intros Hw Hp. unfold has_proc. rewrite Hw. destruct w. simpl in *. by subst.
Qed.

(** The process of a worker whose respawn flag is on exits. *)
Lemma close_respawns parse s i code w p :
  workers s !! i = Some w → proc w = Some p → shouldRespawn w = true →
  ∃ n s2 rid,
    step parse n (ProcClose i code) s = Some s2
    ∧ signals s2 = signals s
    ∧ (∃ w2, workers s2 !! i = Some w2 ∧ proc w2 = None ∧ busy w2 = false)
    ∧ timers s2 !! rid = Some (now s + 500, Respawn i)
    ∧ now s2 = now s
    ∧ ∀ m,
        run parse m [Tick 500; TimerFires rid] s2
        = Some (spawn i (clearTimeout rid (set_now (now s2 + 500) s2)))
        ∧ ∃ w3, workers (spawn i (clearTimeout rid (set_now (now s2 + 500) s2)))
                  !! i = Some w3
                ∧ proc w3 = Some {| pid := next_pid s2; stdin := StdinOpen |}.
Proof.
  intros Hw Hp Hr.
  destruct (failCurrent_total i
              (js "Worker exited (code=" ++ show_code code ++ js ")")
              (log (ProcessClosed code) s)) as (n & s1 & H1).
  pose proof H1 as Hk. apply keeps_failCurrent in Hk; [|apply keeps_onWorkerFree].
  destruct Hk as (_ & _ & _ & _ & Hnow & _ & Hsig & _ & _ & _ & Hws & _).
  destruct (Hws i w Hw) as (w1 & Hw1 & P1 & P2 & _).
  assert (workers (respawn i s1) !! i
          = Some (set_stdoutBuffer [] (set_busy false (set_proc None w1)))) as Hw2
    by (by rewrite workers_respawn, list_lookup_alter_eq, Hw1).
  assert (timers (respawn i s1) !! next_timer s1 = Some (now s + 500, Respawn i))
    as Ht2.
  { unfold respawn. simpl. rewrite list_lookup_alter_eq, Hw1. simpl.
    rewrite P2, Hr. simpl. rewrite lookup_insert_eq. simpl in Hnow.
    by rewrite Hnow. }
  assert (now (respawn i s1) = now s) as Hnow2.
  { unfold respawn. by repeat case_match. }
  exists n, (respawn i s1), (next_timer s1). split_and!.
  - unfold step. rewrite (has_proc_true i s w p) by done. by rewrite H1.
  - unfold respawn. by repeat case_match.
  - eexists. split_and!; [exact Hw2|done|done].
  - done.
  - done.
  - intros m. split.
    + simpl. rewrite Ht2, Hnow2. simpl.
      by rewrite (proj2 (Z.leb_le (now s + 500) (now s + 500))) by lia.
    + unfold spawn. simpl. rewrite list_lookup_alter_eq, Hw2. simpl. eauto.
Qed.

(** The timeout of a task whose worker still holds it and its process.
    [assign] on a ready worker arms a timer that runs for the timeout
    from the time of the assignment. When that timer fires while the
    worker holds a task, a process and its respawn flag, the process
    receives one SIGKILL, and no other signal is sent; the task is
    resolved as a failure with the error [Task timeout] and execution
    time 0. When the process then exits, the crash path runs: no further
    signal, the worker drops the process and arms a respawn of 500 ms,
    and that respawn starts a new process for the worker. *)
Lemma timeout_kills_and_respawns parse :
  (∀ free i task ms s w p,
     workers s !! i = Some w → proc w = Some p → stdin p = StdinOpen →
     ∃ s', assign free i task ms s = Some s'
       ∧ timers s' !! next_timer s
         = Some (now s + timer_delay ms, TaskTimeout i ms)
       ∧ ∃ w', workers s' !! i = Some w'
               ∧ currentTimeout w' = Some (next_timer s)
               ∧ (handle <$> currentTask w') = Some (handle task))
  ∧ (∀ s id d i ms w task p,
       timers s !! id = Some (d, TaskTimeout i ms) → d ≤ now s →
       workers s !! i = Some w → currentTask w = Some task →
       proc w = Some p → shouldRespawn w = true →
       ∃ n s1,
         step parse n (TimerFires id) s = Some s1
         ∧ signals s1 = signals s ++ [pid p]
         ∧ (∃ more, settled s1 = settled s
                      ++ (handle task, failure (js "Task timeout")) :: more)
         ∧ ∀ code, ∃ n2 s2 rid,
             step parse n2 (ProcClose i code) s1 = Some s2
             ∧ signals s2 = signals s1
             ∧ (∃ w2, workers s2 !! i = Some w2 ∧ proc w2 = None)
             ∧ timers s2 !! rid = Some (now s + 500, Respawn i)
             ∧ ∀ m, ∃ s3,
                 run parse m [Tick 500; TimerFires rid] s2 = Some s3
                 ∧ ∃ w3, workers s3 !! i = Some w3
                         ∧ proc w3 = Some {| pid := next_pid s2;
                                             stdin := StdinOpen |}).
Proof.
  split.
  - intros free i task ms s w p Hw Hp Hs.
    destruct (assign_open free i task ms s w p Hw Hp Hs)
      as (s' & H1 & H2 & (w' & Hw' & _ & Ht & Hh & _) & _).
    exists s'. split_and!; [done|done|]. exists w'. done.
  - intros s id d i ms w task p Ht Hd Hw Hc Hp Hr.
    destruct (timeout_fires parse s id d i ms w task p Ht Hd Hw Hc Hp)
      as (n & s1 & H1 & Hsig & Hset & (w1 & Hw1 & Hp1 & Hr1) & Hnow).
    exists n, s1. split_and!; [done|done|done|].
    intros code.
    destruct (close_respawns parse s1 i code w1 p Hw1 Hp1 ltac:(congruence))
      as (n2 & s2 & rid & H2 & Hsig2 & (w2 & Hw2 & Hp2 & _) & Ht2 & _ & Hrun).
    exists n2, s2, rid. split_and!; [done|done|by exists w2|congruence|].
    intros m. destruct (Hrun m) as [Hm Hw3]. eexists. split; [exact Hm|done].
Qed.

Lemma timeout_example :
  ∃ n s1,
    step sample_parse n (TimerFires 0)
      (after [Submit JNull (js "a"); Tick 100] (new_pool 1 1 100 300))
    = Some s1
    ∧ signals s1 = [0%nat]
    ∧ ∃ more, settled s1 = (0%nat, failure (js "Task timeout")) :: more.
Proof.
  destruct (timeout_kills_and_respawns sample_parse) as [_ B].
  destruct (B (after [Submit JNull (js "a"); Tick 100] (new_pool 1 1 100 300))
              0%nat 100 0%nat 100
              {| proc := Some {| pid := 0; stdin := StdinOpen |}; busy := true;
                 stdoutBuffer := [];
                 currentTask := Some {| handle := 0; rid := js "0_a";
                                        interpretation := JNull;
                                        __start := Some 0 |};
                 currentTimeout := Some 0%nat; idleTimer := None;
                 shouldRespawn := true |}
              {| handle := 0; rid := js "0_a"; interpretation := JNull;
                 __start := Some 0 |}
              {| pid := 0; stdin := StdinOpen |})
    as (n & s1 & H1 & H2 & H3 & _);
    [vm_compute; reflexivity|vm_compute; discriminate|vm_compute; reflexivity
    |reflexivity|reflexivity|reflexivity|].
  exists n, s1. split_and!; [exact H1|exact H2|exact H3].
Defined.

(** ** The promises *)

Lemma current_handles_alter f k ws w :
  ws !! k = Some w →
  (current_handles (alter f k ws) ++ option_list (handle <$> currentTask w))
  ≡ₚ (current_handles ws ++ option_list (handle <$> currentTask (f w))).
Proof.
  revert k. induction ws as [|x ws IH]; intros k Hk; [done|].
  destruct k as [|k]; simpl in *.
  - simplify_eq.
    destruct (currentTask w) as [t|], (currentTask (f w)) as [t'|]; simpl;
      rewrite ?app_nil_r; try done.
    + rewrite (Permutation_app_comm _ [handle t]),
        (Permutation_app_comm _ [handle t']). simpl. apply perm_swap.
    + by rewrite Permutation_app_comm.
    + by rewrite Permutation_app_comm.
  - specialize (IH k Hk).
    destruct (currentTask x) as [t|]; simpl; [|done]. by rewrite IH.
Qed.

Lemma current_handles_alter_same f k ws :
  (∀ w, currentTask (f w) = currentTask w) →
  current_handles (alter f k ws) = current_handles ws.
Proof.
  intros Hf. revert k. induction ws as [|x ws IH]; intros k; [done|].
  destruct k as [|k]; simpl.
  - by rewrite Hf.
  - specialize (IH k). unfold alter in IH. by rewrite IH.
Qed.

Lemma current_handles_app ws ws' :
  current_handles (ws ++ ws') = current_handles ws ++ current_handles ws'.
Proof.
  induction ws as [|x ws IH]; simpl; [done|].
  destruct (currentTask x); simpl; by rewrite IH.
Qed.

Lemma flows_refl s : flows s s.
Proof.
  split; [exists []; by rewrite app_nil_r|].
  left. split; [done|]. exists []. by rewrite !app_nil_r.
Qed.

(** A state change that leaves the queue, the tasks of the workers, the
    resolutions and the promise counter alone. *)
Lemma flows_same s s' :
  queue s' = queue s → current_handles (workers s') = current_handles (workers s) →
  settled s' = settled s → next_handle s' = next_handle s → flows s s'.
Proof.
  intros Hq Hc Hs Hn. unfold flows, held, resolved. rewrite Hq, Hc, Hs, Hn.
  split; [exists []; by rewrite app_nil_r|].
  left. split; [done|]. exists []. by rewrite !app_nil_r.
Qed.

Lemma flows_each_once s s' : flows s s' → each_once s → each_once s'.
Proof.
  intros [_ [[Hn [dropped Hp]]|[Hn Hp]]] [Hnd Hlt]; split.
  - rewrite Hp in Hnd. rewrite app_assoc in Hnd.
    by apply NoDup_app in Hnd as [? _].
  - intros h Hh. rewrite Hn. apply Hlt. rewrite Hp.
    rewrite (app_assoc (held s')). apply elem_of_app. by left.
  - rewrite Hp. apply NoDup_cons. split; [|done].
    intros Hin. apply Hlt in Hin. lia.
  - intros h Hh. rewrite Hp in Hh. rewrite Hn.
    apply elem_of_cons in Hh as [->|Hh]; [lia|]. apply Hlt in Hh. lia.
Qed.

Lemma flows_lost h s s' : flows s s' → lost h s → lost h s'.
Proof.
  intros [[more Hmore] Hf] (Hh & Hheld & Hres).
  assert (h ∉ held s ++ resolved s) as Hnot
    by (rewrite elem_of_app; tauto).
  destruct Hf as [[Hn [dropped Hp]]|[Hn Hp]].
  - assert (h ∉ held s' ++ resolved s') as Hnot'.
    { intros Hin. apply Hnot. rewrite Hp, (app_assoc (held s')).
      apply elem_of_app. by left. }
    rewrite elem_of_app in Hnot'. split_and!; [lia|tauto|tauto].
  - assert (h ∉ held s' ++ resolved s') as Hnot'.
    { rewrite Hp. intros Hin. apply elem_of_cons in Hin as [->|Hin]; [lia|done]. }
    rewrite elem_of_app in Hnot'. split_and!; [lia|tauto|tauto].
Qed.

Lemma count_current_alter f k ws w h :
  ws !! k = Some w →
  (count_occ Nat.eq_dec (current_handles (alter f k ws)) h
   + count_occ Nat.eq_dec (option_list (handle <$> currentTask w)) h
   = count_occ Nat.eq_dec (current_handles ws) h
     + count_occ Nat.eq_dec (option_list (handle <$> currentTask (f w))) h)%nat.
Proof.
  intros Hk. rewrite <- !count_occ_app.
  by apply Permutation_count_occ, current_handles_alter.
Qed.

Lemma count_le_dropped (l l' : list nat) :
  (∀ h, count_occ Nat.eq_dec l' h ≤ count_occ Nat.eq_dec l h)%nat →
  ∃ dropped, l ≡ₚ l' ++ dropped.
Proof.
  revert l. induction l' as [|x l' IH]; intros l Hle.
  - by exists l.
  - assert (x ∈ l) as Hin.
    { apply list_elem_of_In, (count_occ_In Nat.eq_dec).
      specialize (Hle x). rewrite count_occ_cons_eq in Hle by done. lia. }
    apply list_elem_of_split in Hin as (l1 & l2 & ->).
    destruct (IH (l1 ++ l2)) as [dropped Hd].
    { intros h. specialize (Hle h). rewrite !count_occ_app in *. simpl in *.
      destruct (Nat.eq_dec x h); lia. }
    exists dropped. rewrite <- Permutation_middle. simpl. by rewrite Hd.
Qed.

(** The shape of the changes that close or replace the task of a worker:
    the queue loses [taken] at its head, worker [i] gets the task [new]
    for the task [old], and [done] is added to the resolutions. *)
Lemma flows_shape s s' i w f taken new old done :
  next_handle s' = next_handle s →
  queue s = taken ++ queue s' →
  workers s !! i = Some w → workers s' = alter f i (workers s) →
  handle <$> currentTask w = old → handle <$> currentTask (f w) = new →
  resolved s' = resolved s ++ done →
  (∀ h, count_occ Nat.eq_dec (option_list new) h
        + count_occ Nat.eq_dec done h
        ≤ count_occ Nat.eq_dec (handle <$> taken) h
          + count_occ Nat.eq_dec (option_list old) h)%nat →
  flows s s'.
Proof.
  intros Hn Hq Hw Hws Hold Hnew Hres Hcount.
  split; [by exists done|]. left. split; [done|].
  destruct (count_le_dropped (held s ++ resolved s) (held s' ++ resolved s'))
    as [dropped Hd].
  { intros h. unfold held. rewrite Hres, Hws, Hq, fmap_app, !count_occ_app.
    pose proof (count_current_alter f i (workers s) w h Hw) as Hc.
    rewrite Hold, Hnew in Hc. specialize (Hcount h). lia. }
  exists dropped. by rewrite app_assoc.
Qed.

Lemma flows_not_ready s task rest o :
  queue s = task :: rest →
  flows s (resolve task o (set_queue rest s)).
Proof.
  intros Hq. split; [exists [handle task]; unfold resolved; simpl;
                     by rewrite fmap_app|].
  left. split; [done|]. exists []. unfold held, resolved. simpl.
  rewrite Hq. apply (Permutation_count_occ Nat.eq_dec). intros h.
  rewrite ?fmap_app, ?count_occ_app. simpl.
  rewrite ?count_occ_app. simpl. unfold fmap.
  destruct (Nat.eq_dec (handle task) h); lia.
Qed.

Ltac count_tac :=
  let h := fresh "h" in
  intros h; simpl; unfold fmap; repeat (destruct (Nat.eq_dec _ h)); simpl; lia.

Lemma flows_assign_state s k w task rest :
  workers s !! k = Some w → queue s = task :: rest →
  flows s (assign_state k task (taskTimeoutMs s) (set_queue rest s)).
Proof.
  intros Hw Hq. unfold assign_state, assign. simpl. rewrite Hw.
  destruct w as [[[p [| |m]]|] b buf ct cto it sr]; simpl.
  - by apply flows_not_ready.
  - destruct it as [it|]; simpl;
      (eapply (flows_shape _ _ k _ _ [task] (Some (handle task))
                 (handle <$> ct) []);
       [reflexivity|simpl; by rewrite Hq|exact Hw
       |simpl; rewrite ?list_alter_alter_eq; reflexivity
       |reflexivity|reflexivity|by rewrite app_nil_r|count_tac]).
  - unfold failCurrent. destruct it as [it|]; simpl;
      rewrite !list_lookup_alter_eq, Hw; simpl;
      (eapply (flows_shape _ _ k _ _ [task] None (handle <$> ct) [handle task]);
       [reflexivity|simpl; by rewrite Hq|exact Hw
       |simpl; rewrite ?list_alter_alter_eq; reflexivity
       |reflexivity|reflexivity
       |unfold resolved; simpl; by rewrite fmap_app|count_tac]).
  - by apply flows_not_ready.
Qed.

Lemma flows_failCurrent_state s i e : flows s (failCurrent_state i e s).
Proof.
  unfold failCurrent_state, failCurrent.
  destruct (workers s !! i) as [w|] eqn:Hw; [|apply flows_refl].
  destruct (currentTimeout w), (currentTask w) as [t|] eqn:Hc; simpl.
  - eapply (flows_shape _ _ i _ _ [] None (Some (handle t)) [handle t]);
      [reflexivity|done|exact Hw
      |simpl; rewrite ?list_alter_alter_eq; reflexivity
      |by rewrite Hc|reflexivity
      |unfold resolved; simpl; by rewrite fmap_app|count_tac].
  - eapply (flows_shape _ _ i _ _ [] None None []);
      [reflexivity|done|exact Hw
      |simpl; rewrite ?list_alter_alter_eq; reflexivity
      |by rewrite Hc|reflexivity
      |by rewrite app_nil_r|count_tac].
  - eapply (flows_shape _ _ i _ _ [] None (Some (handle t)) [handle t]);
      [reflexivity|done|exact Hw
      |simpl; rewrite ?list_alter_alter_eq; reflexivity
      |by rewrite Hc|reflexivity
      |unfold resolved; simpl; by rewrite fmap_app|count_tac].
  - eapply (flows_shape _ _ i _ _ [] None None []);
      [reflexivity|done|exact Hw
      |simpl; rewrite ?list_alter_alter_eq; reflexivity
      |by rewrite Hc|reflexivity
      |by rewrite app_nil_r|count_tac].
Qed.

Lemma flows_handleResultLine parse i line s s' :
  handleResultLine parse Some i line s = Some s' → flows s s'.
Proof.
  unfold handleResultLine.
  destruct (match trim line with [] => true | first :: _ => _ end);
    [intros [= <-]; by apply flows_same|].
  destruct (parse (trim line)) as [parsed|];
    [|intros [= <-]; by apply flows_same].
  destruct (workers s !! i) as [w|] eqn:Hw; [|intros [= <-]; apply flows_refl].
  destruct (currentTask w) as [t|] eqn:Hc;
    [|intros [= <-]; by apply flows_same].
  intros [= <-].
  destruct (currentTimeout w); simpl;
    (eapply (flows_shape _ _ i _ _ [] None (Some (handle t)) [handle t]);
      [reflexivity|done|exact Hw
      |simpl; rewrite ?list_alter_alter_eq; reflexivity
      |by rewrite Hc|reflexivity
      |unfold resolved; simpl; by rewrite fmap_app|count_tac]).
Qed.

Lemma flows_upd_worker i f s :
  (∀ w, currentTask (f w) = currentTask w) → flows s (upd_worker i f s).
Proof.
  intros Hf. apply flows_same; try done. simpl.
  by apply current_handles_alter_same.
Qed.

(** Every state change creates a promise, resolves one that is held, drops
    one, or leaves the promises alone. *)
Lemma move_flows s s' : move s s' → flows s s'.
Proof.
  destruct 1.
  - by apply flows_same.
  - by apply flows_same.
  - apply flows_upd_worker. intros w. by destruct (proc w).
  - split; [exists []; by rewrite app_nil_r|]. right. split; [done|].
    unfold held, resolved. simpl.
    apply (Permutation_count_occ Nat.eq_dec). intros h.
    rewrite ?fmap_app, ?count_occ_app. simpl. rewrite ?count_occ_app. simpl.
    unfold fmap. destruct (Nat.eq_dec (next_handle s) h); lia.
  - by eapply flows_assign_state.
  - unfold scale_up. destruct (must_scale_up s); [|apply flows_refl].
    apply flows_same; try done. unfold push_worker, spawn. simpl.
    rewrite current_handles_alter_same by done.
    rewrite current_handles_app. simpl. by rewrite app_nil_r.
  - unfold scheduleScaleDown. destruct (_ <=? _); [apply flows_refl|].
    rewrite H. destruct (idleTimer w); simpl; apply flows_same; try done;
      simpl; by apply current_handles_alter_same.
  - by apply flows_upd_worker.
  - by eapply flows_handleResultLine.
  - apply flows_failCurrent_state.
  - apply flows_same; unfold respawn; repeat case_match; try done;
      rewrite ?workers_respawn; simpl; by apply current_handles_alter_same.
  - by apply flows_same.
  - apply flows_same; unfold kill; repeat case_match; done.
  - apply flows_same; unfold kill; repeat case_match; try done; simpl;
      by apply current_handles_alter_same.
  - apply flows_same; try done. simpl. by apply current_handles_alter_same.
Qed.

Lemma each_once_move s s' : move s s' → each_once s → each_once s'.
Proof. intros H. by apply flows_each_once, move_flows. Qed.

Lemma lost_move h s s' : move s s' → lost h s → lost h s'.
Proof. intros H. by apply flows_lost, move_flows. Qed.

Lemma each_once_new_pool min max timeout ttl :
  each_once (new_pool min max timeout ttl).
Proof.
  unfold new_pool. induction (Z.to_nat min) as [|n IH]; simpl.
  - split; [apply NoDup_nil_2|]. intros h Hh. by apply elem_of_nil in Hh.
  - eapply flows_each_once; [|exact IH]. apply flows_same; try done.
    unfold push_worker, spawn. simpl.
    rewrite current_handles_alter_same by done.
    rewrite current_handles_app. simpl. by rewrite app_nil_r.
Qed.

(** No promise is resolved twice, whatever the events. *)
Lemma resolved_at_most_once parse n es min max timeout ttl s :
  run parse n es (new_pool min max timeout ttl) = Some s →
  NoDup (resolved s).
Proof.
  intros H.
  eapply (run_preserves each_once) in H;
    [|apply each_once_move|apply each_once_new_pool].
  destruct H as [H _]. by apply NoDup_app in H as (_ & _ & ?).
Qed.

(** A method resolves the task it has just detached: the task [assign]
    fails was taken off the queue, and the task [failCurrent] or
    [handleResultLine] closes is no longer the task of the worker. *)
Lemma resolution_detaches s s' h :
  move s s' → each_once s → h ∉ resolved s → h ∈ resolved s' → h ∉ held s'.
Proof.
  intros Hm Ho Hn Hin Hheld.
  apply each_once_move in Hm; [|done]. destruct Hm as [Hnd _].
  apply NoDup_app in Hnd as (_ & Hdisj & _). by apply (Hdisj h).
Qed.

(** C6 (the code departs from the claim). One worker, a running task and
    a queued one; the process exits: [failCurrent] calls the pool back,
    [pump] assigns the queued task to the worker, whose process object is
    still in place, and [respawn] then marks the worker idle. After the
    respawn a third submission is assigned to the same worker and replaces
    the second task. The promise of the second task, number 1, is then
    held by no task and is not resolved, and no list of events resolves
    it any more. That no promise is resolved twice does hold
    ([resolved_at_most_once]). *)
Theorem C6_promise_of_replaced_task_is_never_resolved :
  run sample_parse 10 crash_then_submit (new_pool 1 1 1000 300)
  = Some replaced_task
  ∧ next_handle replaced_task = 3%nat
  ∧ resolved replaced_task = [0%nat] ∧ held replaced_task = [2%nat]
  ∧ ∀ parse n es s', run parse n es replaced_task = Some s' →
      1%nat ∉ resolved s'.
Proof.
  assert (held replaced_task = [2%nat]) as Eh by (vm_compute; reflexivity).
  assert (resolved replaced_task = [0%nat]) as Er by (vm_compute; reflexivity).
  assert (next_handle replaced_task = 3%nat) as En by (vm_compute; reflexivity).
  split_and!; [vm_compute; reflexivity|exact En|exact Er|exact Eh|].
  intros parse n es s' Hrun.
  eapply (run_preserves (lost 1)) in Hrun as (_ & _ & H);
    [done|apply lost_move|].
  unfold lost. rewrite Eh, Er, En. split_and!; [lia| |].
  - intros Hin. apply list_elem_of_singleton in Hin. discriminate.
  - intros Hin. apply list_elem_of_singleton in Hin. discriminate.
Qed.

(** C8 (the code departs from the claim). One worker, a running task and
    a queued one; the process exits. The [close] handler calls
    [failCurrent], which calls the pool back; [pump] assigns the queued
    task to the worker, busy again; then [respawn] sets [busy] to false
    and leaves [currentTask] alone. When the handler is done the worker
    holds the second task and is not busy. *)
Theorem C8_crash_with_queued_task_leaves_task_on_idle_worker :
  run sample_parse 10 crash_with_queued_task (new_pool 1 1 1000 300)
  = Some crashed_with_queued_task
  ∧ ∃ w, workers crashed_with_queued_task !! 0%nat = Some w
         ∧ busy w = false
         ∧ (handle <$> currentTask w) = Some 1%nat
         ∧ proc w = None.
Proof.
  split; [vm_compute; reflexivity|].
  eexists. split_and!; vm_compute; reflexivity.
Qed.

(** ** One pass of [pump] *)

Lemma length_assign_state k task ms s :
  length (workers (assign_state k task ms s)) = length (workers s).
Proof.
  unfold assign_state, assign.
  destruct (workers s !! k) as [w|] eqn:Hw; [|done].
  destruct w as [[[p [| |m]]|] b buf ct cto [it|] sr]; simpl;
    try (unfold failCurrent; simpl; rewrite !list_lookup_alter_eq, Hw; simpl;
         destruct ct; simpl);
    by rewrite ?length_alter.
Qed.

Lemma assign_state_other k j task ms s :
  k ≠ j → workers (assign_state k task ms s) !! j = workers s !! j.
Proof.
  intros Hne. unfold assign_state, assign.
  destruct (workers s !! k) as [w|] eqn:Hw; [|done].
  destruct w as [[[p [| |m]]|] b buf ct cto [it|] sr]; simpl;
    try (unfold failCurrent; simpl; rewrite !list_lookup_alter_eq, Hw; simpl;
         destruct ct; simpl);
    by rewrite ?list_lookup_alter_ne.
Qed.

Lemma assign_state_failing k task ms s w p m :
  workers s !! k = Some w → proc w = Some p → stdin p = StdinThrows m →
  ∃ w', workers (assign_state k task ms s) !! k = Some w'
        ∧ busy w' = false ∧ proc w' = Some p.
Proof.
  intros Hw Hp Hs. unfold assign_state, assign. rewrite Hw.
  destruct w as [pr b buf ct cto it sr]. simpl in Hp. subst pr.
  destruct p as [pd st]. simpl in Hs. subst st. simpl.
  unfold failCurrent.
  destruct it as [it|]; simpl; rewrite !list_lookup_alter_eq, Hw; simpl;
    rewrite !list_lookup_alter_eq, Hw; simpl; eauto.
Qed.

Lemma assign_calls_failing k s :
  assign_calls k s = true →
  ∃ w p m, workers s !! k = Some w ∧ proc w = Some p ∧ stdin p = StdinThrows m.
Proof.
  unfold assign_calls. destruct (workers s !! k) as [w|]; [|done].
  destruct w as [[[p [| |m]]|] b buf ct cto it sr]; try done.
  intros _. eexists _, _, _. eauto.
Qed.

Lemma scheduleScaleDown_worker i ttl s j w :
  workers s !! j = Some w →
  ∃ w', workers (scheduleScaleDown i ttl s) !! j = Some w'
        ∧ busy w' = busy w ∧ proc w' = proc w.
Proof.
  intros Hw. unfold scheduleScaleDown. destruct (ttl <=? 0); [eauto|].
  destruct (workers s !! i) as [wi|] eqn:Hwi; [|eauto].
  destruct (idleTimer wi); simpl; worker_tac i j; rewrite Hw; simpl; eauto.
Qed.

Lemma length_scheduleScaleDown i ttl s :
  length (workers (scheduleScaleDown i ttl s)) = length (workers s).
Proof.
  unfold scheduleScaleDown. destruct (ttl <=? 0); [done|].
  destruct (workers s !! i) as [wi|]; [|done].
  destruct (idleTimer wi); simpl; by rewrite length_alter.
Qed.

Lemma arm_idle_worker s :
  length (workers (arm_idle s)) = length (workers s)
  ∧ ∀ j w, workers s !! j = Some w →
      ∃ w', workers (arm_idle s) !! j = Some w'
            ∧ busy w' = busy w ∧ proc w' = proc w.
Proof.
  unfold arm_idle. destruct (0 <? _); [|eauto].
  generalize (seq 0 (length (workers s))). intros l.
  revert s. induction l as [|i l IH]; intros s; simpl; [eauto|].
  match goal with |- context [foldl _ ?s0 l] => set (s1 := s0) end.
  assert (length (workers s1) = length (workers s)
          ∧ ∀ j w, workers s !! j = Some w →
              ∃ w', workers s1 !! j = Some w'
                    ∧ busy w' = busy w ∧ proc w' = proc w) as [Hl1 Hw1].
  { unfold s1. destruct (workers s !! i) as [wi|]; [|eauto].
    destruct (_ && _); [|eauto].
    split; [apply length_scheduleScaleDown|].
    intros j w Hw. by apply scheduleScaleDown_worker. }
  destruct (IH s1) as [Hl2 Hw2]. split; [congruence|].
  intros j w Hw. destruct (Hw1 j w Hw) as (w1 & Hj1 & B1 & P1).
  destruct (Hw2 j w1 Hj1) as (w2 & Hj2 & B2 & P2).
  exists w2. split_and!; congruence.
Qed.

Lemma forallb_busy_false ws j w :
  ws !! j = Some w → busy w = false → forallb busy ws = false.
Proof.
  intros Hw Hb. apply not_true_is_false. intros Hall.
  rewrite forallb_forall in Hall.
  apply list_elem_of_lookup_2, list_elem_of_In in Hw.
  specialize (Hall _ Hw). congruence.
Qed.

(** While some idle worker fails its writes, a dispatch creates no
    worker, and an idle worker that fails its writes remains. *)
Lemma failing_dispatch n :
  (∀ k s s', pump_for n k s = Some s' →
     idle_and_failing s →
     idle_and_failing s' ∧ length (workers s') = length (workers s))
  ∧ (∀ s s', pump n s = Some s' →
       idle_and_failing s →
       idle_and_failing s' ∧ length (workers s') = length (workers s))
  ∧ (∀ s s', onWorkerFree n s = Some s' →
       idle_and_failing s →
       idle_and_failing s' ∧ length (workers s') = length (workers s)).
Proof.
  apply (dispatch_ind
           (λ s s', idle_and_failing s →
                    idle_and_failing s'
                    ∧ length (workers s') = length (workers s))).
  - done.
  - intros s1 s2 s3 H12 H23 H1. destruct (H12 H1) as [H2 L2].
    destruct (H23 H2) as [H3 L3]. split; [done|congruence].
  - intros s k w task rest Hw Hb Hq (j & wj & p & m & Hj & Hbj & Hp & Hs).
    split; [|by rewrite length_assign_state].
    destruct (decide (k = j)) as [->|Hne].
    + destruct (assign_state_failing j task (taskTimeoutMs s) (set_queue rest s)
                  wj p m Hj Hp Hs) as (w' & Hw' & Hb' & Hp').
      exists j, w', p, m. done.
    + exists j, wj, p, m. by rewrite assign_state_other.
  - intros s (j & wj & p & m & Hj & Hbj & Hp & Hs).
    unfold scale_up, must_scale_up. rewrite (forallb_busy_false _ j wj) by done.
    rewrite andb_false_r. simpl. split; [|done]. by exists j, wj, p, m.
  - intros s (j & wj & p & m & Hj & Hbj & Hp & Hs).
    destruct (arm_idle_worker s) as [Hl Hws].
    destruct (Hws j wj Hj) as (w' & Hw' & Hb' & Hp').
    split; [|done]. exists j, w', p, m. split_and!; congruence.
Qed.

(** The scan of [pump] creates no worker. *)
Lemma pump_for_length n k s s' :
  pump_for n k s = Some s' → length (workers s') = length (workers s).
Proof.
  revert k s. induction n as [|n IH]; intros k s H; [discriminate|].
  simpl in H. destruct (workers s !! k) as [w|] eqn:Hw; [|by simplify_eq].
  destruct (queue s) as [|task rest] eqn:Hq; [by simplify_eq|].
  destruct (busy w) eqn:Hb; [by eapply IH|].
  apply bind_Some in H as (s1 & H1 & H2).
  apply IH in H2. rewrite H2. clear H2.
  rewrite assign_unfold in H1.
  destruct (assign_calls k (set_queue rest s)) eqn:Hc.
  - apply assign_calls_failing in Hc as (wk & p & m & Hwk & Hp & Hs).
    destruct (assign_state_failing k task (taskTimeoutMs s) (set_queue rest s)
                wk p m Hwk Hp Hs) as (w' & Hw' & Hb' & Hp').
    destruct (failing_dispatch n) as (_ & _ & Hfree).
    destruct (Hfree _ _ H1) as [_ Hl].
    { exists k, w', p, m. done. }
    by rewrite Hl, length_assign_state.
  - simplify_eq. by rewrite length_assign_state.
Qed.

Lemma scale_up_spec s :
  scale_up s = if must_scale_up s
               then push_worker
                      (log (ScalingUp (length (workers s) + 1) (maxPool s)) s)
               else s.
Proof. reflexivity. Qed.

Lemma pump_workers n s s' :
  pump n s = Some s' →
  ∃ s1, pump_for (pred n) 0 s = Some s1 ∧ s' = scale_up s1
        ∧ length (workers s1) = length (workers s)
        ∧ maxPool s1 = maxPool s
        ∧ length (workers s') = (if must_scale_up s1
                                 then S (length (workers s))
                                 else length (workers s)).
Proof.
  destruct n as [|n]; [discriminate|]. simpl. intros H.
  apply bind_Some in H as (s1 & H1 & [= <-]).
  exists s1. pose proof (pump_for_length _ _ _ _ H1) as Hl.
  pose proof (keeps_pump_for _ _ _ _ H1) as (_ & Hmax & _).
  split_and!; try done.
  rewrite scale_up_spec. destruct (must_scale_up s1); [|done].
  rewrite length_push_worker. simpl. by rewrite Hl.
Qed.

(** C2. One pass of [pump]. The scan takes the workers in the order of
    the list: it ends at the end of the list or when the queue is empty,
    skips a busy worker, and for a worker that is not busy takes the task
    at the head of the queue off the queue and assigns it to that worker.
    The pass always ends. After the scan, which creates no worker and
    takes tasks from the head of the queue only, one worker is added
    exactly when the queue is not empty, every worker is busy and there
    are fewer workers than [maxPool]; otherwise the state is the one the
    scan left. So a pass adds at most one worker, and none beyond
    [maxPool]. *)
Theorem C2_pump_pass s :
  (∀ n k, workers s !! k = None → pump_for (S n) k s = Some s)
  ∧ (∀ n k, queue s = [] → pump_for (S n) k s = Some s)
  ∧ (∀ n k w task rest,
       workers s !! k = Some w → queue s = task :: rest → busy w = true →
       pump_for (S n) k s = pump_for n (S k) s)
  ∧ (∀ n k w task rest,
       workers s !! k = Some w → queue s = task :: rest → busy w = false →
       pump_for (S n) k s
       = assign (onWorkerFree n) k task (taskTimeoutMs s) (set_queue rest s)
           ≫= pump_for n (S k))
  ∧ (∃ n s', pump n s = Some s')
  ∧ (∀ n s', pump n s = Some s' →
       ∃ s1, pump_for (pred n) 0 s = Some s1
         ∧ length (workers s1) = length (workers s)
         ∧ (∃ taken, queue s = taken ++ queue s1)
         ∧ (must_scale_up s1 = true →
              s' = push_worker
                     (log (ScalingUp (length (workers s1) + 1) (maxPool s1)) s1)
              ∧ length (workers s') = S (length (workers s))
              ∧ queue s' = queue s1)
         ∧ (must_scale_up s1 = false → s' = s1)
         ∧ (length (workers s) ≤ length (workers s') ≤ S (length (workers s)))%nat
         ∧ (Z.of_nat (length (workers s)) ≤ maxPool s →
            Z.of_nat (length (workers s')) ≤ maxPool s)).
Proof.
  split_and!.
  - intros n k Hk. simpl. by rewrite Hk.
  - intros n k Hq. simpl. rewrite Hq. by destruct (workers s !! k).
  - intros n k w task rest Hw Hq Hb. simpl. by rewrite Hw, Hq, Hb.
  - intros n k w task rest Hw Hq Hb. simpl. by rewrite Hw, Hq, Hb.
  - apply pump_total.
  - intros n s' H.
    destruct (pump_workers n s s' H) as (s1 & H1 & -> & Hl & Hmax & Hl').
    exists s1. pose proof (keeps_pump_for _ _ _ _ H1)
      as (_ & _ & _ & _ & _ & _ & _ & Hq & _).
    split_and!; try done.
    + intros Hm. rewrite scale_up_spec, Hm in *. split_and!; done.
    + intros Hm. by rewrite scale_up_spec, Hm.
    + rewrite Hl'. destruct (must_scale_up s1); lia.
    + rewrite Hl'. destruct (must_scale_up s1); lia.
    + intros Hle. rewrite Hl'. destruct (must_scale_up s1) eqn:Hm; [|done].
      unfold must_scale_up in Hm. apply andb_prop in Hm as [_ Hm].
      apply Z.ltb_lt in Hm. rewrite Hl, Hmax in Hm. lia.
Qed.

Lemma C2_witness :
  ∃ s', pump 3 one_busy_one_queued = Some s'
    ∧ length (workers s') = 2%nat
    ∧ Z.of_nat (length (workers s')) ≤ maxPool one_busy_one_queued
    ∧ (handle <$> queue s') = [1%nat].
Proof.
  pose proof (C2_pump_pass one_busy_one_queued) as (_ & _ & _ & _ & _ & H).
  destruct (H 3%nat (default one_busy_one_queued (pump 3 one_busy_one_queued)))
    as (s1 & H1 & _ & _ & Hup & _ & _ & Hmax);
    [vm_compute; reflexivity|].
  eexists. split; [vm_compute; reflexivity|].
  split_and!.
  - vm_compute; reflexivity.
  - apply Hmax. vm_compute. discriminate.
  - vm_compute; reflexivity.
Defined.

(** C4 (the code departs from the claim). The second task was assigned
    at time 0, inside the [close] handler, with a timeout of 1000 ms, and
    replaced at time 500 by a third task on the same worker. No result
    arrives. At time 1000 the timer of the second task fires: the process
    started by the respawn receives SIGKILL and [failCurrent] fails the
    task the worker holds, the third one, with [Task timeout], 500 ms
    after its assignment. The second task is not resolved as a failure,
    then or later. With the task still on its worker and the process in
    place the claim holds ([timeout_kills_and_respawns]). *)
Theorem C4_timer_of_replaced_task_fails_another_task :
  timers replaced_task !! 1%nat = Some (1000, TaskTimeout 0 1000)
  ∧ (∃ w t, workers replaced_task !! 0%nat = Some w
            ∧ currentTask w = Some t ∧ handle t = 2%nat
            ∧ __start t = Some 500)
  ∧ run sample_parse 10 [Tick 500; TimerFires 1] replaced_task
    = Some replaced_task_timer_fired
  ∧ signals replaced_task_timer_fired = [1%nat]
  ∧ settled replaced_task_timer_fired
    = [(0%nat, failure (js "Worker exited (code=null)"));
       (2%nat, failure (js "Task timeout"))]
  ∧ ∀ parse n es s', run parse n es replaced_task_timer_fired = Some s' →
      1%nat ∉ resolved s'.
Proof.
  assert (held replaced_task_timer_fired = []) as Eh
    by (vm_compute; reflexivity).
  assert (resolved replaced_task_timer_fired = [0%nat; 2%nat]) as Er
    by (vm_compute; reflexivity).
  assert (next_handle replaced_task_timer_fired = 3%nat) as En
    by (vm_compute; reflexivity).
  split_and!.
  - vm_compute; reflexivity.
  - eexists _, _. split_and!; vm_compute; reflexivity.
  - vm_compute; reflexivity.
  - vm_compute; reflexivity.
  - vm_compute; reflexivity.
  - intros parse n es s' Hrun.
    eapply (run_preserves (lost 1)) in Hrun as (_ & _ & H);
      [done|apply lost_move|].
    unfold lost. rewrite Eh, Er, En. split_and!; [lia| |].
    + apply not_elem_of_nil.
    + intros Hin. apply elem_of_cons in Hin as [?|Hin]; [discriminate|].
      apply list_elem_of_singleton in Hin. discriminate.
Qed.

(** ** Where the invariant of the worker is kept *)

Lemma tasks_iff_busy_alter s s' i f :
  workers s' = alter f i (workers s) →
  (∀ w, task_iff_busy w → task_iff_busy (f w)) →
  tasks_iff_busy s → tasks_iff_busy s'.
Proof.
  intros Hws Hf Hs j w. rewrite Hws, list_lookup_alter.
  destruct (decide (i = j)) as [->|_]; [|apply Hs].
  destruct (workers s !! j) as [w0|] eqn:Hw0; [|done].
  intros [= <-]. apply Hf. by eapply Hs.
Qed.

Lemma tasks_iff_busy_same s s' :
  workers s' = workers s → tasks_iff_busy s → tasks_iff_busy s'.
Proof. intros Hws Hs j w. rewrite Hws. apply Hs. Qed.

Lemma task_iff_busy_closed w :
  task_iff_busy (set_busy false (set_currentTask None w)).
Proof. split; [by intros [? ?]|done]. Qed.

Lemma tasks_iff_busy_assign_state k task ms s :
  tasks_iff_busy s → tasks_iff_busy (assign_state k task ms s).
Proof.
  unfold assign_state, assign.
  destruct (workers s !! k) as [w|] eqn:Hw; [|done].
  destruct w as [[[p [| |m]]|] b buf ct cto it sr]; simpl;
    try (by apply tasks_iff_busy_same).
  - destruct it as [it|]; simpl;
      (eapply tasks_iff_busy_alter;
       [simpl; rewrite ?list_alter_alter_eq; reflexivity|]);
      intros w _; split; simpl; eauto.
  - unfold failCurrent.
    destruct it as [it|]; simpl; rewrite !list_lookup_alter_eq, Hw; simpl;
      (eapply tasks_iff_busy_alter;
       [simpl; rewrite ?list_alter_alter_eq; reflexivity|]);
      intros w _; (split; simpl; [by intros [? ?]|done]).
Qed.

Lemma tasks_iff_busy_failCurrent_state i e s :
  tasks_iff_busy s → tasks_iff_busy (failCurrent_state i e s).
Proof.
  unfold failCurrent_state, failCurrent.
  destruct (workers s !! i) as [w|] eqn:Hw; [|done].
  destruct (currentTimeout w), (currentTask w); simpl;
    (eapply tasks_iff_busy_alter;
     [simpl; rewrite ?list_alter_alter_eq; reflexivity|]);
    intros w0 _; (split; simpl; [by intros [? ?]|done]).
Qed.

Lemma tasks_iff_busy_handleResultLine parse i line s s' :
  handleResultLine parse Some i line s = Some s' →
  tasks_iff_busy s → tasks_iff_busy s'.
Proof.
  unfold handleResultLine.
  destruct (match trim line with [] => true | first :: _ => _ end);
    [by intros [= <-]|].
  destruct (parse (trim line)) as [parsed|]; [|by intros [= <-]].
  destruct (workers s !! i) as [w|] eqn:Hw; [|by intros [= <-]].
  destruct (currentTask w) as [t|]; [|by intros [= <-]].
  intros [= <-].
  destruct (currentTimeout w); simpl;
    (eapply tasks_iff_busy_alter;
     [simpl; rewrite ?list_alter_alter_eq; reflexivity|]);
    intros w0 _; (split; simpl; [by intros [? ?]|done]).
Qed.

(** Every state change but the one of [respawn] keeps the invariant:
    [assign], [failCurrent] and [handleResultLine] set [busy] and
    [currentTask] together. *)
Lemma tasks_iff_busy_move s s' :
  move s s' → tasks_iff_busy s →
  tasks_iff_busy s' ∨ ∃ i, s' = respawn i s.
Proof.
  destruct 1; intros Hs; try (left; by apply (tasks_iff_busy_same s)).
  - left. eapply tasks_iff_busy_alter; [reflexivity| |done].
    intros w Hw. unfold task_iff_busy in *. by destruct (proc w).
  - left. by apply tasks_iff_busy_assign_state.
  - left. unfold scale_up. destruct (must_scale_up s); [|done].
    intros j w. unfold push_worker, spawn. simpl.
    rewrite list_lookup_alter. intros Hj.
    assert (∃ w0, (workers s ++ [blank_worker]) !! j = Some w0
                  ∧ currentTask w = currentTask w0 ∧ busy w = busy w0)
      as (w0 & Hw0 & Ht & Hb).
    { destruct (decide (_ = j)) as [<-|_]; [|by eauto].
      destruct ((workers s ++ [blank_worker]) !! length (workers s))
        as [w0|]; [|done].
      injection Hj as <-. eauto. }
    unfold task_iff_busy. rewrite Ht, Hb.
    apply lookup_app_Some in Hw0 as [Hw0|[_ Hw0]]; [by apply (Hs j)|].
    apply list_lookup_singleton_Some in Hw0 as [_ <-].
    split; [by intros [? ?]|done].
  - left. unfold scheduleScaleDown. destruct (_ <=? _); [done|].
    rewrite H. destruct (idleTimer w); simpl;
      (eapply tasks_iff_busy_alter; [reflexivity| |done]); by intros w0 Hw0.
  - left. eapply tasks_iff_busy_alter; [reflexivity| |done]. by intros w0 Hw0.
  - left. by eapply tasks_iff_busy_handleResultLine.
  - left. by apply tasks_iff_busy_failCurrent_state.
  - right. eauto.
  - left. apply (tasks_iff_busy_same s); [|done]. by rewrite workers_kill.
  - left. eapply tasks_iff_busy_alter; [by rewrite workers_kill| |exact Hs].
    by intros w0 Hw0.
  - left. eapply tasks_iff_busy_alter; [reflexivity|by intros w0 Hw0|done].
Qed.

(** * Further properties of the pool *)

(** ** Every handler returns *)

(** X1. Every handler returns, whatever the state: [assign] may call
    [failCurrent], which calls [onWorkerFree], which calls [pump], which
    calls [assign] again, and this recursion ends. For every list of
    events there is an amount of fuel from which on the run gives one
    and the same state. *)
Theorem handlers_terminate parse es s :
  ∃ n s', ∀ m, (n ≤ m)%nat → run parse m es s = Some s'.
Proof.
  destruct (run_total parse es s) as (n & s' & H).
  exists n, s'. intros m Hm. by eapply run_le.
Qed.

(** ** The size of the pool *)

Lemma move_maxPool s s' : move s s' → maxPool s' = maxPool s.
Proof.
  intros H. destruct (keeps_move_cases _ _ H)
    as [Hk|[(dt & ->)|[(i & st & ->)|[(t & ->)|[(i & b & ->)|[(i & ->)|
        [(id & ->)|[(id & i & l & ->)|[(id & i & l & ->)|(id & d & i & _ & ->)]]]]]]]]];
    try done.
  - by destruct Hk as (_ & ? & _).
  - unfold respawn. by repeat case_match.
  - unfold kill. by repeat case_match.
  - unfold kill. by repeat case_match.
Qed.

Lemma length_failCurrent_state i e s :
  length (workers (failCurrent_state i e s)) = length (workers s).
Proof.
  unfold failCurrent_state, failCurrent.
  destruct (workers s !! i) as [w|]; [|done].
  destruct (currentTimeout w), (currentTask w); simpl;
    by rewrite ?length_alter.
Qed.

Lemma length_handleResultLine parse i line s s' :
  handleResultLine parse Some i line s = Some s' →
  length (workers s') = length (workers s).
Proof.
  unfold handleResultLine.
  destruct (match trim line with [] => true | first :: _ => _ end);
    [by intros [= <-]|].
  destruct (parse (trim line)) as [parsed|]; [|by intros [= <-]].
  destruct (workers s !! i) as [w|]; [|by intros [= <-]].
  destruct (currentTask w) as [t|]; [|by intros [= <-]].
  intros [= <-]. destruct (currentTimeout w); simpl; by rewrite ?length_alter.
Qed.

(** Only the scale-up of [pump] adds a worker, and only below the
    maximum. *)
Lemma move_grows s s' :
  move s s' →
  length (workers s') = length (workers s)
  ∨ (length (workers s') = S (length (workers s))
     ∧ Z.of_nat (length (workers s)) < maxPool s
     ∧ forallb busy (workers s) = true).
Proof.
  destruct 1; simpl; rewrite ?workers_kill; simpl; rewrite ?length_alter;
    try (by left).
  - left. by rewrite length_assign_state.
  - unfold scale_up. destruct (must_scale_up s) eqn:Hm; [|by left].
    right. rewrite length_push_worker. simpl. split; [done|].
    unfold must_scale_up in Hm. apply andb_true_iff in Hm as [Hm Hlt].
    apply andb_true_iff in Hm as [_ Hall]. split; [lia|done].
  - left. apply length_scheduleScaleDown.
  - left. by eapply length_handleResultLine.
  - left. apply length_failCurrent_state.
  - left. by rewrite workers_respawn, length_alter.
Qed.

(** X2. The list of workers never gets shorter, and it never gets longer
    than the larger of the maximum of the pool and the length it had;
    the maximum itself does not change. *)
Theorem pool_size_is_bounded parse n es s s' :
  run parse n es s = Some s' →
  maxPool s' = maxPool s
  ∧ (length (workers s) ≤ length (workers s'))%nat
  ∧ Z.of_nat (length (workers s'))
    ≤ Z.of_nat (length (workers s)) `max` maxPool s.
Proof.
  intros H. split_and!; [| by eapply run_length |].
  - eapply (run_preserves (λ x, maxPool x = maxPool s)) in H; [done| |done].
    intros s1 s2 Hm <-. by apply move_maxPool.
  - eapply (run_preserves
              (λ x, maxPool x = maxPool s
                    ∧ Z.of_nat (length (workers x))
                      ≤ Z.of_nat (length (workers s)) `max` maxPool s)) in H;
      [by destruct H| |split; [done|lia]].
    intros s1 s2 Hm [Hmax Hlen]. split.
    + rewrite <- Hmax. by apply move_maxPool.
    + destruct (move_grows _ _ Hm) as [->|(-> & Hlt & _)]; lia.
Qed.

Lemma pool_size_is_bounded_witness :
  maxPool second_worker_idle = maxPool (new_pool 1 3 1000 300)
  ∧ (length (workers (new_pool 1 3 1000 300))
     ≤ length (workers second_worker_idle))%nat
  ∧ Z.of_nat (length (workers second_worker_idle))
    ≤ Z.of_nat (length (workers (new_pool 1 3 1000 300)))
      `max` maxPool (new_pool 1 3 1000 300).
Proof.
  apply (pool_size_is_bounded sample_parse 100 scaled_up).
  vm_compute; reflexivity.
Defined.

(** ** Promises *)

(** X3. In a pool started by the constructor no promise is resolved
    twice, whatever the events; no promise is carried by two tasks of the
    pool; and a promise that has been resolved belongs to a submitted
    task that the pool no longer holds. *)
Theorem promises_resolve_at_most_once parse n es min max timeout ttl s :
  run parse n es (new_pool min max timeout ttl) = Some s →
  NoDup (resolved s) ∧ NoDup (held s)
  ∧ ∀ h, h ∈ resolved s → (h < next_handle s)%nat ∧ h ∉ held s.
Proof.
  intros H.
  eapply (run_preserves each_once) in H;
    [|apply each_once_move|apply each_once_new_pool].
  destruct H as [Hnd Hlt].
  apply NoDup_app in Hnd as (Hh & Hdisj & Hr).
  split_and!; [done|done|].
  intros h Hin. split.
  - apply Hlt. apply elem_of_app. by right.
  - intros Hheld. by apply (Hdisj h).
Qed.

Lemma promises_resolve_at_most_once_witness :
  NoDup (resolved replaced_task_timer_fired)
  ∧ NoDup (held replaced_task_timer_fired)
  ∧ ∀ h, h ∈ resolved replaced_task_timer_fired →
      (h < next_handle replaced_task_timer_fired)%nat
      ∧ h ∉ held replaced_task_timer_fired.
Proof.
  apply (promises_resolve_at_most_once sample_parse 100
           (crash_then_submit ++ [Tick 500; TimerFires 1]) 1 1 1000 300).
  vm_compute; reflexivity.
Defined.

(** ** The handlers but for [respawn] *)

Lemma move_change s s' : move s s' → change s s' ∨ ∃ i, s' = respawn i s.
Proof. destruct 1; try (left; by econstructor). right. eauto. Qed.

Lemma change_move s s' : change s s' → move s s'.
Proof. destruct 1; by econstructor. Qed.

Lemma arm_idle_changes s : rtc change s (arm_idle s).
Proof.
  unfold arm_idle. destruct (0 <? _); [|done].
  generalize (seq 0 (length (workers s))). intros l.
  revert s. induction l as [|i l IH]; intros s; [done|].
  simpl. eapply rtc_trans; [|apply IH].
  destruct (workers s !! i) as [w|] eqn:Hw; [|done].
  destruct (busy w) eqn:Hb; simpl; [done|].
  destruct (_ <? _); [|done]. apply rtc_once.
  by eapply ch_schedule.
Qed.

Lemma dispatch_changes n :
  (∀ k s s', pump_for n k s = Some s' → rtc change s s')
  ∧ (∀ s s', pump n s = Some s' → rtc change s s')
  ∧ (∀ s s', onWorkerFree n s = Some s' → rtc change s s').
Proof.
  apply dispatch_ind.
  - done.
  - intros. by eapply rtc_trans.
  - intros s k w task rest Hw Hb Hq. apply rtc_once.
    by eapply ch_assign.
  - intros s. apply rtc_once. by eapply ch_scale_up.
  - apply arm_idle_changes.
Qed.

Lemma onWorkerFree_changes n s s' :
  onWorkerFree n s = Some s' → rtc change s s'.
Proof. apply dispatch_changes. Qed.

Lemma pump_changes n s s' : pump n s = Some s' → rtc change s s'.
Proof. apply dispatch_changes. Qed.

Lemma failCurrent_changes n i e s s' :
  failCurrent (onWorkerFree n) i e s = Some s' → rtc change s s'.
Proof.
  rewrite failCurrent_unfold. destruct (failCurrent_calls i s).
  - intros H. eapply rtc_l; [apply (ch_fail _ i e)|].
    by eapply onWorkerFree_changes.
  - by intros [= <-].
Qed.

Lemma stdout_while_changes parse n i s s' :
  stdout_while parse n i s = Some s' → rtc change s s'.
Proof.
  revert s. induction n as [|n IH]; intros s H; [discriminate|].
  simpl in H. destruct (workers s !! i) as [w|]; [|by simplify_eq].
  destruct (indexOf LF (stdoutBuffer w)) as [idx|]; [|by simplify_eq].
  eapply rtc_l;
    [apply (ch_buffer s i (drop (S idx) (stdoutBuffer w)))|].
  destruct (trim (take idx (stdoutBuffer w))) as [|c l]; [by apply IH|].
  apply bind_Some in H as (s2 & H1 & H2).
  eapply rtc_trans; [|by apply IH].
  destruct (handleResultLine_unfold parse (onWorkerFree n) i (c :: l)
              (upd_worker i (set_stdoutBuffer (drop (S idx) (stdoutBuffer w))) s))
    as (s1 & Hs1 & [Hr|Hr]); rewrite Hr in H1.
  - simplify_eq. apply rtc_once.
    by eapply ch_result.
  - eapply rtc_l; [by eapply ch_result|by eapply onWorkerFree_changes].
Qed.

(** The handler of an event is a sequence of changes, followed by
    [respawn] when the event is the death of a process. *)
Lemma step_changes parse n e s s' :
  step parse n e s = Some s' →
  ∃ s1, rtc change s s1
        ∧ (s' = s1 ∨ (crash e = true ∧ ∃ i, s' = respawn i s1)).
Proof.
  destruct e as [payload rnd|i data|i data|i m|i code|id|dt|i st]; simpl.
  - unfold processInterpretation. intros H. exists s'. split; [|by left].
    eapply rtc_l; [apply ch_enqueue|].
    eapply rtc_l; [apply ch_log|]. by eapply pump_changes.
  - destruct (has_proc i s) eqn:Hp; [|intros [= <-]; by exists s; split; [|left]].
    unfold on_stdout_data. intros H. unfold has_proc in Hp.
    destruct (workers s !! i) as [w|] eqn:Hw; [|done].
    exists s'. split; [|by left].
    eapply rtc_l;
      [apply (ch_buffer s i (stdoutBuffer w ++ Buffer_toString data))|].
    eapply stdout_while_changes.
    replace (upd_worker i (set_stdoutBuffer _) s) with
      (upd_worker i (λ w, set_stdoutBuffer
                            (stdoutBuffer w ++ Buffer_toString data) w) s);
      [done|].
    unfold upd_worker. f_equal. apply list_eq. intros j.
    rewrite !list_lookup_alter. destruct (decide (i = j)) as [->|]; [|done].
    by rewrite Hw.
  - intros H. exists s'. split; [|by left]. revert H.
    destruct (has_proc i s); intros [= <-]; [|done].
    apply rtc_once. apply ch_log.
  - destruct (has_proc i s); [|intros [= <-]; by exists s; split; [|left]].
    intros H. apply bind_Some in H as (s1 & H1 & [= <-]).
    exists s1. split; [|right; eauto].
    eapply rtc_l; [apply ch_log|]. by eapply failCurrent_changes.
  - destruct (has_proc i s); [|intros [= <-]; by exists s; split; [|left]].
    intros H. apply bind_Some in H as (s1 & H1 & [= <-]).
    exists s1. split; [|right; eauto].
    eapply rtc_l; [apply ch_log|]. by eapply failCurrent_changes.
  - intros H. exists s'. split; [|by left]. revert H.
    destruct (timers s !! id) as [[d cb]|] eqn:Ht; [|by intros [= <-]].
    destruct (d <=? now s); [|by intros [= <-]].
    destruct cb as [i ms|i ttl|i]; simpl.
    + intros H. eapply rtc_l; [by eapply ch_fire_timeout|].
      by eapply failCurrent_changes.
    + destruct (workers s !! i) as [w|] eqn:Hw.
      * destruct (busy w) eqn:Hb; intros [= <-]; apply rtc_once.
        -- by eapply ch_clear.
        -- by eapply ch_fire_idle.
      * intros [= <-]. apply rtc_once. by eapply ch_clear.
    + intros [= <-]. apply rtc_once.
      by eapply ch_fire_respawn.
  - intros H. exists s'. split; [|by left]. revert H.
    destruct (0 <=? dt) eqn:Hd; intros [= <-]; [|done].
    apply rtc_once. apply ch_tick. lia.
  - intros [= <-]. eexists. split; [|by left].
    apply rtc_once. apply ch_stdin.
Qed.

(** ** Properties of the workers that the handlers keep *)

Lemma every_worker_alter P s s' i f :
  workers s' = alter f i (workers s) →
  (∀ w, workers s !! i = Some w → P w → P (f w)) →
  every_worker P s → every_worker P s'.
Proof.
  intros Hws Hf Hs j w. rewrite Hws, list_lookup_alter.
  destruct (decide (i = j)) as [->|_]; [|apply Hs].
  destruct (workers s !! j) as [w0|] eqn:Hw0; [|done].
  intros [= <-]. apply Hf; [done|]. by eapply Hs.
Qed.

Lemma every_worker_same P s s' :
  workers s' = workers s → every_worker P s → every_worker P s'.
Proof. intros Hws Hs j w. rewrite Hws. apply Hs. Qed.

Section WorkerInvariant.

Variable P : PersistentWorker → Prop.
Hypothesis P_proc : ∀ w p, P w → P (set_proc p w).
Hypothesis P_idle : ∀ w t, P w → P (set_idleTimer t w).
Hypothesis P_buffer : ∀ w b, P w → P (set_stdoutBuffer b w).
Hypothesis P_flag : ∀ w b, P w → P (set_shouldRespawn b w).
Hypothesis P_blank : P blank_worker.
Hypothesis P_opened : ∀ w task id,
  P w → P (set_currentTimeout (Some id)
             (set_currentTask (Some task) (set_busy true w))).
Hypothesis P_closed : ∀ w,
  P w → P (set_currentTimeout None (set_busy false (set_currentTask None w))).

Lemma P_closed_untimed w :
  currentTimeout w = None → P w → P (set_busy false (set_currentTask None w)).
Proof.
  intros Hto HP. apply P_closed in HP. destruct w. simpl in *. by subst.
Qed.

Lemma ew_failCurrent_state i e s :
  every_worker P s → every_worker P (failCurrent_state i e s).
Proof.
  unfold failCurrent_state, failCurrent.
  destruct (workers s !! i) as [w|] eqn:Hw; [|done].
  destruct (currentTimeout w) eqn:Hto, (currentTask w); simpl;
    (eapply every_worker_alter;
     [simpl; rewrite ?list_alter_alter_eq; reflexivity|]);
    intros w0 Hw0 HP; simplify_eq;
    first [exact (P_closed _ HP) | by apply P_closed_untimed].
Qed.

Lemma ew_assign_state k task ms s :
  every_worker P s → every_worker P (assign_state k task ms s).
Proof.
  unfold assign_state, assign.
  destruct (workers s !! k) as [w|] eqn:Hw; [|done].
  destruct w as [[[p [| |m]]|] b buf ct cto it sr]; simpl;
    try (by apply every_worker_same).
  - destruct it as [it|]; simpl;
      (eapply every_worker_alter;
       [simpl; rewrite ?list_alter_alter_eq; reflexivity|]);
      intros w0 Hw0 HP; simplify_eq.
    + exact (P_opened _ _ _ (P_idle _ None HP)).
    + exact (P_opened _ _ _ HP).
  - unfold failCurrent.
    destruct it as [it|]; simpl; rewrite !list_lookup_alter_eq, Hw; simpl;
      (eapply every_worker_alter;
       [simpl; rewrite ?list_alter_alter_eq; reflexivity|]);
      intros w0 Hw0 HP; simplify_eq.
    + exact (P_closed _ (P_idle _ None HP)).
    + exact (P_closed _ HP).
Qed.

Lemma ew_handleResultLine parse i line s s' :
  handleResultLine parse Some i line s = Some s' →
  every_worker P s → every_worker P s'.
Proof.
  unfold handleResultLine.
  destruct (match trim line with [] => true | first :: _ => _ end);
    [by intros [= <-]|].
  destruct (parse (trim line)) as [parsed|]; [|by intros [= <-]].
  destruct (workers s !! i) as [w|] eqn:Hw; [|by intros [= <-]].
  destruct (currentTask w) as [t|]; [|by intros [= <-]].
  intros [= <-].
  destruct (currentTimeout w) eqn:Hto; simpl;
    (eapply every_worker_alter;
     [simpl; rewrite ?list_alter_alter_eq; reflexivity|]);
    intros w0 Hw0 HP; simplify_eq;
    first [exact (P_closed _ HP) | by apply P_closed_untimed].
Qed.

Lemma ew_push_worker s : every_worker P s → every_worker P (push_worker s).
Proof.
  intros Hs j w. unfold push_worker, spawn. simpl.
  rewrite list_lookup_alter. intros Hj.
  assert (∃ w0, (workers s ++ [blank_worker]) !! j = Some w0
                ∧ (w = w0 ∨ ∃ p, w = set_proc p w0)) as (w0 & Hw0 & Hor).
  { destruct (decide (_ = j)) as [<-|_]; [|by eauto].
    destruct ((workers s ++ [blank_worker]) !! length (workers s))
      as [w0|]; [|done].
    injection Hj as <-. eauto. }
  assert (P w0) as HP.
  { apply lookup_app_Some in Hw0 as [Hw0|[_ Hw0]]; [by apply (Hs j)|].
    by apply list_lookup_singleton_Some in Hw0 as [_ <-]. }
  destruct Hor as [->|[p ->]]; [done|by apply P_proc].
Qed.

Lemma ew_scheduleScaleDown i ttl s :
  every_worker P s → every_worker P (scheduleScaleDown i ttl s).
Proof.
  unfold scheduleScaleDown. destruct (_ <=? _); [done|].
  destruct (workers s !! i) as [w|]; [|done].
  destruct (idleTimer w); simpl;
    (eapply every_worker_alter; [reflexivity|]);
    intros w0 _ HP; by apply P_idle.
Qed.

Lemma ew_change s s' : change s s' → every_worker P s → every_worker P s'.
Proof.
  destruct 1; try (by apply every_worker_same).
  - eapply every_worker_alter; [reflexivity|].
    intros w _ HP. simpl. destruct (proc w); [by apply P_proc|done].
  - intros Hs. by apply ew_assign_state.
  - unfold scale_up. destruct (must_scale_up s); [|done].
    intros Hs. by apply ew_push_worker.
  - apply ew_scheduleScaleDown.
  - eapply every_worker_alter; [reflexivity|]. intros w0 _ HP. by apply P_buffer.
  - by eapply ew_handleResultLine.
  - apply ew_failCurrent_state.
  - apply every_worker_same. by rewrite workers_kill.
  - eapply every_worker_alter; [by rewrite workers_kill|].
    intros w0 _ HP. by apply P_flag.
  - eapply every_worker_alter; [reflexivity|]. intros w0 _ HP. by apply P_proc.
Qed.

Lemma ew_changes s s' :
  rtc change s s' → every_worker P s → every_worker P s'.
Proof. induction 1; eauto using ew_change. Qed.

Lemma ew_new_pool min max timeout ttl :
  every_worker P (new_pool min max timeout ttl).
Proof.
  unfold new_pool. induction (Z.to_nat min) as [|n IH]; simpl.
  - intros i w Hw. simpl in Hw. by rewrite lookup_nil in Hw.
  - by apply ew_push_worker.
Qed.

(** A property that [respawn] keeps as well holds after every event. *)
Hypothesis P_respawn : ∀ w,
  P w → P (set_stdoutBuffer [] (set_busy false (set_proc None w))).

Lemma ew_move s s' : move s s' → every_worker P s → every_worker P s'.
Proof.
  intros Hm. apply move_change in Hm as [Hc|[i ->]]; [by apply ew_change|].
  eapply every_worker_alter; [apply workers_respawn|].
  intros w _ HP. by apply P_respawn.
Qed.

End WorkerInvariant.

(** X4. In a pool started by the constructor, after every list of
    events, a worker has a timeout timer exactly when it holds a task:
    [assign] sets the two together, [failCurrent] and [handleResultLine]
    clear the two together, and [respawn] touches neither. *)
Theorem timeout_timer_iff_task parse n es min max timeout ttl s :
  run parse n es (new_pool min max timeout ttl) = Some s →
  every_worker timeout_iff_task s.
Proof.
  intros H.
  eapply (run_preserves (every_worker timeout_iff_task)) in H; [done| |].
  - intros s1 s2 Hm. revert Hm.
    apply ew_move; unfold timeout_iff_task; simpl; done.
  - apply ew_new_pool; unfold timeout_iff_task; simpl; done.
Qed.

Lemma timeout_timer_iff_task_witness :
  every_worker timeout_iff_task replaced_task.
Proof.
  apply (timeout_timer_iff_task sample_parse 100 crash_then_submit 1 1 1000 300).
  vm_compute; reflexivity.
Defined.

(** ** Busy workers and their tasks *)

(** With nothing queued, [onWorkerFree] only arms idle timers. *)
Lemma onWorkerFree_empty n s s' :
  queue s = [] → onWorkerFree n s = Some s' → s' = arm_idle s.
Proof.
  intros Hq H.
  destruct n as [|n]; [discriminate|]. simpl in H.
  apply bind_Some in H as (s1 & H1 & [= <-]).
  destruct n as [|n]; [discriminate|]. simpl in H1.
  apply bind_Some in H1 as (s2 & H2 & [= <-]).
  destruct n as [|n]; [discriminate|]. simpl in H2. rewrite Hq in H2.
  assert (s2 = s) as -> by (destruct (workers s !! 0%nat); by simplify_eq).
  unfold scale_up, must_scale_up. by rewrite Hq.
Qed.

Lemma busy_failCurrent_state i e s w :
  workers s !! i = Some w →
  ∃ w', workers (failCurrent_state i e s) !! i = Some w' ∧ busy w' = false.
Proof.
  intros Hw. unfold failCurrent_state, failCurrent. rewrite Hw.
  destruct (currentTimeout w), (currentTask w); simpl;
    rewrite !list_lookup_alter_eq, Hw; simpl; eauto.
Qed.

Lemma tasks_iff_busy_changes s s' :
  rtc change s s' → tasks_iff_busy s → tasks_iff_busy s'.
Proof.
  apply (ew_changes task_iff_busy); unfold task_iff_busy; simpl; done.
Qed.

(** A process dies while nothing is queued: the worker is idle and
    without task when [respawn] runs. *)
Lemma crash_on_empty_queue n i msg l s s1 :
  queue s = [] → has_proc i s = true →
  failCurrent (onWorkerFree n) i msg (log l s) = Some s1 →
  tasks_iff_busy s → tasks_iff_busy (respawn i s1).
Proof.
  intros Hq Hp H Hs.
  assert (tasks_iff_busy s1) as Hs1.
  { eapply tasks_iff_busy_changes; [by eapply failCurrent_changes|done]. }
  unfold has_proc in Hp.
  destruct (workers s !! i) as [w|] eqn:Hw; [|done].
  rewrite failCurrent_unfold in H.
  rewrite (failCurrent_calls_true _ _ w) in H by done.
  apply onWorkerFree_empty in H.
  2:{ destruct (keeps_failCurrent_state i msg (log l s))
        as (_ & _ & _ & _ & _ & _ & _ & [taken Ht] & _).
      simpl in Ht. rewrite Hq in Ht. symmetry in Ht.
      by apply app_eq_nil in Ht as [_ ?]. }
  subst s1.
  destruct (busy_failCurrent_state i msg (log l s) w Hw) as (w1 & Hw1 & Hb1).
  destruct (arm_idle_worker (failCurrent_state i msg (log l s))) as [_ Ha].
  destruct (Ha i w1 Hw1) as (w2 & Hw2 & Hb2 & _).
  eapply every_worker_alter; [apply workers_respawn| |exact Hs1].
  intros w0 Hw0 HP. simplify_eq. unfold task_iff_busy in *. simpl.
  rewrite HP. by rewrite Hb2, Hb1.
Qed.

(** X5. A worker holds a task exactly when it is busy: every handler
    keeps this, the handlers of [error] and [close] when the process dies
    while no task is queued. *)
Theorem handlers_keep_task_iff_busy parse n e s s' :
  tasks_iff_busy s → (crash e = true → queue s = []) →
  step parse n e s = Some s' → tasks_iff_busy s'.
Proof.
  intros Hs Hq H. destruct (crash e) eqn:Hc.
  - specialize (Hq eq_refl). destruct e; try discriminate; simpl in H.
    + destruct (has_proc i s) eqn:Hp; [|by simplify_eq].
      apply bind_Some in H as (s1 & H1 & [= <-]).
      by eapply crash_on_empty_queue.
    + destruct (has_proc i s) eqn:Hp; [|by simplify_eq].
      apply bind_Some in H as (s1 & H1 & [= <-]).
      by eapply crash_on_empty_queue.
  - apply step_changes in H as (s1 & Hch & [->|[Hc' _]]); [|congruence].
    by eapply tasks_iff_busy_changes.
Qed.

Lemma handlers_keep_task_iff_busy_witness :
  tasks_iff_busy (after [ProcClose 0 None] (new_pool 1 1 1000 300)).
Proof.
  apply (handlers_keep_task_iff_busy sample_parse 100 (ProcClose 0 None)
           (new_pool 1 1 1000 300)).
  - intros i w Hw. destruct i as [|i]; simpl in Hw; [|by destruct i].
    injection Hw as <-. split; [by intros [? ?]|done].
  - reflexivity.
  - vm_compute; reflexivity.
Defined.

(** ** Where every promise is *)

Lemma accounted_perm s s' :
  next_handle s' = next_handle s →
  (held s' ++ resolved s') ≡ₚ (held s ++ resolved s) →
  accounted s → accounted s'.
Proof. unfold accounted. intros -> ->. done. Qed.

Lemma accounted_same s s' :
  queue s' = queue s →
  current_handles (workers s') = current_handles (workers s) →
  settled s' = settled s → next_handle s' = next_handle s →
  accounted s → accounted s'.
Proof.
  intros Hq Hc Hs Hn. apply accounted_perm; [done|].
  unfold held, resolved. by rewrite Hq, Hc, Hs.
Qed.

(** The changes that move a promise from the queue to a worker or from
    the pool to the resolutions, none being dropped. *)
Lemma conserved_shape s s' i w f taken new old done :
  queue s = taken ++ queue s' →
  workers s !! i = Some w → workers s' = alter f i (workers s) →
  handle <$> currentTask w = old → handle <$> currentTask (f w) = new →
  resolved s' = resolved s ++ done →
  (∀ h, count_occ Nat.eq_dec (option_list new) h
        + count_occ Nat.eq_dec done h
        = count_occ Nat.eq_dec (handle <$> taken) h
          + count_occ Nat.eq_dec (option_list old) h)%nat →
  (held s' ++ resolved s') ≡ₚ (held s ++ resolved s).
Proof.
  intros Hq Hw Hws Hold Hnew Hres Hcount.
  apply (Permutation_count_occ Nat.eq_dec). intros h.
  unfold held. rewrite Hres, Hws, Hq, fmap_app, !count_occ_app.
  pose proof (count_current_alter f i (workers s) w h Hw) as Hc.
  rewrite Hold, Hnew in Hc. specialize (Hcount h). lia.
Qed.

Lemma accounted_assign_state s k w task rest :
  workers s !! k = Some w → currentTask w = None → queue s = task :: rest →
  accounted s →
  accounted (assign_state k task (taskTimeoutMs s) (set_queue rest s)).
Proof.
  intros Hw Hct Hq. unfold assign_state, assign. simpl. rewrite Hw.
  assert (∀ o, accounted s → accounted (resolve task o (set_queue rest s)))
    as Hnot.
  { intros o. apply accounted_perm; [done|]. unfold held, resolved. simpl.
    rewrite Hq. apply (Permutation_count_occ Nat.eq_dec). intros h.
    rewrite ?fmap_app, ?count_occ_app. simpl.
    rewrite ?count_occ_app. simpl. unfold fmap.
    destruct (Nat.eq_dec (handle task) h); lia. }
  destruct w as [[[p [| |m]]|] b buf ct cto it sr]; simpl in *; subst ct.
  - apply Hnot.
  - destruct it as [it|]; simpl;
      (apply accounted_perm; [done|]);
      (eapply (conserved_shape _ _ k _ _ [task] (Some (handle task)) None []);
       [simpl; by rewrite Hq|exact Hw
       |simpl; rewrite ?list_alter_alter_eq; reflexivity
       |reflexivity|reflexivity|by rewrite app_nil_r|count_tac]).
  - unfold failCurrent. destruct it as [it|]; simpl;
      rewrite !list_lookup_alter_eq, Hw; simpl;
      (apply accounted_perm; [done|]);
      (eapply (conserved_shape _ _ k _ _ [task] None None [handle task]);
       [simpl; by rewrite Hq|exact Hw
       |simpl; rewrite ?list_alter_alter_eq; reflexivity
       |reflexivity|reflexivity
       |unfold resolved; simpl; by rewrite fmap_app|count_tac]).
  - apply Hnot.
Qed.

Lemma accounted_failCurrent_state s i e :
  accounted s → accounted (failCurrent_state i e s).
Proof.
  unfold failCurrent_state, failCurrent.
  destruct (workers s !! i) as [w|] eqn:Hw; [|done].
  destruct (currentTimeout w), (currentTask w) as [t|] eqn:Hc; simpl;
    (apply accounted_perm; [done|]).
  - eapply (conserved_shape _ _ i _ _ [] None (Some (handle t)) [handle t]);
      [done|exact Hw
      |simpl; rewrite ?list_alter_alter_eq; reflexivity
      |by rewrite Hc|reflexivity
      |unfold resolved; simpl; by rewrite fmap_app|count_tac].
  - eapply (conserved_shape _ _ i _ _ [] None None []);
      [done|exact Hw
      |simpl; rewrite ?list_alter_alter_eq; reflexivity
      |by rewrite Hc|reflexivity
      |by rewrite app_nil_r|count_tac].
  - eapply (conserved_shape _ _ i _ _ [] None (Some (handle t)) [handle t]);
      [done|exact Hw
      |simpl; rewrite ?list_alter_alter_eq; reflexivity
      |by rewrite Hc|reflexivity
      |unfold resolved; simpl; by rewrite fmap_app|count_tac].
  - eapply (conserved_shape _ _ i _ _ [] None None []);
      [done|exact Hw
      |simpl; rewrite ?list_alter_alter_eq; reflexivity
      |by rewrite Hc|reflexivity
      |by rewrite app_nil_r|count_tac].
Qed.

Lemma accounted_handleResultLine parse i line s s' :
  handleResultLine parse Some i line s = Some s' →
  accounted s → accounted s'.
Proof.
  unfold handleResultLine.
  destruct (match trim line with [] => true | first :: _ => _ end);
    [intros [= <-]; by apply accounted_same|].
  destruct (parse (trim line)) as [parsed|];
    [|intros [= <-]; by apply accounted_same].
  destruct (workers s !! i) as [w|] eqn:Hw; [|by intros [= <-]].
  destruct (currentTask w) as [t|] eqn:Hc;
    [|intros [= <-]; by apply accounted_same].
  intros [= <-].
  destruct (currentTimeout w); simpl;
    (apply accounted_perm; [done|]);
    (eapply (conserved_shape _ _ i _ _ [] None (Some (handle t)) [handle t]);
      [done|exact Hw
      |simpl; rewrite ?list_alter_alter_eq; reflexivity
      |by rewrite Hc|reflexivity
      |unfold resolved; simpl; by rewrite fmap_app|count_tac]).
Qed.

Lemma accounted_upd_worker i f s :
  (∀ w, currentTask (f w) = currentTask w) →
  accounted s → accounted (upd_worker i f s).
Proof.
  intros Hf. apply accounted_same; try done. simpl.
  by apply current_handles_alter_same.
Qed.

Lemma accounted_respawn i s : accounted s → accounted (respawn i s).
Proof.
  apply accounted_same; unfold respawn; repeat case_match; try done;
    rewrite ?workers_respawn; simpl; by apply current_handles_alter_same.
Qed.

Lemma change_accounted s s' :
  change s s' → tasks_iff_busy s → accounted s → accounted s'.
Proof.
  destruct 1; intros Hs.
  - by apply accounted_same.
  - by apply accounted_same.
  - apply accounted_upd_worker. intros w. by destruct (proc w).
  - intros Ha. unfold accounted in *.
    change (next_handle (set_next_handle _ _)) with (S (next_handle s)).
    rewrite seq_S, <- Ha. unfold held, resolved. simpl.
    apply (Permutation_count_occ Nat.eq_dec). intros h.
    rewrite ?fmap_app, ?count_occ_app. simpl. rewrite ?count_occ_app. simpl.
    lia.
  - eapply accounted_assign_state; [done| |done].
    destruct (currentTask w) eqn:Hc; [|done].
    assert (busy w = true) by (by apply (Hs k w)). congruence.
  - unfold scale_up. destruct (must_scale_up s); [|done].
    apply accounted_same; try done. unfold push_worker, spawn. simpl.
    rewrite current_handles_alter_same by done.
    rewrite current_handles_app. simpl. by rewrite app_nil_r.
  - unfold scheduleScaleDown. destruct (_ <=? _); [done|].
    rewrite H. destruct (idleTimer w); simpl; apply accounted_same; try done;
      simpl; by apply current_handles_alter_same.
  - by apply accounted_upd_worker.
  - by eapply accounted_handleResultLine.
  - apply accounted_failCurrent_state.
  - by apply accounted_same.
  - apply accounted_same; unfold kill; repeat case_match; done.
  - apply accounted_same; unfold kill; repeat case_match; try done; simpl;
      by apply current_handles_alter_same.
  - apply accounted_same; try done. simpl. by apply current_handles_alter_same.
Qed.

Lemma changes_accounted s s' :
  rtc change s s' → tasks_iff_busy s → accounted s → accounted s'.
Proof.
  induction 1 as [|s1 s2 s3 H1 _ IH]; [done|]. intros Hs Ha.
  apply IH.
  - eapply tasks_iff_busy_changes; [by apply rtc_once|done].
  - by eapply change_accounted.
Qed.

(** X6. While every worker that holds a task is busy, no handler loses
    or duplicates a promise: if the promises created so far are exactly
    those the pool holds, in its queue or on a worker, and those it has
    resolved, each once, the same is true after the handler, the promise
    of a new submission included. *)
Theorem promises_stay_accounted parse n e s s' :
  tasks_iff_busy s → accounted s →
  step parse n e s = Some s' → accounted s'.
Proof.
  intros Hs Ha H.
  apply step_changes in H as (s1 & Hch & [->|[_ [i ->]]]).
  - by eapply changes_accounted.
  - apply accounted_respawn. by eapply changes_accounted.
Qed.

Lemma promises_stay_accounted_witness :
  accounted (after [Submit JNull (js "a")] (new_pool 1 1 1000 300)).
Proof.
  apply (promises_stay_accounted sample_parse 100 (Submit JNull (js "a"))
           (new_pool 1 1 1000 300)).
  - intros i w Hw. destruct i as [|i]; simpl in Hw; [|by destruct i].
    injection Hw as <-. split; [by intros [? ?]|done].
  - vm_compute. reflexivity.
  - vm_compute; reflexivity.
Defined.

(** ** Chunks of whole characters *)

Lemma utf8_decode_app st a b :
  utf8_pending st a = None →
  utf8_decode st (a ++ b) = utf8_decode st a ++ utf8_decode None b.
Proof.
  revert st. induction a as [|x a IH]; intros st H; simpl in *.
  - by subst.
  - destruct st as [[[[n cp] lo] hi]|].
    + destruct ((lo <=? x)%N && (x <=? hi)%N).
      * destruct n as [|[|n]]; simpl; by rewrite IH.
      * destruct (utf8_lead x) as [out st']. simpl in *.
        by rewrite IH, <- app_assoc.
    + destruct (utf8_lead x) as [out st']. simpl in *.
      by rewrite IH, <- app_assoc.
Qed.

Lemma Buffer_toString_app a b :
  whole_characters a →
  Buffer_toString (a ++ b) = Buffer_toString a ++ Buffer_toString b.
Proof.
  intros H. unfold Buffer_toString.
  by rewrite List.map_app, utf8_decode_app, flat_map_app.
Qed.

Lemma Buffer_toString_concat (chunks : list (list byte)) :
  Forall whole_characters chunks →
  Buffer_toString (concat chunks) = concat (Buffer_toString <$> chunks).
Proof.
  induction 1 as [|c cs Hc _ IH]; [done|].
  simpl. by rewrite Buffer_toString_app, IH.
Qed.

(** X7. When every chunk of the output ends where a character ends, the
    [data] handler hands over the lines of the whole stream, trimmed and
    without the blank ones, and keeps what follows the last terminator:
    the chunk boundaries do not show. *)
Theorem whole_character_chunks (chunks : list (list byte)) :
  Forall whole_characters chunks →
  feed_all [] chunks = spec_frame (Buffer_toString (concat chunks)).
Proof.
  intros H. rewrite feed_all_frame_all, frame_all_concat by done.
  by rewrite <- frame_split, Buffer_toString_concat.
Qed.

Lemma whole_character_chunks_witness :
  feed_all [] [[xc3; xa9]; [x0a; xe2; x82; xac]; [x0a]]
  = spec_frame (Buffer_toString
                  (concat [[xc3; xa9]; [x0a; xe2; x82; xac]; [x0a]])).
Proof.
  apply whole_character_chunks.
  repeat constructor.
Defined.

(** ** After a scale-down *)

(** X8. Once a worker has been scaled down and its process has exited,
    the pool never creates a worker again, whatever its maximum: the
    scale-up of [pump] waits for all the workers to be busy, and this one
    never is. *)
Theorem no_scale_up_after_scale_down parse n es i s s' :
  dead i s → run parse n es s = Some s' →
  length (workers s') = length (workers s).
Proof.
  intros Hd H.
  eapply (run_preserves
            (λ x, dead i x ∧ length (workers x) = length (workers s))) in H;
    [by destruct H| |done].
  intros s1 s2 Hm [Hd1 Hl1]. split; [by eapply dead_move|].
  destruct (move_grows _ _ Hm) as [->|(_ & _ & Hall)]; [done|].
  destruct Hd1 as (w & Hw & _ & _ & _ & Hb).
  by rewrite (forallb_busy_false _ _ _ Hw Hb) in Hall.
Qed.

Lemma no_scale_up_after_scale_down_witness :
  length (workers (after [Submit JNull (js "c"); Submit JNull (js "d")]
                     second_worker_dead))
  = length (workers second_worker_dead).
Proof.
  apply (no_scale_up_after_scale_down sample_parse 100
           [Submit JNull (js "c"); Submit JNull (js "d")] 1).
  - eexists. split_and!; [vm_compute; reflexivity|vm_compute; reflexivity
                         | |vm_compute; reflexivity|vm_compute; reflexivity].
    apply quietb_quiet. vm_compute; reflexivity.
  - vm_compute; reflexivity.
Defined.

(** ** First in, first out *)

Lemma in_submission_order_suffix s s' taken :
  queue s = taken ++ queue s' → next_handle s' = next_handle s →
  in_submission_order s → in_submission_order s'.
Proof.
  intros Hq Hn [Hs Hlt]. unfold in_submission_order.
  rewrite Hq, fmap_app in Hs, Hlt. rewrite Hn. split.
  - by apply StronglySorted_app_1_r in Hs.
  - intros h Hh. apply Hlt, elem_of_app. by right.
Qed.

Lemma in_submission_order_keeps s s' :
  keeps s s' → in_submission_order s → in_submission_order s'.
Proof.
  intros (_ & _ & _ & _ & _ & Hn & _ & [taken Hq] & _).
  by apply (in_submission_order_suffix _ _ taken).
Qed.

Lemma move_in_submission_order s s' :
  move s s' → in_submission_order s → in_submission_order s'.
Proof.
  destruct 1; try (by apply (in_submission_order_suffix _ _ [])).
  - intros [Hs Hlt]. unfold in_submission_order. simpl.
    rewrite fmap_app. simpl. split.
    + apply StronglySorted_app_2; [|done|repeat constructor].
      intros x1 x2 H1 H2. apply list_elem_of_singleton in H2 as ->.
      by apply Hlt.
    + intros h Hh. apply elem_of_app in Hh as [Hh|Hh];
        [apply Hlt in Hh; lia|apply list_elem_of_singleton in Hh as ->; lia].
  - apply in_submission_order_keeps.
    eapply keeps_trans; [by eapply keeps_set_queue|apply keeps_assign_state].
  - apply in_submission_order_keeps, keeps_scale_up.
  - apply in_submission_order_keeps, keeps_scheduleScaleDown.
  - apply in_submission_order_keeps.
    eapply keeps_handleResultLine; [|done]. intros a b [= <-]. apply keeps_refl.
  - apply in_submission_order_keeps, keeps_failCurrent_state.
  - apply (in_submission_order_suffix _ _ []);
      unfold respawn; by repeat case_match.
  - apply (in_submission_order_suffix _ _ []); unfold kill; by repeat case_match.
  - apply (in_submission_order_suffix _ _ []); unfold kill; by repeat case_match.
Qed.

(** X9. In a pool started by the constructor the queue is always in the
    order of submission, the oldest task first; [pump] takes the tasks it
    assigns from the head of the queue, so the tasks leave it in the
    order in which they were submitted. *)
Theorem queue_is_first_in_first_out parse n es min max timeout ttl s :
  run parse n es (new_pool min max timeout ttl) = Some s →
  in_submission_order s
  ∧ ∀ task rest, queue s = task :: rest →
      Forall (λ t, handle task < handle t)%nat rest.
Proof.
  intros H.
  eapply (run_preserves in_submission_order) in H;
    [|apply move_in_submission_order|].
  - split; [done|]. intros task rest Hq. destruct H as [Hs _].
    rewrite Hq in Hs. simpl in Hs. apply StronglySorted_inv in Hs as [_ Hs].
    apply Forall_forall. intros t Ht. rewrite Forall_forall in Hs.
    apply Hs. apply list_elem_of_In. apply in_map. by apply list_elem_of_In.
  - assert (queue (new_pool min max timeout ttl) = []) as Hq.
    { unfold new_pool. induction (Z.to_nat min) as [|k IH]; [done|].
      simpl. unfold push_worker, spawn. simpl. exact IH. }
    unfold in_submission_order. rewrite Hq. split; [constructor|].
    intros h Hh. by apply elem_of_nil in Hh.
Qed.

Lemma queue_is_first_in_first_out_witness :
  in_submission_order one_busy_two_queued
  ∧ ∀ task rest, queue one_busy_two_queued = task :: rest →
      Forall (λ t, handle task < handle t)%nat rest.
Proof.
  apply (queue_is_first_in_first_out sample_parse 100
           [Submit JNull (js "a"); Submit JNull (js "b"); Submit JNull (js "c")]
           1 1 1000 300).
  vm_compute; reflexivity.
Defined.

(** ** A worker without process *)

(** X10. A submission on an empty queue goes to the first worker that is
    not busy, also when that worker has no process, as during the 500 ms
    before [respawn] starts one: [assign] then resolves the task at once
    as a failure with the error [Worker not ready]. The task does not
    wait in the queue, nothing is written, no timer is armed and no
    worker is created. *)
Theorem submission_to_a_worker_without_process parse payload rnd s i w :
  queue s = [] → workers s !! i = Some w → proc w = None → busy w = false →
  (∀ j, (j < i)%nat → ∃ w', workers s !! j = Some w' ∧ busy w' = true) →
  ∃ n s',
    step parse n (Submit payload rnd) s = Some s'
    ∧ settled s' = settled s
                   ++ [(next_handle s, failure (js "Worker not ready"))]
    ∧ queue s' = [] ∧ workers s' = workers s ∧ timers s' = timers s
    ∧ written s' = written s.
Proof.
  intros Hq Hw Hp Hb Hbusy.
  exists (S (2 + (i - 0))). unfold step, processInterpretation.
  rewrite Hq. simpl app.
  match goal with |- ∃ s', pump _ ?s0 = _ ∧ _ => set (s1 := s0) end.
  set (task := {| handle := next_handle s;
                  rid := js_of_Z (now s) ++ js "_" ++ rnd;
                  interpretation := payload; __start := None |}).
  set (s2 := resolve task (failure (js "Worker not ready")) (set_queue [] s1)).
  exists s2. split; [|done].
  change (pump (S (2 + (i - 0))) s1)
    with (x ← pump_for (2 + (i - 0)) 0 s1; Some (scale_up x)).
  rewrite pump_for_skip; [|lia|done|intros j Hj; apply Hbusy; lia].
  assert (pump_for 2 i s1 = Some s2) as ->.
  { simpl. rewrite Hw. simpl. rewrite Hb.
    rewrite (assign_not_ready _ _ _ _ _ w) by done. simpl.
    by destruct (workers s !! S i). }
  simpl. f_equal.
Qed.

Lemma submission_to_a_worker_without_process_witness :
  ∃ n s',
    step sample_parse n (Submit JNull (js "b"))
      (after [ProcClose 0 None] (new_pool 1 1 1000 300)) = Some s'
    ∧ settled s' = settled (after [ProcClose 0 None] (new_pool 1 1 1000 300))
                   ++ [(next_handle
                          (after [ProcClose 0 None] (new_pool 1 1 1000 300)),
                        failure (js "Worker not ready"))]
    ∧ queue s' = []
    ∧ workers s' = workers (after [ProcClose 0 None] (new_pool 1 1 1000 300))
    ∧ timers s' = timers (after [ProcClose 0 None] (new_pool 1 1 1000 300))
    ∧ written s' = written (after [ProcClose 0 None] (new_pool 1 1 1000 300)).
Proof.
  apply (submission_to_a_worker_without_process sample_parse JNull (js "b")
           (after [ProcClose 0 None] (new_pool 1 1 1000 300)) 0
           {| proc := None; busy := false; stdoutBuffer := [];
              currentTask := None; currentTimeout := None;
              idleTimer := None; shouldRespawn := true |});
    try (vm_compute; reflexivity).
  intros j Hj. lia.
Defined.

(** ** A write that fails *)

(** X11. When the write to the standard input of the process throws,
    [assign] fails the task it was given with the error [stdin write
    failed: ] followed by the message, cancels the timeout timer it has
    just armed, leaves the worker idle with its process, and calls the
    pool back. Nothing is recorded as written and no signal is sent. *)
Theorem failed_write_fails_the_task free k task ms s w p m :
  workers s !! k = Some w → proc w = Some p → stdin p = StdinThrows m →
  ∃ s1,
    assign free k task ms s = free s1
    ∧ settled s1 = settled s
                   ++ [(handle task, failure (js "stdin write failed: " ++ m))]
    ∧ timers s1 = delete (next_timer s)
                         (match idleTimer w with
                          | Some it => delete it (timers s)
                          | None => timers s
                          end)
    ∧ written s1 = written s ∧ signals s1 = signals s
    ∧ queue s1 = queue s
    ∧ ∃ w1, workers s1 !! k = Some w1 ∧ busy w1 = false
            ∧ currentTask w1 = None ∧ currentTimeout w1 = None
            ∧ proc w1 = Some p.
Proof.
  intros Hw Hp Hs. exists (assign_state k task ms s).
  rewrite assign_unfold.
  assert (assign_calls k s = true) as ->.
  { unfold assign_calls. rewrite Hw. destruct w as [[[q st]|] ? ? ? ? ? ?];
      simpl in *; [|done]. simplify_eq/=. done. }
  split; [done|].
  unfold assign_state, assign. rewrite Hw.
  destruct w as [[[q st]|] b buf ct cto it sr]; simpl in *; [|done].
  injection Hp as <-. simpl in Hs. subst st. simpl.
  unfold failCurrent.
  destruct it as [it|]; simpl; rewrite !list_lookup_alter_eq, Hw; simpl;
    rewrite !list_lookup_alter_eq, Hw; simpl;
    (split_and!; [done|by rewrite delete_insert_eq|done|done|done|]);
    eexists; split_and!; done.
Qed.

Lemma failed_write_fails_the_task_witness :
  ∃ s1,
    assign Some 0 {| handle := 7; rid := js "r"; interpretation := JNull;
                     __start := None |} 1000
      (after [StdinBecomes 0 (StdinThrows (js "EPIPE"))]
             (new_pool 1 1 1000 300)) = Some s1
    ∧ settled s1 = [(7%nat, failure (js "stdin write failed: " ++ js "EPIPE"))]
    ∧ timers s1 = delete 0%nat ∅
    ∧ written s1 = [] ∧ signals s1 = [] ∧ queue s1 = []
    ∧ ∃ w1, workers s1 !! 0%nat = Some w1 ∧ busy w1 = false
            ∧ currentTask w1 = None ∧ currentTimeout w1 = None
            ∧ proc w1 = Some {| pid := 0; stdin := StdinThrows (js "EPIPE") |}.
Proof.
  apply (failed_write_fails_the_task Some 0
           {| handle := 7; rid := js "r"; interpretation := JNull;
              __start := None |} 1000
           (after [StdinBecomes 0 (StdinThrows (js "EPIPE"))]
                  (new_pool 1 1 1000 300))
           {| proc := Some {| pid := 0; stdin := StdinThrows (js "EPIPE") |};
              busy := false; stdoutBuffer := []; currentTask := None;
              currentTimeout := None; idleTimer := None;
              shouldRespawn := true |}
           {| pid := 0; stdin := StdinThrows (js "EPIPE") |} (js "EPIPE"));
    vm_compute; reflexivity.
Defined.

(** ** Arming the idle timers *)

Lemma scheduleScaleDown_spec i ttl s w :
  workers s !! i = Some w → 0 < ttl →
  timers (scheduleScaleDown i ttl s)
  = <[next_timer s := (now s + timer_delay ttl, IdleScaleDown i ttl)]>
      (match idleTimer w with
       | Some it => delete it (timers s)
       | None => timers s
       end)
  ∧ next_timer (scheduleScaleDown i ttl s) = S (next_timer s)
  ∧ workers (scheduleScaleDown i ttl s)
    = alter (set_idleTimer (Some (next_timer s))) i (workers s)
  ∧ now (scheduleScaleDown i ttl s) = now s
  ∧ minPool (scheduleScaleDown i ttl s) = minPool s
  ∧ idleTtlMs (scheduleScaleDown i ttl s) = idleTtlMs s.
Proof.
  intros Hw Httl. unfold scheduleScaleDown.
  destruct (ttl <=? 0) eqn:E; [lia|]. rewrite Hw.
  by destruct (idleTimer w).
Qed.

Lemma armed_step s0 k x :
  minPool s0 < Z.of_nat (length (workers s0)) → 0 < idleTtlMs s0 →
  idle_timers_known s0 →
  armed_up_to s0 k x →
  armed_up_to s0 (S k)
    (match workers x !! k with
     | Some w =>
         if negb (busy w) && (minPool x <? Z.of_nat (length (workers x)))
         then scheduleScaleDown k (idleTtlMs x) x
         else x
     | None => x
     end).
Proof.
  intros Hmin Httl Hknown ((Hlen & Hmp & Hti & Hnow & Hnt) & Hsame & Harmed).
  destruct (workers x !! k) as [wk|] eqn:Hwk.
  2:{ split_and!; try done.
      - intros j w Hw. destruct (Hsame j w Hw) as (w0 & ? & ? & Hi).
        exists w0. split_and!; [done|done|]. intros ?. apply Hi. lia.
      - intros j w Hj Hw Hb. apply Harmed; [|done|done].
        destruct (decide (j = k)) as [->|]; [congruence|lia]. }
  destruct (busy wk) eqn:Hbk; simpl.
  { split_and!; try done.
    - intros j w Hw. destruct (Hsame j w Hw) as (w0 & ? & ? & Hi).
      exists w0. split_and!; [done|done|]. intros ?. apply Hi. lia.
    - intros j w Hj Hw Hb. apply Harmed; [|done|done].
      destruct (decide (j = k)) as [->|]; [congruence|lia]. }
  assert ((minPool x <? Z.of_nat (length (workers x))) = true) as ->
    by (apply Z.ltb_lt; lia).
  destruct (scheduleScaleDown_spec k (idleTtlMs x) x wk Hwk)
    as (Ht & Hn & Hws & Hnow' & Hmp' & Hti'); [lia|].
  assert (∀ it, idleTimer wk = Some it → (it < next_timer s0)%nat) as Hold.
  { intros it Hit. destruct (Hsame k wk Hwk) as (w0 & Hw0 & _ & Hi).
    apply (Hknown k w0 it Hw0). rewrite <- Hi; [done|lia]. }
  split_and!.
  - by rewrite Hws, length_alter.
  - congruence.
  - congruence.
  - congruence.
  - lia.
  - intros j w. rewrite Hws. destruct (decide (k = j)) as [<-|Hne].
    + rewrite list_lookup_alter_eq, Hwk. simpl. intros [= <-].
      destruct (Hsame k wk Hwk) as (w0 & ? & ? & _).
      exists w0. split_and!; [done|done|lia].
    + rewrite list_lookup_alter_ne by done. intros Hw.
      destruct (Hsame j w Hw) as (w0 & ? & ? & Hi).
      exists w0. split_and!; [done|done|]. intros ?. apply Hi. lia.
  - intros j w Hj. rewrite Hws, Ht, Hn.
    destruct (decide (k = j)) as [<-|Hne].
    + rewrite list_lookup_alter_eq, Hwk. simpl. intros [= <-] _.
      exists (next_timer x). split_and!; [done|lia|lia|].
      rewrite lookup_insert_eq. by rewrite Hnow, Hti.
    + rewrite list_lookup_alter_ne by done. intros Hw Hb.
      destruct (Harmed j w) as (id & Hid & Hrange & Htm); [lia|done|done|].
      exists id. split_and!; [done|lia|lia|].
      rewrite lookup_insert_ne by lia.
      destruct (idleTimer wk) as [it|] eqn:Hit; [|done].
      rewrite lookup_delete_ne; [done|]. specialize (Hold it eq_refl). lia.
Qed.

Lemma armed_fold s0 m :
  minPool s0 < Z.of_nat (length (workers s0)) → 0 < idleTtlMs s0 →
  idle_timers_known s0 →
  ∀ k x, armed_up_to s0 k x →
    armed_up_to s0 (k + m)
      (foldl (λ s i,
                match workers s !! i with
                | Some w =>
                    if negb (busy w)
                       && (minPool s <? Z.of_nat (length (workers s)))
                    then scheduleScaleDown i (idleTtlMs s) s
                    else s
                | None => s
                end) x (seq k m)).
Proof.
  intros Hmin Httl Hknown. induction m as [|m IH]; intros k x Hx.
  - by rewrite Nat.add_0_r.
  - simpl. rewrite Nat.add_succ_r. apply (IH (S k)). by apply armed_step.
Qed.

(** X12. The second half of [onWorkerFree] arms the idle timer of every
    worker that is not busy as soon as the pool has more workers than its
    minimum: also the workers that make up the minimum get a timer, which
    will kill their process after the idle delay. With no more workers
    than the minimum it arms none. *)
Theorem scale_down_arms_every_idle_worker s :
  (Z.of_nat (length (workers s)) ≤ minPool s → arm_idle s = s)
  ∧ (minPool s < Z.of_nat (length (workers s)) → 0 < idleTtlMs s →
     idle_timers_known s →
     ∀ i w, workers s !! i = Some w → busy w = false →
       ∃ id w', workers (arm_idle s) !! i = Some w'
                ∧ idleTimer w' = Some id
                ∧ timers (arm_idle s) !! id
                  = Some (now s + timer_delay (idleTtlMs s),
                          IdleScaleDown i (idleTtlMs s))).
Proof.
  split.
  - intros Hle. unfold arm_idle.
    destruct (0 <? _) eqn:E; [|done]. apply Z.ltb_lt in E. lia.
  - intros Hmin Httl Hknown i w Hw Hb. unfold arm_idle.
    destruct (0 <? _) eqn:E; [|apply Z.ltb_ge in E; lia].
    destruct (armed_fold s (length (workers s)) Hmin Httl Hknown 0 s)
      as ((Hlen & _) & Hsame & Harmed).
    { split_and!; try done;
        first [by (intros j w0 Hw0; exists w0)|intros j w0 Hj; lia]. }
    simpl in *.
    match goal with |- context [foldl ?f s ?l] => set (s' := foldl f s l) in * end.
    assert (is_Some (workers s' !! i)) as [w' Hw'].
    { apply lookup_lt_is_Some. rewrite Hlen. by eapply lookup_lt_Some. }
    destruct (Hsame i w' Hw') as (w0 & Hw0 & Hb0 & _). simplify_eq.
    destruct (Harmed i w') as (id & Hid & _ & Ht);
      [by eapply lookup_lt_Some|done|congruence|].
    by exists id, w'.
Qed.

Lemma scale_down_arms_every_idle_worker_witness :
  ∃ id w', workers (arm_idle two_idle_workers) !! 0%nat = Some w'
           ∧ idleTimer w' = Some id
           ∧ timers (arm_idle two_idle_workers) !! id
             = Some (now two_idle_workers
                     + timer_delay (idleTtlMs two_idle_workers),
                     IdleScaleDown 0 (idleTtlMs two_idle_workers)).
Proof.
  apply (λ H1 H2 H3,
           proj2 (scale_down_arms_every_idle_worker two_idle_workers)
             H1 H2 H3 0%nat
             {| proc := Some {| pid := 0; stdin := StdinOpen |};
                busy := false; stdoutBuffer := []; currentTask := None;
                currentTimeout := None; idleTimer := None;
                shouldRespawn := true |});
    [vm_compute; reflexivity|vm_compute; reflexivity|
    |vm_compute; reflexivity|vm_compute; reflexivity].
  intros j w id Hw Hid. vm_compute in Hw.
  destruct j as [|[|j]]; simplify_eq; discriminate.
Defined.

(** ** Leaving the Node process *)

Lemma cleanup_fold m :
  ∀ k x, (k + m)%nat = length (workers x) →
    let x' := foldl (λ s i, kill i (upd_worker i (set_shouldRespawn false) s))
                    x (seq k m) in
    workers x' = take k (workers x)
                 ++ (set_shouldRespawn false <$> drop k (workers x))
    ∧ signals x' = signals x
                   ++ omap (λ w, pid <$> proc w) (drop k (workers x))
    ∧ settled x' = settled x ∧ queue x' = queue x ∧ timers x' = timers x
    ∧ next_pid x' = next_pid x.
Proof.
  induction m as [|m IH]; intros k x Hk; simpl.
  - rewrite drop_ge, take_ge by lia. simpl. by rewrite !app_nil_r.
  - assert (is_Some (workers x !! k)) as [w Hw]
      by (apply lookup_lt_is_Some; lia).
    set (x1 := kill k (upd_worker k (set_shouldRespawn false) x)).
    assert (workers x1 = alter (set_shouldRespawn false) k (workers x)) as Hws
      by (unfold x1; by rewrite workers_kill).
    assert (signals x1 = signals x ++ option_list (pid <$> proc w)
            ∧ settled x1 = settled x ∧ queue x1 = queue x
            ∧ timers x1 = timers x ∧ next_pid x1 = next_pid x)
      as (Hsig & Hset & Hq & Ht & Hn).
    { unfold x1, kill. simpl. rewrite list_lookup_alter_eq, Hw. simpl.
      destruct w as [[q|] ? ? ? ? ? ?]; simpl; by rewrite ?app_nil_r. }
    destruct (IH (S k) x1) as (E1 & E2 & E3 & E4 & E5 & E6).
    { rewrite Hws, length_alter. lia. }
    simpl in *. rewrite E1, E2, E3, E4, E5, E6, Hws, Hsig, Hset, Hq, Ht, Hn.
    rewrite (drop_S _ _ _ Hw).
    rewrite (take_S_r _ _ (set_shouldRespawn false w))
      by (by rewrite list_lookup_alter_eq, Hw).
    rewrite take_alter_ge, drop_alter_lt by lia. simpl.
    split_and!; try done.
    + by rewrite <- app_assoc.
    + rewrite <- app_assoc. by destruct (proc w).
Qed.

Lemma cleanup_spec s :
  workers (cleanup s) = set_shouldRespawn false <$> workers s
  ∧ signals (cleanup s) = signals s ++ processes s
  ∧ settled (cleanup s) = settled s ∧ queue (cleanup s) = queue s
  ∧ timers (cleanup s) = timers s ∧ next_pid (cleanup s) = next_pid s.
Proof. by apply (cleanup_fold (length (workers s)) 0 s). Qed.

(** X13. When the Node process exits, [cleanup] turns off the respawn
    flag of every worker and sends SIGKILL to the process of every worker
    that has one, in the order of the workers. It resolves no promise: the
    tasks in the queue and on the workers stay unanswered; it cancels no
    timer and starts no process. On SIGINT and SIGTERM [cleanup] runs
    twice, once from the listener of the signal and once from the
    listener of [exit], and [kill] is called twice on every process. *)
Theorem cleanup_kills_every_process s :
  workers (cleanup s) = set_shouldRespawn false <$> workers s
  ∧ signals (cleanup s) = signals s ++ processes s
  ∧ settled (cleanup s) = settled s ∧ queue (cleanup s) = queue s
  ∧ timers (cleanup s) = timers s ∧ next_pid (cleanup s) = next_pid s
  ∧ ∀ e, e ≠ ProcessExit →
      signals (on_process_event e s) = signals s ++ processes s ++ processes s
      ∧ workers (on_process_event e s) = workers (cleanup s)
      ∧ settled (on_process_event e s) = settled s.
Proof.
  destruct (cleanup_spec s) as (Hw & Hs & Hset & Hq & Ht & Hn).
  split_and!; try done.
  intros e He.
  assert (on_process_event e s = cleanup (cleanup s)) as ->
    by (by destruct e).
  destruct (cleanup_spec (cleanup s)) as (Hw' & Hs' & Hset' & _).
  assert (processes (cleanup s) = processes s) as Hp.
  { unfold processes. rewrite Hw. clear.
    induction (workers s) as [|w ws IH]; [done|].
    simpl. destruct (pid <$> proc w); [f_equal|]; exact IH. }
  split_and!.
  - by rewrite Hs', Hs, Hp, app_assoc.
  - rewrite Hw', Hw, <- list_fmap_compose. apply list_fmap_ext.
    by intros i w _.
  - congruence.
Qed.

(** ** The options of the pool *)

Lemma leb_refl x : PoolOptions.isNaN x = false → PoolOptions.leb x x = true.
Proof.
  destruct x; simpl; try done. intros _.
  apply QArith_base.Qle_bool_iff, QArith_base.Qle_refl.
Qed.

Lemma leb_total x y :
  PoolOptions.isNaN x = false → PoolOptions.isNaN y = false →
  PoolOptions.leb x y = false → PoolOptions.leb y x = true.
Proof.
  destruct x as [| |p|], y as [| |q|]; simpl; try done. intros _ _ H.
  apply QArith_base.Qle_bool_iff.
  destruct (QArith_base.Qlt_le_dec q p) as [Hlt|Hle].
  - by apply QArith_base.Qlt_le_weak.
  - apply QArith_base.Qle_bool_iff in Hle. congruence.
Qed.

Lemma Math_max_spec x y :
  PoolOptions.isNaN x = false → PoolOptions.isNaN y = false →
  PoolOptions.isNaN (PoolOptions.Math_max x y) = false
  ∧ PoolOptions.leb x (PoolOptions.Math_max x y) = true
  ∧ PoolOptions.leb y (PoolOptions.Math_max x y) = true.
Proof.
  intros Hx Hy.
  assert (PoolOptions.Math_max x y
          = if PoolOptions.leb x y then y else x) as ->
    by (by destruct x, y).
  destruct (PoolOptions.leb x y) eqn:E;
    split_and!; auto using leb_refl, leb_total.
Qed.

(** X14. The options the constructor takes from the environment are
    clamped: a minimum that is not given in [options] is a number, not
    [NaN], and at least 0; and when the maximum is not given in [options]
    and the minimum is a number, the maximum is a number and at least the
    minimum. This holds for every value of the environment variables,
    unparsable ones included. An option given in [options] is stored as it
    is. *)
Theorem options_from_the_environment_are_clamped Number options env :
  let r := PoolOptions.resolve_options Number options env in
  (options ≫= PoolOptions.minPool = None →
     PoolOptions.isNaN (PoolOptions.this_minPool r) = false
     ∧ PoolOptions.leb (PoolOptions.of_Z 0) (PoolOptions.this_minPool r) = true)
  ∧ (options ≫= PoolOptions.maxPool = None →
     PoolOptions.isNaN (PoolOptions.this_minPool r) = false →
     PoolOptions.isNaN (PoolOptions.this_maxPool r) = false
     ∧ PoolOptions.leb (PoolOptions.this_minPool r)
                       (PoolOptions.this_maxPool r) = true)
  ∧ (∀ v, options ≫= PoolOptions.minPool = Some v →
          PoolOptions.this_minPool r = v)
  ∧ (∀ v, options ≫= PoolOptions.maxPool = Some v →
          PoolOptions.this_maxPool r = v).
Proof.
  simpl. split_and!.
  - intros ->.
    destruct (PoolOptions.isNaN (PoolOptions.Number_or _ _ 1)) eqn:E;
      [done|].
    by destruct (Math_max_spec (PoolOptions.of_Z 0) _ eq_refl E) as (? & ? & _).
  - intros -> Hmin.
    destruct (PoolOptions.isNaN
                (PoolOptions.Number_or Number (PoolOptions.PY_POOL_MAX env) 1))
      eqn:E.
    + split; [done|]. by apply leb_refl.
    + by destruct (Math_max_spec _ _ Hmin E) as (? & ? & _).
  - by intros v ->.
  - by intros v ->.
Qed.

(** ** A task that makes the pool grow *)

Lemma forallb_busy_lookup ws j :
  forallb busy ws = true → (j < length ws)%nat →
  ∃ w, ws !! j = Some w ∧ busy w = true.
Proof.
  intros Hall Hj. destruct (lookup_lt_is_Some_2 ws j Hj) as [w Hw].
  exists w. split; [done|]. rewrite forallb_forall in Hall.
  apply Hall. apply list_elem_of_lookup_2 in Hw. by apply list_elem_of_In.
Qed.

(** X15. A submission that finds every worker busy, or the pool without
    worker, with room below the maximum, makes [pump] create one worker,
    and the task stays in the queue: the new worker is idle, nothing is
    written to it, and no timer is armed, neither for the task nor for the
    worker. The task waits for the next dispatch. *)
Theorem scale_up_leaves_the_task_queued parse payload rnd s :
  queue s = [] → forallb busy (workers s) = true →
  Z.of_nat (length (workers s)) < maxPool s →
  ∃ n s',
    step parse n (Submit payload rnd) s = Some s'
    ∧ (handle <$> queue s') = [next_handle s]
    ∧ length (workers s') = S (length (workers s))
    ∧ (∃ w, workers s' !! length (workers s) = Some w
            ∧ busy w = false ∧ currentTask w = None
            ∧ proc w = Some {| pid := next_pid s; stdin := StdinOpen |})
    ∧ (∀ j w, workers s !! j = Some w → workers s' !! j = Some w)
    ∧ written s' = written s ∧ settled s' = settled s
    ∧ timers s' = timers s.
Proof.
  intros Hq Hall Hlt.
  exists (S (1 + (length (workers s) - 0))).
  unfold step, processInterpretation. rewrite Hq. simpl app.
  match goal with |- ∃ s', pump _ ?s0 = _ ∧ _ => set (s1 := s0) end.
  exists (scale_up s1). split.
  - change (pump (S (1 + (length (workers s) - 0))) s1)
      with (x ← pump_for (1 + (length (workers s) - 0)) 0 s1;
            Some (scale_up x)).
    rewrite pump_for_skip; [|lia|done|].
    + simpl. by rewrite (lookup_ge_None_2 (workers s)).
    + intros j Hj. apply (forallb_busy_lookup (workers s)); [done|lia].
  - unfold scale_up.
    assert (must_scale_up s1 = true) as ->.
    { unfold must_scale_up. simpl. rewrite Hall. simpl.
      by apply Z.ltb_lt. }
    rewrite length_push_worker. simpl. split_and!; try done.
    + unfold push_worker, spawn. simpl.
      rewrite list_lookup_alter_eq, lookup_app_r, Nat.sub_diag by done.
      simpl. eauto.
    + intros j w Hw.
      by apply (lookup_push_worker
                  (log (ScalingUp (length (workers s) + 1) (maxPool s)) s1)).
Qed.

Lemma scale_up_leaves_the_task_queued_witness :
  ∃ n s',
    step sample_parse n (Submit JNull (js "a")) (new_pool 0 1 1000 300)
    = Some s'
    ∧ (handle <$> queue s') = [next_handle (new_pool 0 1 1000 300)]
    ∧ length (workers s') = S (length (workers (new_pool 0 1 1000 300)))
    ∧ (∃ w, workers s' !! length (workers (new_pool 0 1 1000 300)) = Some w
            ∧ busy w = false ∧ currentTask w = None
            ∧ proc w = Some {| pid := next_pid (new_pool 0 1 1000 300);
                               stdin := StdinOpen |})
    ∧ (∀ j w, workers (new_pool 0 1 1000 300) !! j = Some w →
              workers s' !! j = Some w)
    ∧ written s' = written (new_pool 0 1 1000 300)
    ∧ settled s' = settled (new_pool 0 1 1000 300)
    ∧ timers s' = timers (new_pool 0 1 1000 300).
Proof.
  apply (scale_up_leaves_the_task_queued sample_parse JNull (js "a")
           (new_pool 0 1 1000 300));
    [reflexivity|reflexivity|vm_compute; reflexivity].
Defined.

(** ** A timeout while tasks wait *)

Lemma scheduleScaleDown_other i j ttl s :
  i ≠ j → workers (scheduleScaleDown i ttl s) !! j = workers s !! j.
Proof.
  intros Hne. unfold scheduleScaleDown. destruct (_ <=? _); [done|].
  destruct (workers s !! i) as [w|]; [|done].
  destruct (idleTimer w); simpl; by rewrite list_lookup_alter_ne.
Qed.

Lemma arm_idle_busy s j w :
  workers s !! j = Some w → busy w = true →
  workers (arm_idle s) !! j = Some w.
Proof.
  intros Hw Hb. unfold arm_idle. destruct (0 <? _); [|done].
  generalize (seq 0 (length (workers s))). intros l.
  revert s Hw. induction l as [|i l IH]; intros s Hw; simpl; [done|].
  apply IH. destruct (workers s !! i) as [wi|] eqn:Hwi; [|done].
  destruct (busy wi) eqn:Hbi; simpl; [done|].
  destruct (_ <? _); [|done].
  rewrite scheduleScaleDown_other; [done|]. intros ->. congruence.
Qed.

(** A dispatch leaves the busy workers as they are. *)
Lemma dispatch_busy n :
  (∀ k s s', pump_for n k s = Some s' →
     ∀ j w, workers s !! j = Some w → busy w = true →
            workers s' !! j = Some w)
  ∧ (∀ s s', pump n s = Some s' →
       ∀ j w, workers s !! j = Some w → busy w = true →
              workers s' !! j = Some w)
  ∧ (∀ s s', onWorkerFree n s = Some s' →
       ∀ j w, workers s !! j = Some w → busy w = true →
              workers s' !! j = Some w).
Proof.
  apply (dispatch_ind
           (λ s s', ∀ j w, workers s !! j = Some w → busy w = true →
                           workers s' !! j = Some w)).
  - done.
  - eauto.
  - intros s k wk task rest Hwk Hbk Hq j w Hw Hb.
    rewrite assign_state_other; [done|]. intros ->. congruence.
  - intros s j w Hw Hb. unfold scale_up. destruct (must_scale_up s); [|done].
    by apply lookup_push_worker.
  - intros s j w. apply arm_idle_busy.
Qed.

Lemma pump_for_busy n k s s' j w :
  pump_for n k s = Some s' → workers s !! j = Some w → busy w = true →
  workers s' !! j = Some w.
Proof. intros H. by apply (proj1 (dispatch_busy n) k s s' H). Qed.

Lemma queue_failCurrent_state i e s :
  queue (failCurrent_state i e s) = queue s.
Proof.
  unfold failCurrent_state, failCurrent.
  destruct (workers s !! i) as [w|]; [|done].
  by destruct (currentTimeout w), (currentTask w).
Qed.

Lemma failCurrent_state_other i j e s :
  i ≠ j → workers (failCurrent_state i e s) !! j = workers s !! j.
Proof.
  intros Hne. unfold failCurrent_state, failCurrent.
  destruct (workers s !! i) as [w|]; [|done].
  destruct (currentTimeout w), (currentTask w); simpl;
    by rewrite ?list_lookup_alter_ne.
Qed.

Lemma settled_respawn i s : settled (respawn i s) = settled s.
Proof. unfold respawn. by repeat case_match. Qed.

(** The process of a worker that holds a task exits. *)
Lemma close_fails_current parse s i code w p task :
  workers s !! i = Some w → proc w = Some p → currentTask w = Some task →
  ∃ m s2 more,
    step parse m (ProcClose i code) s = Some s2
    ∧ settled s2
      = settled s
        ++ (handle task,
            failure (js "Worker exited (code=" ++ show_code code ++ js ")"))
           :: more.
Proof.
  intros Hw Hp Ht.
  destruct (step_total parse (ProcClose i code) s) as (m & s2 & H).
  exists m, s2. pose proof H as H'. unfold step in H'.
  rewrite (has_proc_true _ _ w p) in H' by done.
  apply bind_Some in H' as (sx & Hx & [= <-]).
  rewrite failCurrent_unfold in Hx.
  rewrite (failCurrent_calls_true _ _ w) in Hx by done.
  apply keeps_onWorkerFree, keeps_settled in Hx as [more Hx].
  exists more. split; [done|].
  rewrite settled_respawn, Hx.
  destruct (failCurrent_state_task (log (ProcessClosed code) s) i
              (js "Worker exited (code=" ++ show_code code ++ js ")")
              w task Hw Ht) as (-> & _).
  simpl. by rewrite <- app_assoc.
Qed.

(** X16. The timeout of a task fires while other tasks wait in the queue
    and the workers before this one are busy: the process is sent SIGKILL,
    the task is failed with [Task timeout], and, before the handler
    returns, [pump] assigns the task at the head of the queue to the same
    worker, whose process object is still in place. When that process
    exits, the second task is failed with [Worker exited]. *)
Theorem timeout_takes_the_next_task parse s id d i ms w task p next rest :
  timers s !! id = Some (d, TaskTimeout i ms) → d ≤ now s →
  workers s !! i = Some w → currentTask w = Some task →
  proc w = Some p → stdin p = StdinOpen →
  queue s = next :: rest →
  (∀ j, (j < i)%nat → ∃ w', workers s !! j = Some w' ∧ busy w' = true) →
  ∃ n s1,
    step parse n (TimerFires id) s = Some s1
    ∧ signals s1 = signals s ++ [pid p]
    ∧ (∃ more, settled s1
               = settled s
                 ++ (handle task, failure (js "Task timeout")) :: more)
    ∧ (∃ w1, workers s1 !! i = Some w1 ∧ busy w1 = true ∧ proc w1 = Some p
             ∧ (handle <$> currentTask w1) = Some (handle next))
    ∧ ∀ code, ∃ m s2 more,
        step parse m (ProcClose i code) s1 = Some s2
        ∧ settled s2
          = settled s1
            ++ (handle next,
                failure (js "Worker exited (code=" ++ show_code code
                         ++ js ")")) :: more.
Proof.
  intros Ht Hd Hw Hct Hp Hst Hq Hbusy.
  set (s0 := kill i (log (TimeoutKill ms) (clearTimeout id s))).
  assert (s0 = set_signals (signals s ++ [pid p])
                 (log (TimeoutKill ms) (clearTimeout id s))) as Hs0
    by (unfold s0; by rewrite (kill_spec i _ w p)).
  set (sf := failCurrent_state i (js "Task timeout") s0).
  assert (workers s0 !! i = Some w) as Hw0 by (by rewrite Hs0).
  destruct (failCurrent_state_task s0 i (js "Task timeout") w task Hw0 Hct)
    as (Hset & Hsig & wf & Hwf & Hpf & _ & Hbf & _).
  fold sf in Hset, Hsig, Hwf.
  assert (queue sf = next :: rest) as Hqf.
  { unfold sf. rewrite queue_failCurrent_state, Hs0. done. }
  set (s2 := assign_state i next (taskTimeoutMs sf) (set_queue rest sf)).
  destruct (assign_open Some i next (taskTimeoutMs sf) (set_queue rest sf)
              wf p)
    as (s2' & Ha & _ & (w2 & Hw2 & Hb2 & _ & Hh2 & _) & Hset2 & Hsig2);
    [done|congruence|done|].
  assert (s2' = s2) as -> by (unfold s2, assign_state; by rewrite Ha).
  assert (proc w2 = Some p) as Hp2.
  { destruct (keeps_assign_state i next (taskTimeoutMs sf) (set_queue rest sf))
      as (_ & _ & _ & _ & _ & _ & _ & _ & _ & _ & Hk & _).
    destruct (Hk i wf Hwf) as (w2' & Hw2' & Hpp & _). fold s2 in Hw2'.
    congruence. }
  destruct (pump_for_total (S i) s2) as (n3 & s3 & H3).
  set (s1 := arm_idle (scale_up s3)).
  exists (S (S (S n3 + (i - 0)))), s1.
  assert (step parse (S (S (S n3 + (i - 0)))) (TimerFires id) s = Some s1)
    as Hstep.
  { unfold step. rewrite Ht.
    assert ((d <=? now s) = true) as -> by (by apply Z.leb_le).
    unfold fire. fold s0. rewrite failCurrent_unfold.
    rewrite (failCurrent_calls_true _ _ w) by done. fold sf.
    change (onWorkerFree (S (S (S n3 + (i - 0)))) sf)
      with (x ← pump (S (S n3 + (i - 0))) sf; Some (arm_idle x)).
    change (pump (S (S n3 + (i - 0))) sf)
      with (x ← pump_for (S n3 + (i - 0)) 0 sf; Some (scale_up x)).
    rewrite pump_for_skip; [|lia|by rewrite Hqf|].
    2:{ intros j Hj. destruct (Hbusy j) as (w' & Hw' & Hb'); [lia|].
        exists w'. split; [|done]. unfold sf.
        rewrite failCurrent_state_other by lia. by rewrite Hs0. }
    simpl. rewrite Hwf, Hqf, Hbf. rewrite assign_unfold.
    assert (assign_calls i (set_queue rest sf) = false) as ->.
    { unfold assign_calls. simpl. rewrite Hwf.
      destruct wf as [[[q st]|] ? ? ? ? ? ?]; simpl in *; [|done].
      assert (st = StdinOpen) as ->; [|done].
      rewrite Hp in Hpf. injection Hpf as <-. exact Hst. }
    simpl. fold s2. by rewrite H3. }
  assert (workers s1 !! i = Some w2) as Hw1.
  { unfold s1. apply arm_idle_busy; [|done].
    unfold scale_up. destruct (must_scale_up s3);
      [apply lookup_push_worker; simpl|];
      (eapply pump_for_busy; [exact H3|exact Hw2|exact Hb2]). }
  assert (signals s1 = signals s ++ [pid p]) as Hsig1.
  { unfold s1.
    destruct (keeps_arm_idle (scale_up s3)) as (_ & _ & _ & _ & _ & _ & -> & _).
    destruct (keeps_scale_up s3) as (_ & _ & _ & _ & _ & _ & -> & _).
    destruct (keeps_pump_for _ _ _ _ H3) as (_ & _ & _ & _ & _ & _ & -> & _).
    rewrite Hsig2. simpl. rewrite Hsig, Hs0. done. }
  assert (∃ more, settled s1
                  = settled s
                    ++ (handle task, failure (js "Task timeout")) :: more)
    as Hset1.
  { destruct (keeps_settled _ _ (keeps_arm_idle (scale_up s3))) as [m1 E1].
    destruct (keeps_settled _ _ (keeps_scale_up s3)) as [m2 E2].
    destruct (keeps_settled _ _ (keeps_pump_for _ _ _ _ H3)) as [m3 E3].
    exists (m3 ++ m2 ++ m1). unfold s1. rewrite E1, E2, E3, Hset2. simpl.
    rewrite Hset, Hs0. simpl. by rewrite <- !app_assoc. }
  split_and!; [done|done|done|by exists w2|].
  intros code.
  destruct (currentTask w2) as [t2|] eqn:Ht2; [|done].
  injection Hh2 as Hh2. rewrite <- Hh2.
  by apply (close_fails_current parse s1 i code w2 p t2).
Qed.

Lemma timeout_takes_the_next_task_witness :
  ∃ n s1,
    step sample_parse n (TimerFires 0) one_timed_out_one_queued = Some s1
    ∧ signals s1 = signals one_timed_out_one_queued ++ [0%nat]
    ∧ (∃ more, settled s1
               = settled one_timed_out_one_queued
                 ++ (0%nat, failure (js "Task timeout")) :: more)
    ∧ (∃ w1, workers s1 !! 0%nat = Some w1 ∧ busy w1 = true
             ∧ proc w1 = Some {| pid := 0; stdin := StdinOpen |}
             ∧ (handle <$> currentTask w1) = Some 1%nat)
    ∧ ∀ code, ∃ m s2 more,
        step sample_parse m (ProcClose 0 code) s1 = Some s2
        ∧ settled s2
          = settled s1
            ++ (1%nat,
                failure (js "Worker exited (code=" ++ show_code code
                         ++ js ")")) :: more.
Proof.
  apply (timeout_takes_the_next_task sample_parse one_timed_out_one_queued
           0%nat 100 0%nat 100
           {| proc := Some {| pid := 0; stdin := StdinOpen |}; busy := true;
              stdoutBuffer := [];
              currentTask := Some {| handle := 0; rid := js "0_a";
                                     interpretation := JNull;
                                     __start := Some 0 |};
              currentTimeout := Some 0%nat; idleTimer := None;
              shouldRespawn := true |}
           {| handle := 0; rid := js "0_a"; interpretation := JNull;
              __start := Some 0 |}
           {| pid := 0; stdin := StdinOpen |}
           {| handle := 1; rid := js "0_b"; interpretation := JNull;
              __start := None |} []);
    [vm_compute; reflexivity|vm_compute; discriminate|vm_compute; reflexivity
    |reflexivity|reflexivity|reflexivity|vm_compute; reflexivity|].
  intros j Hj. lia.
Defined.

(** ** The timer of a task and the task *)

Lemma timely_mono s s' :
  (∀ id d i ms, timers s' !! id = Some (d, TaskTimeout i ms) →
                timers s !! id = Some (d, TaskTimeout i ms)) →
  (∀ i w, workers s !! i = Some w →
     ∃ w', workers s' !! i = Some w'
           ∧ currentTimeout w' = currentTimeout w
           ∧ currentTask w' = currentTask w) →
  timely s → timely s'.
Proof.
  intros Ht Hw Hs id d i ms Hid.
  destruct (Hs id d i ms (Ht _ _ _ _ Hid)) as (w & task & Hwi & Hto & Htk & Hst).
  destruct (Hw i w Hwi) as (w' & Hw' & E1 & E2).
  exists w', task. split_and!; congruence.
Qed.

Lemma workers_alter_same_task f (i : nat) (ws : list PersistentWorker) :
  (∀ w, currentTimeout (f w) = currentTimeout w
        ∧ currentTask (f w) = currentTask w) →
  ∀ j w, ws !! j = Some w →
    ∃ w', alter f i ws !! j = Some w'
          ∧ currentTimeout w' = currentTimeout w
          ∧ currentTask w' = currentTask w.
Proof.
  intros Hf j w Hw. destruct (decide (i = j)) as [->|Hne].
  - rewrite list_lookup_alter_eq, Hw. simpl. exists (f w).
    split; [done|apply Hf].
  - rewrite list_lookup_alter_ne by done. by exists w.
Qed.

(** The change of [failCurrent] and of the last part of
    [handleResultLine] on the timers and the workers. *)
Lemma timely_closed s s' i w :
  workers s !! i = Some w →
  timers s' = match currentTimeout w with
              | Some id => delete id (timers s)
              | None => timers s
              end →
  (∀ j, i ≠ j → workers s' !! j = workers s !! j) →
  timely s → timely s'.
Proof.
  intros Hw Ht Hother Hs id d k ms Hid. rewrite Ht in Hid.
  assert (timers s !! id = Some (d, TaskTimeout k ms)
          ∧ currentTimeout w ≠ Some id) as [Hid' Hne].
  { destruct (currentTimeout w) as [id0|]; [|done].
    apply lookup_delete_Some in Hid as [? ?]. split; [done|congruence]. }
  destruct (Hs id d k ms Hid') as (wk & task & Hwk & Hto & Htk & Hst).
  destruct (decide (i = k)) as [->|Hik]; [congruence|].
  exists wk, task. rewrite Hother by done. done.
Qed.

Lemma timely_failCurrent_state i e s :
  timely s → timely (failCurrent_state i e s).
Proof.
  unfold failCurrent_state, failCurrent.
  destruct (workers s !! i) as [w|] eqn:Hw; [|done].
  apply (timely_closed _ _ i w Hw).
  - by destruct (currentTimeout w), (currentTask w).
  - intros j Hne.
    destruct (currentTimeout w), (currentTask w); simpl;
      by rewrite ?list_lookup_alter_ne.
Qed.

Lemma timely_handleResultLine parse i line s s' :
  handleResultLine parse Some i line s = Some s' → timely s → timely s'.
Proof.
  unfold handleResultLine.
  destruct (match trim line with [] => true | first :: _ => _ end);
    [by intros [= <-]|].
  destruct (parse (trim line)) as [parsed|]; [|by intros [= <-]].
  destruct (workers s !! i) as [w|] eqn:Hw; [|by intros [= <-]].
  destruct (currentTask w) as [t|]; [|by intros [= <-]].
  intros [= <-]. apply (timely_closed _ _ i w Hw).
  - by destruct (currentTimeout w).
  - intros j Hne. destruct (currentTimeout w); simpl;
      by rewrite ?list_lookup_alter_ne.
Qed.

Lemma timely_assign_state k task ms s w :
  workers s !! k = Some w → currentTask w = None → currentTimeout w = None →
  timely s → timely (assign_state k task ms s).
Proof.
  intros Hw Hct Hcto Hs.
  assert (∀ id d ms', timers s !! id ≠ Some (d, TaskTimeout k ms')) as Hnone.
  { intros id d ms' Hid.
    destruct (Hs id d k ms' Hid) as (w' & t & Hw' & Hto & _). congruence. }
  assert (∀ (T : gmap nat (Z * TimerCallback)) (ws' : list PersistentWorker),
            (∀ id x, T !! id = Some x → timers s !! id = Some x) →
            (∀ j, k ≠ j → ws' !! j = workers s !! j) →
            ∀ id d i ms', T !! id = Some (d, TaskTimeout i ms') →
              ∃ w' t, ws' !! i = Some w' ∧ currentTimeout w' = Some id
                      ∧ currentTask w' = Some t
                      ∧ __start t = Some (d - timer_delay ms')) as Hold.
  { intros T ws' HT Hws id d i ms' Hid. apply HT in Hid.
    destruct (decide (k = i)) as [->|Hne]; [by destruct (Hnone id d ms')|].
    destruct (Hs id d i ms' Hid) as (w' & t & Hw' & ?).
    exists w', t. by rewrite Hws. }
  unfold assign_state, assign. rewrite Hw.
  destruct w as [[[p [| |m]]|] b buf ct cto it sr]; simpl in *; subst;
    try done.
  - intros id d i ms' Hid. destruct it as [it|]; simpl in *.
    + destruct (decide (next_timer s = id)) as [<-|Hne].
      * rewrite lookup_insert_eq in Hid. injection Hid as <- <- <-.
        rewrite list_alter_alter_eq, list_alter_alter_eq.
        rewrite list_lookup_alter_eq, Hw. simpl.
        eexists _, _. split_and!; [done|done|done|]. simpl. f_equal. lia.
      * rewrite lookup_insert_ne in Hid by done.
        eapply (Hold (delete it (timers s))); [| |exact Hid].
        -- intros id0 x H0. by apply lookup_delete_Some in H0 as [_ ?].
        -- intros j Hj. simpl. by rewrite !list_lookup_alter_ne.
    + destruct (decide (next_timer s = id)) as [<-|Hne].
      * rewrite lookup_insert_eq in Hid. injection Hid as <- <- <-.
        rewrite list_alter_alter_eq.
        rewrite list_lookup_alter_eq, Hw. simpl.
        eexists _, _. split_and!; [done|done|done|]. simpl. f_equal. lia.
      * rewrite lookup_insert_ne in Hid by done.
        eapply (Hold (timers s)); [done| |exact Hid].
        intros j Hj. simpl. by rewrite !list_lookup_alter_ne.
  - unfold failCurrent.
    destruct it as [it|]; simpl; rewrite !list_lookup_alter_eq, Hw; simpl;
      intros id d i ms' Hid; simpl in Hid;
      rewrite delete_insert_eq in Hid;
      apply lookup_delete_Some in Hid as [_ Hid].
    + eapply (Hold (delete it (timers s))); [| |exact Hid].
      * intros id0 x H0. by apply lookup_delete_Some in H0 as [_ ?].
      * intros j Hj. simpl. by rewrite !list_lookup_alter_ne.
    + eapply (Hold (timers s)); [done| |exact Hid].
      intros j Hj. simpl. by rewrite !list_lookup_alter_ne.
Qed.

Lemma timely_scheduleScaleDown i ttl s :
  timely s → timely (scheduleScaleDown i ttl s).
Proof.
  unfold scheduleScaleDown. destruct (_ <=? _); [done|].
  destruct (workers s !! i) as [w|] eqn:Hw; [|done].
  destruct (idleTimer w) as [it|]; simpl; apply timely_mono; simpl.
  - intros id d k ms Hid.
    destruct (decide (next_timer s = id)) as [<-|Hne].
    + by rewrite lookup_insert_eq in Hid.
    + rewrite lookup_insert_ne in Hid by done.
      by apply lookup_delete_Some in Hid as [_ ?].
  - by apply workers_alter_same_task.
  - intros id d k ms Hid.
    destruct (decide (next_timer s = id)) as [<-|Hne].
    + by rewrite lookup_insert_eq in Hid.
    + by rewrite lookup_insert_ne in Hid.
  - by apply workers_alter_same_task.
Qed.

Lemma timely_respawn i s : timely s → timely (respawn i s).
Proof.
  apply timely_mono.
  - intros id d k ms Hid. unfold respawn in Hid. simpl in Hid.
    rewrite list_lookup_alter_eq in Hid.
    destruct (workers s !! i) as [w|]; simpl in Hid; [|done].
    destruct (shouldRespawn w); simpl in Hid; [|done].
    destruct (decide (next_timer s = id)) as [<-|Hne].
    + by rewrite lookup_insert_eq in Hid.
    + by rewrite lookup_insert_ne in Hid.
  - rewrite workers_respawn. by apply workers_alter_same_task.
Qed.

Lemma change_timely s s' :
  change s s' → tasks_iff_busy s → every_worker timeout_iff_task s →
  timely s → timely s'.
Proof.
  destruct 1; intros Hb Hto.
  - apply timely_mono; [done|]. intros j w0 Hw0. by exists w0.
  - apply timely_mono; [done|]. intros j w0 Hw0. by exists w0.
  - apply timely_mono; [done|]. simpl. apply workers_alter_same_task.
    intros w0. by destruct (proc w0).
  - apply timely_mono; [done|]. intros j w0 Hw0. by exists w0.
  - intros Hs. apply (timely_assign_state _ _ _ _ w); [done| | |done].
    + destruct (currentTask w) eqn:Hc; [|done].
      assert (busy w = true) by (by apply (Hb k w)). congruence.
    + destruct (currentTimeout w) eqn:Hc; [|done].
      assert (is_Some (currentTask w)) as [t Ht]
        by (by apply (Hto k w)).
      assert (busy w = true) by (apply (Hb k w); [done|by rewrite Ht]).
      congruence.
  - unfold scale_up. destruct (must_scale_up s); [|done].
    apply timely_mono; [done|]. intros j w0 Hw0. exists w0.
    split; [|done]. by apply lookup_push_worker.
  - apply timely_scheduleScaleDown.
  - apply timely_mono; [done|]. simpl. by apply workers_alter_same_task.
  - by eapply timely_handleResultLine.
  - apply timely_failCurrent_state.
  - apply timely_mono; [|intros j w0 Hw0; by exists w0].
    intros id0 d k ms Hid. simpl in Hid.
    by apply lookup_delete_Some in Hid as [_ ?].
  - apply timely_mono.
    + intros id0 d0 k ms0 Hid. rewrite timers_kill in Hid.
      simpl in Hid. by apply lookup_delete_Some in Hid as [_ ?].
    + rewrite workers_kill. intros j w0 Hw0. by exists w0.
  - apply timely_mono.
    + intros id0 d0 k ms0 Hid. rewrite timers_kill in Hid.
      simpl in Hid. by apply lookup_delete_Some in Hid as [_ ?].
    + rewrite workers_kill. simpl. by apply workers_alter_same_task.
  - apply timely_mono.
    + intros id0 d0 k ms0 Hid. simpl in Hid.
      by apply lookup_delete_Some in Hid as [_ ?].
    + simpl. by apply workers_alter_same_task.
Qed.

Lemma timeouts_iff_tasks_changes s s' :
  rtc change s s' →
  every_worker timeout_iff_task s → every_worker timeout_iff_task s'.
Proof.
  apply (ew_changes timeout_iff_task); unfold timeout_iff_task; simpl; done.
Qed.

Lemma changes_timely s s' :
  rtc change s s' → tasks_iff_busy s → every_worker timeout_iff_task s →
  timely s → timely s'.
Proof.
  induction 1 as [|s1 s2 s3 H1 _ IH]; [done|]. intros Hb Hto Hs.
  apply IH.
  - eapply tasks_iff_busy_changes; [by apply rtc_once|done].
  - eapply timeouts_iff_tasks_changes; [by apply rtc_once|done].
  - by eapply change_timely.
Qed.

(** X17. While every worker that holds a task is busy and has its
    timeout timer, every pending timeout timer is the one of the task its
    worker holds, armed at the assignment of that task: every handler
    keeps this. *)
Theorem timeout_timers_belong_to_tasks parse n e s s' :
  tasks_iff_busy s → every_worker timeout_iff_task s → timely s →
  step parse n e s = Some s' → timely s'.
Proof.
  intros Hb Hto Hs H.
  apply step_changes in H as (s1 & Hch & [->|[_ [i ->]]]).
  - by eapply changes_timely.
  - apply timely_respawn. by eapply changes_timely.
Qed.

Lemma timely_new_pool min max timeout ttl :
  timely (new_pool min max timeout ttl).
Proof.
  assert (timers (new_pool min max timeout ttl) = ∅) as Ht.
  { unfold new_pool. induction (Z.to_nat min) as [|k IH]; [done|].
    simpl. unfold push_worker, spawn. simpl. exact IH. }
  intros id d i ms Hid. by rewrite Ht, lookup_empty in Hid.
Qed.

(** A run in which no process dies keeps the three invariants. *)
Lemma calm_run parse n es s s' :
  forallb (λ e, negb (crash e)) es = true →
  run parse n es s = Some s' →
  tasks_iff_busy s → every_worker timeout_iff_task s → timely s →
  tasks_iff_busy s' ∧ every_worker timeout_iff_task s' ∧ timely s'.
Proof.
  revert s. induction es as [|e es IH]; intros s Hcalm H Hb Hto Hs;
    simpl in H.
  - by simplify_eq.
  - simpl in Hcalm. apply andb_true_iff in Hcalm as [He Hcalm].
    apply bind_Some in H as (s1 & H1 & H2).
    apply step_changes in H1 as (s0 & Hch & [->|[Hc _]]);
      [|by rewrite Hc in He].
    apply (IH s0); [done|done| | |].
    + by eapply tasks_iff_busy_changes.
    + by eapply timeouts_iff_tasks_changes.
    + by eapply changes_timely.
Qed.

Lemma timeout_timers_belong_to_tasks_witness :
  timely (after [Submit JNull (js "a")] (new_pool 1 1 1000 300)).
Proof.
  apply (timeout_timers_belong_to_tasks sample_parse 100
           (Submit JNull (js "a")) (new_pool 1 1 1000 300)).
  - intros i w Hw. destruct i as [|i]; simpl in Hw; [|by destruct i].
    injection Hw as <-. split; [by intros [? ?]|done].
  - intros i w Hw. destruct i as [|i]; simpl in Hw; [|by destruct i].
    injection Hw as <-. split; by intros [? ?].
  - apply timely_new_pool.
  - vm_compute; reflexivity.
Defined.

(** X18. In a state where the pending timeout timers are those of the
    tasks of the workers, a timeout timer that fires at its deadline
    fails, with [Task timeout], the task that was assigned one timeout
    delay before the deadline: the task the timer was armed for. *)
Theorem timeout_fails_its_own_task parse s id d i ms :
  timely s → timers s !! id = Some (d, TaskTimeout i ms) → d ≤ now s →
  ∃ w task n s1 more,
    workers s !! i = Some w ∧ currentTask w = Some task
    ∧ __start task = Some (d - timer_delay ms)
    ∧ step parse n (TimerFires id) s = Some s1
    ∧ settled s1
      = settled s ++ (handle task, failure (js "Task timeout")) :: more.
Proof.
  intros Hs Ht Hd.
  destruct (Hs id d i ms Ht) as (w & task & Hw & _ & Htk & Hst).
  destruct (step_total parse (TimerFires id) s) as (n & s1 & H).
  pose proof H as H'. unfold step in H'. rewrite Ht in H'.
  assert ((d <=? now s) = true) as E by (by apply Z.leb_le).
  rewrite E in H'. unfold fire in H'.
  set (s0 := kill i (log (TimeoutKill ms) (clearTimeout id s))) in H'.
  assert (workers s0 !! i = Some w) as Hw0
    by (unfold s0; by rewrite workers_kill).
  rewrite failCurrent_unfold in H'.
  rewrite (failCurrent_calls_true _ _ w) in H' by done.
  apply keeps_onWorkerFree, keeps_settled in H' as [more H'].
  destruct (failCurrent_state_task s0 i (js "Task timeout") w task Hw0 Htk)
    as (Hset & _).
  exists w, task, n, s1, more. split_and!; try done.
  rewrite H', Hset, <- app_assoc. simpl. f_equal.
  unfold s0, kill. by repeat case_match.
Qed.

Lemma timeout_fails_its_own_task_witness :
  ∃ w task n s1 more,
    workers one_timed_out_one_queued !! 0%nat = Some w
    ∧ currentTask w = Some task
    ∧ __start task = Some (100 - timer_delay 100)
    ∧ step sample_parse n (TimerFires 0) one_timed_out_one_queued = Some s1
    ∧ settled s1
      = settled one_timed_out_one_queued
        ++ (handle task, failure (js "Task timeout")) :: more.
Proof.
  apply (timeout_fails_its_own_task sample_parse one_timed_out_one_queued
           0%nat 100 0%nat 100).
  - apply (calm_run sample_parse 100
             [Submit JNull (js "a"); Submit JNull (js "b"); Tick 100]
             (new_pool 1 1 100 300)).
    + reflexivity.
    + vm_compute; reflexivity.
    + intros i w Hw. destruct i as [|i]; simpl in Hw; [|by destruct i].
      injection Hw as <-. split; [by intros [? ?]|done].
    + intros i w Hw. destruct i as [|i]; simpl in Hw; [|by destruct i].
      injection Hw as <-. split; by intros [? ?].
    + apply timely_new_pool.
  - vm_compute; reflexivity.
  - vm_compute; discriminate.
Defined.

(** ** Trimming *)

Lemma trimStart_clean s :
  match s with c :: _ => is_js_space c = false | [] => True end →
  trimStart s = s.
Proof. destruct s as [|c s]; simpl; [done|]. by intros ->. Qed.

Lemma trimStart_is_clean s :
  match trimStart s with c :: _ => is_js_space c = false | [] => True end.
Proof.
  induction s as [|c s IH]; simpl; [done|].
  destruct (is_js_space c) eqn:E; [done|]. simpl. done.
Qed.

Lemma trimStart_snoc s c :
  is_js_space c = false → trimStart (s ++ [c]) = trimStart s ++ [c].
Proof.
  intros Hc. induction s as [|x s IH]; simpl; [by rewrite Hc|].
  by destruct (is_js_space x).
Qed.

(** [trim] leaves a trimmed string as it is: the second [trim], the one
    of [handleResultLine], changes nothing on a line of the [data]
    handler. *)
Lemma trim_idem s : trim (trim s) = trim s.
Proof.
  unfold trim, trimEnd.
  set (a := trimStart s).
  assert (match a with c :: _ => is_js_space c = false | [] => True end)
    as Ha by apply trimStart_is_clean.
  assert (trimStart (List.rev (trimStart (List.rev a)))
          = List.rev (trimStart (List.rev a))) as ->.
  { apply trimStart_clean. destruct a as [|c a']; [done|].
    simpl. rewrite trimStart_snoc by done.
    by rewrite rev_app_distr. }
  rewrite rev_involutive.
  by rewrite (trimStart_clean (trimStart _)) by apply trimStart_is_clean.
Qed.

(** ** A submission and its result *)

Lemma pump_for_on_empty_queue n k s :
  queue s = [] → pump_for (S n) k s = Some s.
Proof. intros Hq. simpl. rewrite Hq. by destruct (workers s !! k). Qed.

Lemma onWorkerFree_on_empty_queue n s :
  queue s = [] → onWorkerFree (S (S (S n))) s = Some (arm_idle s).
Proof.
  intros Hq.
  change (onWorkerFree (S (S (S n))) s)
    with (x ← pump (S (S n)) s; Some (arm_idle x)).
  change (pump (S (S n)) s)
    with (x ← pump_for (S n) 0 s; Some (scale_up x)).
  rewrite pump_for_on_empty_queue by done. simpl.
  unfold scale_up, must_scale_up. by rewrite Hq.
Qed.

(** [assign] on a worker whose process takes the write. *)
Lemma assign_state_open i task ms s w p :
  workers s !! i = Some w → proc w = Some p → stdin p = StdinOpen →
  settled (assign_state i task ms s) = settled s
  ∧ queue (assign_state i task ms s) = queue s
  ∧ now (assign_state i task ms s) = now s
  ∧ written (assign_state i task ms s)
    = written s ++ [(pid p, JObj [(js "rid", JStr (rid task));
                                  (js "interpretation", interpretation task)])]
  ∧ ∃ w1, workers (assign_state i task ms s) !! i = Some w1
          ∧ busy w1 = true ∧ proc w1 = Some p
          ∧ stdoutBuffer w1 = stdoutBuffer w
          ∧ currentTask w1 = Some {| handle := handle task; rid := rid task;
                                     interpretation := interpretation task;
                                     __start := Some (now s) |}.
Proof.
  intros Hw Hp Hs. unfold assign_state, assign. rewrite Hw.
  destruct w as [pr b buf ct cto it sr]. simpl in Hp. subst pr.
  destruct p as [pd st]. simpl in Hs. subst st. simpl.
  destruct it as [it|]; simpl; rewrite !list_lookup_alter_eq, Hw; simpl;
    (split_and!; [done|done|done|done|eexists; split_and!; done]).
Qed.

(** [handleResultLine] on a line that parses, for a worker that holds a
    task. *)
Lemma handleResultLine_closes parse free i line s w task parsed :
  workers s !! i = Some w → currentTask w = Some task →
  looks_json line = true → parse (trim line) = Some parsed →
  ∃ s1 o,
    handleResultLine parse free i line s = free s1
    ∧ settled s1 = settled s ++ [(handle task, o)]
    ∧ (success o = true ↔ prop parsed (js "status") = Some (JStr (js "success")))
    ∧ result o = Some parsed
    ∧ error o = prop parsed (js "error")
    ∧ executionTime o = reported_time parsed (__start task) (now s)
    ∧ queue s1 = queue s ∧ written s1 = written s
    ∧ ∃ w1, workers s1 !! i = Some w1 ∧ busy w1 = false
            ∧ currentTask w1 = None ∧ currentTimeout w1 = None
            ∧ proc w1 = proc w ∧ stdoutBuffer w1 = stdoutBuffer w.
Proof.
  intros Hw Ht Hj Hp. unfold handleResultLine.
  rewrite looks_json_test, Hj, Hp, Hw, Ht. simpl.
  eexists _, _. split; [reflexivity|].
  split_and!.
  - by destruct (currentTimeout w).
  - simpl. destruct (prop parsed (js "status")) as [[]|]; simpl;
      try (split; [discriminate|congruence]).
    rewrite bool_decide_eq_true. split; congruence.
  - done.
  - done.
  - simpl. unfold reported_time.
    by destruct (prop parsed (js "__t")) as [[]|].
  - by destruct (currentTimeout w).
  - by destruct (currentTimeout w).
  - destruct (currentTimeout w) eqn:Hc; simpl;
      rewrite !list_lookup_alter_eq, Hw; simpl; eexists; split_and!; try done.
Qed.

(** The loop that arms the idle timers changes the idle timers only. *)
Lemma arm_idle_spec s :
  settled (arm_idle s) = settled s ∧ written (arm_idle s) = written s
  ∧ queue (arm_idle s) = queue s
  ∧ ∀ j w, workers s !! j = Some w →
      ∃ t, workers (arm_idle s) !! j = Some (set_idleTimer t w).
Proof.
  assert (∀ w, set_idleTimer (idleTimer w) w = w) as Hid by (by intros []).
  unfold arm_idle. destruct (0 <? _).
  2:{ split_and!; try done. intros j w Hw. exists (idleTimer w).
      by rewrite Hid. }
  generalize (seq 0 (length (workers s))). intros l.
  revert s. induction l as [|i l IH]; intros s; simpl.
  { split_and!; try done. intros j w Hw. exists (idleTimer w).
    by rewrite Hid. }
  match goal with |- context [foldl _ ?s0 l] => set (s1 := s0) end.
  assert (settled s1 = settled s ∧ written s1 = written s
          ∧ queue s1 = queue s
          ∧ ∀ j w, workers s !! j = Some w →
              ∃ t, workers s1 !! j = Some (set_idleTimer t w))
    as (E1 & E2 & E3 & E4).
  { unfold s1. destruct (workers s !! i) as [wi|] eqn:Hwi.
    2:{ split_and!; try done. intros j w Hw. exists (idleTimer w).
        by rewrite Hid. }
    destruct (_ && _).
    2:{ split_and!; try done. intros j w Hw. exists (idleTimer w).
        by rewrite Hid. }
    unfold scheduleScaleDown. destruct (_ <=? _).
    { split_and!; try done. intros j w Hw. exists (idleTimer w).
      by rewrite Hid. }
    rewrite Hwi.
    destruct (idleTimer wi); simpl; (split_and!; try done);
      intros j w Hw; (destruct (decide (i = j)) as [->|Hne];
        [rewrite list_lookup_alter_eq, Hw; simpl; eauto
        |rewrite list_lookup_alter_ne by done; exists (idleTimer w);
         by rewrite Hid]). }
  destruct (IH s1) as (F1 & F2 & F3 & F4).
  split_and!; try congruence.
  intros j w Hw. destruct (E4 j w Hw) as (t & Hj).
  destruct (F4 j _ Hj) as (t' & Hj'). exists t'. by rewrite Hj'.
Qed.

Lemma run_cons parse n e es s :
  run parse n (e :: es) s = s1 ← step parse n e s; run parse n es s1.
Proof. done. Qed.

Lemma stdout_while_line parse f i s w idx c l :
  workers s !! i = Some w → indexOf LF (stdoutBuffer w) = Some idx →
  trim (take idx (stdoutBuffer w)) = c :: l →
  stdout_while parse (S f) i s
  = s2 ← handleResultLine parse (onWorkerFree f) i (c :: l)
           (upd_worker i (set_stdoutBuffer (drop (S idx) (stdoutBuffer w))) s);
    stdout_while parse f i s2.
Proof. intros Hw Hi Ht. simpl. by rewrite Hw, Hi, Ht. Qed.

Lemma stdout_while_done parse f i s w :
  workers s !! i = Some w → indexOf LF (stdoutBuffer w) = None →
  stdout_while parse (S f) i s = Some s.
Proof. intros Hw Hi. simpl. by rewrite Hw, Hi. Qed.

(** X19. A submission on an empty queue, with a worker that is not busy
    and whose process takes the write, the workers before it being busy,
    and then, [dt] ms later, one chunk of output made of one line that
    looks like JSON and parses: the task is written to that process as
    the envelope of its [rid] and payload, and its promise is resolved
    once, with the parsed result, with [success] true exactly when the
    [status] is the string [success], and with the [__t] of the result
    for execution time, or [dt] when the result has none. The worker is
    idle again, with its process, and the queue is empty. *)
Theorem submission_and_result parse s i w p payload rnd dt data text parsed :
  queue s = [] → workers s !! i = Some w → busy w = false →
  proc w = Some p → stdin p = StdinOpen → stdoutBuffer w = [] →
  (∀ j, (j < i)%nat → ∃ w', workers s !! j = Some w' ∧ busy w' = true) →
  0 ≤ dt →
  Buffer_toString data = text ++ [LF] → indexOf LF text = None →
  looks_json text = true → parse (trim text) = Some parsed →
  ∃ n s2 o,
    run parse n [Submit payload rnd; Tick dt; StdoutData i data] s = Some s2
    ∧ settled s2 = settled s ++ [(next_handle s, o)]
    ∧ (success o = true
       ↔ prop parsed (js "status") = Some (JStr (js "success")))
    ∧ result o = Some parsed ∧ error o = prop parsed (js "error")
    ∧ executionTime o = reported_time parsed (Some (now s)) (now s + dt)
    ∧ written s2
      = written s
        ++ [(pid p, JObj [(js "rid", JStr (js_of_Z (now s) ++ js "_" ++ rnd));
                          (js "interpretation", payload)])]
    ∧ queue s2 = []
    ∧ ∃ w2, workers s2 !! i = Some w2 ∧ busy w2 = false
            ∧ currentTask w2 = None ∧ currentTimeout w2 = None
            ∧ proc w2 = Some p.
Proof.
  intros Hq Hw Hb Hp Hst Hbuf Hbusy Hdt Htext Hnolf Hjson Hparse.
  set (r := js_of_Z (now s) ++ js "_" ++ rnd).
  set (task := {| handle := next_handle s; rid := r;
                  interpretation := payload; __start := None |}).
  set (sL := log (TaskQueued r 1)
               (set_next_handle (S (next_handle s)) (set_queue [task] s))).
  set (s1 := assign_state i task (taskTimeoutMs sL) (set_queue [] sL)).
  destruct (assign_state_open i task (taskTimeoutMs sL) (set_queue [] sL) w p)
    as (A1 & A2 & A3 & A4 & w1 & Hw1 & Hb1 & Hp1 & Hbuf1 & Ht1);
    [done|done|done|]. fold s1 in A1, A2, A3, A4, Hw1.
  (* the submission *)
  assert (step parse (S (2 + (i - 0))) (Submit payload rnd) s = Some s1)
    as HA.
  { unfold step, processInterpretation. rewrite Hq, app_nil_l.
    change (pump (S (2 + (i - 0))) sL = Some s1).
    change (pump (S (2 + (i - 0))) sL)
      with (x ← pump_for (2 + (i - 0)) 0 sL; Some (scale_up x)).
    rewrite pump_for_skip; [|lia|done|intros j Hj; apply Hbusy; lia].
    assert (pump_for 2 i sL = Some s1) as ->.
    { change (pump_for 2 i sL)
        with (match workers sL !! i with
              | None => Some sL
              | Some worker =>
                  match queue sL with
                  | [] => Some sL
                  | task :: rest =>
                      if busy worker then pump_for 1 (S i) sL
                      else x ← assign (onWorkerFree 1) i task
                                 (taskTimeoutMs sL) (set_queue rest sL);
                           pump_for 1 (S i) x
                  end
              end).
      change (workers sL) with (workers s). rewrite Hw.
      change (queue sL) with [task]. rewrite Hb.
      rewrite assign_unfold.
      assert (assign_calls i (set_queue [] sL) = false) as ->.
      { unfold assign_calls. change (workers (set_queue [] sL)) with (workers s).
        rewrite Hw. destruct w as [[[q st]|] ? ? ? ? ? ?]; simpl in *; [|done].
        assert (st = StdinOpen) as ->; [|done].
        injection Hp as <-. exact Hst. }
      change (pump_for 1 (S i) s1 = Some s1).
      by apply pump_for_on_empty_queue. }
    change (Some (scale_up s1) = Some s1).
    unfold scale_up, must_scale_up. by rewrite A2. }
  (* the clock *)
  set (s1t := set_now (now s1 + dt) s1).
  assert (step parse 1 (Tick dt) s1 = Some s1t) as HB.
  { unfold step. by assert ((0 <=? dt) = true) as -> by (by apply Z.leb_le). }
  (* the output *)
  set (sb := upd_worker i
               (λ w, set_stdoutBuffer (stdoutBuffer w ++ Buffer_toString data) w)
               s1t).
  assert (workers sb !! i
          = Some (set_stdoutBuffer (text ++ [LF]) w1)) as Hwb.
  { unfold sb. simpl. rewrite list_lookup_alter_eq, Hw1. simpl.
    by rewrite Hbuf1, Hbuf, Htext. }
  assert (indexOf LF (text ++ [LF]) = Some (length text)) as Hidx.
  { rewrite indexOf_app, Hnolf. simpl. f_equal. lia. }
  destruct (trim text) as [|c l] eqn:Htrim.
  { unfold looks_json in Hjson. by rewrite Htrim in Hjson. }
  set (sc := upd_worker i (set_stdoutBuffer []) sb).
  assert (workers sc !! i = Some (set_stdoutBuffer [] w1)) as Hwc.
  { unfold sc. simpl. rewrite list_lookup_alter_eq.
    change (workers sb !! i ) with
      (alter (λ w, set_stdoutBuffer (stdoutBuffer w ++ Buffer_toString data) w)
             i (workers s1) !! i).
    rewrite list_lookup_alter_eq, Hw1. done. }
  destruct (handleResultLine_closes parse (onWorkerFree 4) i (c :: l) sc
              (set_stdoutBuffer [] w1)
              {| handle := next_handle s; rid := r; interpretation := payload;
                 __start := Some (now s) |} parsed)
    as (s3 & o & H3 & C1 & C2 & C3 & C4 & C5 & C6 & C7 & w3 & Hw3 & Hb3
        & Ht3 & Hto3 & Hp3 & Hbuf3).
  { done. }
  { simpl. exact Ht1. }
  { unfold looks_json in *. rewrite <- Htrim, trim_idem. exact Hjson. }
  { rewrite <- Htrim, trim_idem, Htrim. exact Hparse. }
  destruct (arm_idle_spec s3) as (D1 & D2 & D3 & D4).
  destruct (D4 i w3 Hw3) as (t & Hw2).
  assert (step parse 5 (StdoutData i data) s1t = Some (arm_idle s3)) as HC.
  { unfold step.
    rewrite (has_proc_true _ _ w1 p) by done.
    unfold on_stdout_data. fold sb.
    rewrite (stdout_while_line parse 4 i sb _ (length text) c l Hwb);
      [|exact Hidx|simpl; by rewrite take_app_length].
    change (stdoutBuffer (set_stdoutBuffer (text ++ [LF]) w1))
      with (text ++ [LF]).
    rewrite (drop_ge (text ++ [LF])) by (rewrite length_app; simpl; lia).
    fold sc.
    rewrite H3, onWorkerFree_on_empty_queue by (by rewrite C6). simpl.
    apply (stdout_while_done parse 3 i _ _ Hw2). simpl. by rewrite Hbuf3. }
  exists (S (2 + (i - 0)) + 5)%nat, (arm_idle s3), o.
  split.
  { rewrite run_cons.
    rewrite (step_le parse _ _ _ _ _ (Nat.le_add_r _ 5) HA).
    change (run parse (S (2 + (i - 0)) + 5) [Tick dt; StdoutData i data] s1
            = Some (arm_idle s3)).
    rewrite run_cons.
    rewrite (step_le parse 1 (S (2 + (i - 0)) + 5) (Tick dt) s1 s1t)
      by (lia || done).
    change (run parse (S (2 + (i - 0)) + 5) [StdoutData i data] s1t
            = Some (arm_idle s3)).
    rewrite run_cons.
    by rewrite (step_le parse 5 (S (2 + (i - 0)) + 5) (StdoutData i data)
                  s1t (arm_idle s3)) by (lia || done). }
  split_and!.
  - rewrite D1, C1. simpl. by rewrite A1.
  - done.
  - done.
  - done.
  - rewrite C5. simpl. by rewrite A3.
  - rewrite D2, C7. simpl. by rewrite A4.
  - by rewrite D3, C6.
  - eexists. split_and!; [exact Hw2|done|done|done|].
    simpl. rewrite Hp3. exact Hp1.
Qed.

Lemma submission_and_result_witness :
  ∃ n s2 o,
    run sample_parse n
      [Submit JNull (js "a"); Tick 7;
       StdoutData 0 (bytes_of (sample_result_text ++ [LF]))]
      (new_pool 1 1 1000 300) = Some s2
    ∧ settled s2 = settled (new_pool 1 1 1000 300)
                   ++ [(next_handle (new_pool 1 1 1000 300), o)]
    ∧ (success o = true
       ↔ prop sample_result (js "status") = Some (JStr (js "success")))
    ∧ result o = Some sample_result
    ∧ error o = prop sample_result (js "error")
    ∧ executionTime o
      = reported_time sample_result (Some (now (new_pool 1 1 1000 300)))
                      (now (new_pool 1 1 1000 300) + 7)
    ∧ written s2
      = written (new_pool 1 1 1000 300)
        ++ [(pid {| pid := 0; stdin := StdinOpen |},
             JObj [(js "rid",
                    JStr (js_of_Z (now (new_pool 1 1 1000 300))
                          ++ js "_" ++ js "a"));
                   (js "interpretation", JNull)])]
    ∧ queue s2 = []
    ∧ ∃ w2, workers s2 !! 0%nat = Some w2 ∧ busy w2 = false
            ∧ currentTask w2 = None ∧ currentTimeout w2 = None
            ∧ proc w2 = Some {| pid := 0; stdin := StdinOpen |}.
Proof.
  apply (submission_and_result sample_parse (new_pool 1 1 1000 300) 0
           {| proc := Some {| pid := 0; stdin := StdinOpen |}; busy := false;
              stdoutBuffer := []; currentTask := None;
              currentTimeout := None; idleTimer := None;
              shouldRespawn := true |}
           {| pid := 0; stdin := StdinOpen |} JNull (js "a") 7
           (bytes_of (sample_result_text ++ [LF])) sample_result_text
           sample_result);
    try (vm_compute; reflexivity).
  - intros j Hj. lia.
  - vm_compute. discriminate.
Defined.

(** ** The lines that reach [handleResultLine] *)

(** X20. Every line the [data] handler hands to [handleResultLine] is
    trimmed and not empty, whatever the buffer and the chunk: the [trim]
    of [handleResultLine] changes nothing on it, and its first character
    exists. *)
Theorem lines_handed_over_are_trimmed (buf : jsstring) (data : list byte) :
  Forall (λ line, line ≠ [] ∧ trim line = line) (feed buf data).1.
Proof.
  unfold feed. rewrite frame_split. unfold spec_frame. simpl.
  apply Forall_forall. intros line Hin.
  apply list_elem_of_filter in Hin as [Hne Hin]. split; [done|].
  apply list_elem_of_fmap in Hin as (x & -> & _). apply trim_idem.
Qed.
